(** * SeriesAnalyser: mean-reversion diagnostics and pair search

    A shallow embedding of [class_SeriesAnalyser.py]: [zero_crossings],
    [calculate_half_life], [hurst], [check_for_stationarity],
    [check_for_cointegration], [find_pairs] and [pairs_overlap].

    Numbers.  The program computes on binary64 floats.  The embedding takes
    finite values as exact rationals ([Q]) and keeps the non-finite values
    that the program itself can produce and test (the half-life, a quotient,
    and the Hurst exponent, a fitted slope) in the type [fval].  Prices,
    spreads, regression coefficients, t-statistics and p-values are finite.

    Series.  A pandas [Series] is its name and its values in order, a
    [DataFrame] is its columns in order, with distinct names and one length;
    indexing and slicing are positional.  Row labels are distinct and matter
    at one place: [np.subtract] in [hurst] aligns two Series on their labels,
    where it subtracts two arrays by position.

    Libraries.  statsmodels ([adfuller], [add_constant], [OLS]) and the
    transcendental part of numpy ([std], [sqrt], [log], [polyfit]) are not
    code of this repository: they are the fields of the class [Backend], and
    every theorem holds for every backend.  Closed examples run on the
    explicit backends of the modules [Lab] and [Example].

    Exceptions.  Python code raises; the embedding returns a [result]. *)

From Stdlib Require Import String.
From Stdlib Require Import QArith Qabs Qround ZArith List Bool Lia Lqa.
From Stdlib Require Import Sorting.Sorted.
Import ListNotations.

Local Open Scope Q_scope.

(** ** Exceptions and the error monad *)

Inductive exn : Type :=
| ValueError
| OverflowError
| IndexError
| KeyError
| TypeError
| LinAlgError.

Inductive result (A : Type) : Type :=
| Ok (a : A)
| Raise (e : exn).

Arguments Ok {A} a.
Arguments Raise {A} e.

Definition bind {A B : Type} (c : result A) (k : A -> result B) : result B :=
  match c with
  | Ok a => k a
  | Raise e => Raise e
  end.

Notation "x <- c ;; k" := (bind c (fun x => k))
  (at level 61, c at next level, right associativity).

Definition returns {A : Type} (c : result A) : Prop := exists a, c = Ok a.

Definition raises {A : Type} (c : result A) : Prop := exists e, c = Raise e.

(** ** Numbers *)

(** A float that may be non-finite.  [Inf true] is [-inf]. *)
Inductive fval : Type :=
| Fin (q : Q)
| Inf (negative : bool)
| NaN.

Definition Qlt_bool (a b : Q) : bool := negb (Qle_bool b a).

(** [a >= m] for a float [a] and a finite [m]; every comparison with [nan]
    is false. *)
Definition fge (a : fval) (m : Q) : bool :=
  match a with
  | Fin q => Qle_bool m q
  | Inf negative => negb negative
  | NaN => false
  end.

(** [a < m]. *)
Definition flt (a : fval) (m : Q) : bool :=
  match a with
  | Fin q => Qlt_bool q m
  | Inf negative => negative
  | NaN => false
  end.

(** [a * 2.0]. *)
Definition fdouble (a : fval) : fval :=
  match a with
  | Fin q => Fin (q * 2)
  | other => other
  end.

(** Python's [round(x)] on a finite float: to the nearest integer, a tie to
    the even one. *)
Definition py_round (q : Q) : Z :=
  let f := Qfloor q in
  let r := q - inject_Z f in
  if Qlt_bool r (1 # 2) then f
  else if Qlt_bool (1 # 2) r then (f + 1)%Z
  else if Z.even f then f else (f + 1)%Z.

(** [int(round(x))]: an infinity raises OverflowError, [nan] ValueError. *)
Definition int_round (x : fval) : result Z :=
  match x with
  | Fin q => Ok (py_round q)
  | Inf _ => Raise OverflowError
  | NaN => Raise ValueError
  end.

(** ** Sequences *)

Definition np_sum (x : list Q) : Q := fold_left Qplus x 0.

(** [x.mean()].  On an empty series pandas gives [nan]; the value is then
    never used, since nothing is left to subtract it from. *)
Definition mean (x : list Q) : Q := np_sum x / inject_Z (Z.of_nat (length x)).

(** [x[i]] at a position inside the sequence. *)
Definition item (x : list Q) (i : nat) : Q := nth i x 0.

(** [sum(1 for ...)]. *)
Definition py_sum (l : list Z) : Z := fold_left Z.add l 0%Z.

(** ** zero_crossings *)

Definition zero_crossings (x : list Q) : Z :=
  let x := map (fun v => v - mean x) x in
  py_sum
    (map (fun _ => 1%Z)
       (filter
          (fun i =>
             (i + 1 <? length x)%nat
             && (Qlt_bool (item x i * item x (i + 1)) 0 || Qeq_bool (item x i) 0))
          (seq 0 (length x)))).

(** The reading of the count as a property of adjacent pairs: a pair
    [(a, b)] of consecutive values counts when the two lie strictly on
    opposite sides of the mean [m], or when [a], the value the pair starts
    at, equals [m]. *)
Definition opposite_sides (m a b : Q) : bool :=
  (Qlt_bool m a && Qlt_bool b m) || (Qlt_bool a m && Qlt_bool m b).

Definition crossing (m a b : Q) : bool :=
  opposite_sides m a b || Qeq_bool a m.


Fixpoint count_adjacent (p : Q -> Q -> bool) (x : list Q) : Z :=
  match x with
  | a :: ((b :: _) as rest) => ((if p a b then 1 else 0) + count_adjacent p rest)%Z
  | _ => 0%Z
  end.

(** The sequence [1, -1, 1, -1, ...] of length [n]. *)
Definition alternating (n : nat) : list Q :=
  map (fun i => if Nat.even i then 1 else - (1)) (seq 0 n).

(** ** Series, frames and regression parameters *)

(** A pandas [Series]: its name and its values in order. *)
Record series : Type := { name : string; values : list Q }.

(** A pandas [DataFrame]: its columns in order, all of one length. *)
Definition frame : Type := list series.

(** The fitted coefficients, by regressor name, in the order of the design. *)
Definition params : Type := list (string * Q).

(** [frame[key]], KeyError when no column has that name.  Column names are
    taken to be distinct, as in a price panel. *)
Definition column (f : frame) (key : string) : result series :=
  match find (fun s => String.eqb (name s) key) f with
  | Some s => Ok s
  | None => Raise KeyError
  end.

(** [params[key]] by name. *)
Definition coefficient (p : params) (key : string) : result Q :=
  match find (fun kv => String.eqb (fst kv) key) p with
  | Some kv => Ok (snd kv)
  | None => Raise KeyError
  end.

(** [seq[i]] by position, IndexError outside. *)
Definition at_position {A : Type} (l : list A) (i : nat) : result A :=
  match nth_error l i with
  | Some a => Ok a
  | None => Raise IndexError
  end.

(** [frame[1:]]: every column without its first row. *)
Definition drop_first_row (f : frame) : frame :=
  map (fun s => {| name := name s; values := tl (values s) |}) f.

(** Element-wise arithmetic on aligned sequences of one length. *)
Definition subtract (a b : list Q) : list Q :=
  map (fun uv => fst uv - snd uv) (combine a b).

Definition scale (b : Q) (x : list Q) : list Q := map (fun v => b * v) x.

(** [range(a, b)]. *)
Definition range (a b : nat) : list nat := seq a (b - a).

(** [a[k:]] and [a[:-k]] for a positive [k]. *)
Definition slice_from {A : Type} (k : nat) (a : list A) : list A := skipn k a.

Definition slice_to_minus {A : Type} (k : nat) (a : list A) : list A :=
  firstn (length a - k) a.

(** [np.roll(z, 1)]: the last value comes first. *)
Definition np_roll1 (z : list Q) : list Q :=
  match z with
  | [] => []
  | _ :: _ => last z 0 :: removelast z
  end.

(** [a[0] = v], IndexError on an empty array. *)
Definition set_first (v : Q) (a : list Q) : result (list Q) :=
  match a with
  | [] => Raise IndexError
  | _ :: rest => Ok (v :: rest)
  end.

(** ** The libraries the program calls *)

(** What [adfuller] returns, as far as the program reads it: entries 0, 1
    and 4 of the tuple. *)
Record critical : Type := { crit_1pct : Q; crit_5pct : Q; crit_10pct : Q }.

Record adf : Type := { adf_stat : Q; adf_pvalue : Q; adf_critical : critical }.

Class Backend : Type := {
  (** [statsmodels.tsa.stattools.adfuller(x)] *)
  adfuller : list Q -> result adf;
  (** [sm.add_constant(x)]: the design with its constant column *)
  add_constant : series -> frame;
  (** [sm.OLS(endog, exog).fit().params] *)
  ols_fit : list Q -> frame -> result params;
  (** [np.std], [np.sqrt], [np.log] *)
  np_std : list Q -> fval;
  np_sqrt : fval -> fval;
  np_log : fval -> fval;
  (** [np.polyfit(x, y, deg)]: the coefficients, highest power first *)
  np_polyfit : list fval -> list fval -> nat -> result (list fval)
}.

(** [-a / lam] as numpy computes it ([a] a float, [lam] finite): a division
    by zero raises nothing and gives an infinity or [nan].  A zero [lam] is
    read as [+0.0]. *)
Definition neg_over (a : fval) (lam : Q) : fval :=
  match a with
  | Fin c =>
      if Qeq_bool lam 0
      then (if Qeq_bool c 0 then NaN else Inf (Qlt_bool 0 c))
      else Fin (- c / lam)
  | Inf negative => Inf (xorb (negb negative) (Qlt_bool lam 0))
  | NaN => NaN
  end.

(** The record [check_for_cointegration] builds for one regression
    direction; the two test slices are set once the direction is chosen. *)
Record coint : Type := {
  t_statistic : Q;
  critical_val : critical;
  p_value : Q;
  coint_coef : Q;
  zero_cross : Z;
  half_life : Z;
  hurst_exponent : fval;
  spread : list Q;
  Y_train : series;
  X_train : series;
  X_test : option series;
  Y_test : option series
}.

Definition set_tests (r : coint) (x_test y_test : series) : coint :=
  {| t_statistic := t_statistic r;
     critical_val := critical_val r;
     p_value := p_value r;
     coint_coef := coint_coef r;
     zero_cross := zero_cross r;
     half_life := half_life r;
     hurst_exponent := hurst_exponent r;
     spread := spread r;
     Y_train := Y_train r;
     X_train := X_train r;
     X_test := Some x_test;
     Y_test := Some y_test |}.

(** [d[key]] on a key that may be missing. *)
Definition field {A : Type} (v : option A) : result A :=
  match v with
  | Some a => Ok a
  | None => Raise KeyError
  end.

(** The thresholds of the four filters. *)
Record thresholds : Type := {
  p_value_threshold : Q;
  min_half_life : Q;
  min_zero_crossings : Q;
  hurst_threshold : Q
}.

(** A candidate: the two column keys and the record of the chosen direction. *)
Definition candidate : Type := (string * string * coint)%type.

(** A loop [for x in xs] over a state, left to right, stopping at the first
    exception. *)
Fixpoint for_each {A S : Type} (xs : list A) (s : S) (body : S -> A -> result S)
  : result S :=
  match xs with
  | [] => Ok s
  | x :: rest => s' <- body s x ;; for_each rest s' body
  end.

(** [enumerate(xs)]. *)
Definition enumerate {A : Type} (xs : list A) : list (nat * A) :=
  combine (seq 0 (length xs)) xs.

(** ** Arrays and Series

    What [hurst] is given: a numpy array, or a pandas [Series], which is
    what [check_for_cointegration] and [pairs_overlap] pass. *)
Inductive vector : Type :=
| Array (a : list Q)
| Indexed (s : list Q).

(** The rows of a Series with their labels.  The labels of a Series are
    distinct; a row is labelled here by its position in the Series. *)
Definition rows (s : list Q) : list (nat * Q) := enumerate s.

(** The value a Series holds at a label, if it holds one. *)
Definition row (label : nat) (s : list (nat * Q)) : option Q :=
  option_map snd (find (fun r => Nat.eqb (fst r) label) s).

(** The union of two indexes, in increasing order. *)
Definition index_union (a b : list (nat * Q)) : list nat :=
  filter (fun label => match row label a, row label b with
                       | None, None => false
                       | _, _ => true
                       end)
         (seq 0 (S (list_max (map fst (a ++ b))))).

(** [np.subtract(a, b)] on two Series: pandas aligns them first, so the
    result has the union of the two indexes, with the difference at a label
    that both hold and [nan] at a label that one of them lacks. *)
Definition aligned_subtract (a b : list (nat * Q)) : list fval :=
  map (fun label => match row label a, row label b with
                    | Some u, Some v => Fin (u - v)
                    | _, _ => NaN
                    end)
      (index_union a b).

(** The values of a Series that are not missing. *)
Definition dropna (l : list fval) : list Q :=
  flat_map (fun v => match v with Fin q => [q] | _ => [] end) l.

Section Analyser.

Context {B : Backend}.

(** *** check_for_stationarity *)

Definition check_for_stationarity (X : list Q) : result adf := adfuller X.

(** *** calculate_half_life *)

(** The regressor name statsmodels gives an unnamed array. *)
Definition x1 : string := "x1"%string.

(** Lines 187-196: the lagged level, the first difference and the fit. *)
Definition half_life_fit (z_array : list Q) : result params :=
  z_lag <- set_first 0 (np_roll1 z_array) ;;
  z_ret <- set_first 0 (subtract z_array z_lag) ;;
  let z_lag2 := add_constant {| name := x1; values := z_lag |} in
  ols_fit (slice_from 1 z_ret) (drop_first_row z_lag2).

Definition calculate_half_life (z_array : list Q) : result fval :=
  res <- half_life_fit z_array ;;
  lam <- at_position res 1 ;;
  Ok (neg_over (np_log (Fin 2)) (snd lam)).

(** *** hurst *)

Definition lags : list nat := range 2 100.

Definition lag_value (lag : nat) : fval := Fin (inject_Z (Z.of_nat lag)).

(** [np.std(np.subtract(ts[lag:], ts[:-lag]))].  Slicing is positional and
    keeps the labels of a Series.  [np.std] of a Series is its method
    [std(ddof=0)], which skips the missing values and is [nan] when nothing
    is left. *)
Definition lagged_std (ts : vector) (lag : nat) : fval :=
  match ts with
  | Array a => np_std (subtract (slice_from lag a) (slice_to_minus lag a))
  | Indexed s =>
      match dropna (aligned_subtract (slice_from lag (rows s))
                                     (slice_to_minus lag (rows s))) with
      | [] => NaN
      | present => np_std present
      end
  end.

Definition hurst (ts : vector) : result fval :=
  let tau := map (fun lag => np_sqrt (lagged_std ts lag)) lags in
  poly <- np_polyfit (map (fun lag => np_log (lag_value lag)) lags)
                     (map np_log tau) 1 ;;
  slope <- at_position poly 0 ;;
  Ok (fdouble slope).

(** *** The hedge ratio and the spread

    Lines 60-68 of [check_for_cointegration] and 156-161 of [pairs_overlap]
    are the same statements: regress [S2] on [S1] with a constant, read the
    coefficient of [S1], form [S2 - b * S1]. *)
Definition hedge (S1 S2 : series) : result (Q * series * list Q) :=
  let series_name := name S1 in
  let design := add_constant S1 in
  results <- ols_fit (values S2) design ;;
  S1' <- column design series_name ;;
  b <- coefficient results (name S1') ;;
  Ok (b, S1', subtract (values S2) (scale b (values S1'))).

(** *** check_for_cointegration *)

(** The body of the loop over the two directions. *)
Definition direction (S1 S2 : series) : result coint :=
  h <- hedge S1 S2 ;;
  let '(b, S1', spread) := h in
  stats <- check_for_stationarity spread ;;
  let zero_cross := zero_crossings spread in
  hl <- calculate_half_life spread ;;
  hurst_exponent <- hurst (Indexed spread) ;;
  hl_int <- int_round hl ;;
  Ok {| t_statistic := adf_stat stats;
        critical_val := adf_critical stats;
        p_value := adf_pvalue stats;
        coint_coef := b;
        zero_cross := zero_cross;
        half_life := hl_int;
        hurst_exponent := hurst_exponent;
        spread := spread;
        Y_train := S2;
        X_train := S1';
        X_test := None;
        Y_test := None |}.

(** Lines 85-96: the choice between the two records. *)
Definition select (stats0 stats1 : coint) (test_series : series * series) : coint :=
  if Qlt_bool (Qabs (t_statistic stats1)) (Qabs (t_statistic stats0))
  then set_tests stats0 (fst test_series) (snd test_series)
  else set_tests stats1 (snd test_series) (fst test_series).

Definition check_for_cointegration (train_series test_series : series * series)
  : result coint :=
  let X := fst train_series in
  let Y := snd train_series in
  stats0 <- direction X Y ;;
  stats1 <- direction Y X ;;
  Ok (select stats0 stats1 test_series).

(** *** find_pairs *)

(** The body of the two loops, for the columns at positions [i] and [j]. *)
Definition examine (data_train data_test : frame) (th : thresholds)
  (pairs : list candidate) (i j : nat) : result (list candidate) :=
  let keys := map name data_train in
  key_i <- at_position keys i ;;
  key_j <- at_position keys j ;;
  S1_train <- column data_train key_i ;;
  S2_train <- column data_train key_j ;;
  S1_test <- column data_test key_i ;;
  S2_test <- column data_test key_j ;;
  result <- check_for_cointegration (S1_train, S2_train) (S1_test, S2_test) ;;
  if Qlt_bool (p_value result) (p_value_threshold th) then
    hl <- calculate_half_life (spread result) ;;
    if fge hl (min_half_life th) then
      if Qle_bool (min_zero_crossings th) (inject_Z (zero_cross result)) then
        if flt (hurst_exponent result) (hurst_threshold th) then
          Ok (pairs ++ [(key_i, key_j, result)])
        else Ok pairs
      else Ok pairs
    else Ok pairs
  else Ok pairs.

Definition find_pairs (data_train data_test : frame) (th : thresholds)
  : result (list candidate) :=
  let n := length data_train in
  for_each (range 0 n) [] (fun pairs i =>
    for_each (range (i + 1) n) pairs (fun pairs j =>
      examine data_train data_test th pairs i j)).

(** *** pairs_overlap *)

(** The body of the loop, for the candidate [cand] at position [index]. *)
Definition recheck (th : thresholds) (acc : list candidate * list nat)
  (index : nat) (cand : candidate) : result (list candidate * list nat) :=
  let '(pairs_overlapped, pairs_overlapped_index) := acc in
  X <- field (X_test (snd cand)) ;;
  Y <- field (Y_test (snd cand)) ;;
  h <- hedge X Y ;;
  let '(b, X', spread) := h in
  stats <- check_for_stationarity spread ;;
  if Qlt_bool (adf_pvalue stats) (p_value_threshold th) then
    hl <- calculate_half_life spread ;;
    if fge hl (min_half_life th) then
      let zero_cross := zero_crossings spread in
      if Qle_bool (min_zero_crossings th) (inject_Z zero_cross) then
        hurst_exponent <- hurst (Indexed spread) ;;
        if flt hurst_exponent (hurst_threshold th) then
          Ok (pairs_overlapped ++ [cand], pairs_overlapped_index ++ [index])
        else Ok acc
      else Ok acc
    else Ok acc
  else Ok acc.

Definition pairs_overlap (pairs : list candidate) (th : thresholds)
  : result (list candidate * list nat) :=
  for_each (enumerate pairs) ([], []) (fun acc ip =>
    recheck th acc (fst ip) (snd ip)).

End Analyser.

(** ** Notions the properties are stated with *)

(** The index pairs [(i, j)] with [i < j < n], in lexicographic order. *)
Definition index_pairs (n : nat) : list (nat * nat) :=
  flat_map (fun i => map (fun j => (i, j)) (range (i + 1) n)) (range 0 n).

Definition lex_lt (p q : nat * nat) : Prop :=
  (fst p < fst q)%nat \/ (fst p = fst q /\ (snd p < snd q)%nat).

(** Filters applied in the order of the list: the first one that fails
    decides, and no later one is evaluated (so none of them can raise). *)
Fixpoint run_filters (fs : list (result bool)) : result bool :=
  match fs with
  | [] => Ok true
  | f :: rest => passed <- f ;; if passed then run_filters rest else Ok false
  end.

(** The conjunction of the four threshold tests on given diagnostics. *)
Definition four_filter (th : thresholds) (p : Q) (hl : fval) (zc : Z) (h : fval)
  : bool :=
  Qlt_bool p (p_value_threshold th)
  && fge hl (min_half_life th)
  && Qle_bool (min_zero_crossings th) (inject_Z zc)
  && flt h (hurst_threshold th).

(** Visit the elements in order and collect, in that order, what [f] keeps;
    the first exception ends the visit. *)
Fixpoint select_in_order {A C : Type} (f : A -> result (option C)) (xs : list A)
  : result (list C) :=
  match xs with
  | [] => Ok []
  | x :: rest =>
      kept <- f x ;;
      others <- select_in_order f rest ;;
      Ok (match kept with Some c => c :: others | None => others end)
  end.

(** The level one step back, and the first difference, of [z[1:]]. *)
Definition lagged_level (z : list Q) : list Q := removelast z.

Definition first_difference (z : list Q) : list Q :=
  map (fun t => item z (t + 1) - item z t) (seq 0 (length z - 1)).

(** The [L]-lagged difference series of [ts]. *)
Definition lagged_difference (L : nat) (ts : list Q) : list Q :=
  map (fun t => item ts (t + L) - item ts t) (seq 0 (length ts - L)).

Section Reading.

Context {B : Backend}.

(** [tau(L)]: the square root of the standard deviation of the [L]-lagged
    differences. *)
Definition tau (ts : list Q) (L : nat) : fval :=
  np_sqrt (np_std (lagged_difference L ts)).

(** What [find_pairs] evaluates for the columns at positions [i] and [j]. *)
Definition evaluate (data_train data_test : frame) (ij : nat * nat)
  : result candidate :=
  let keys := map name data_train in
  key_i <- at_position keys (fst ij) ;;
  key_j <- at_position keys (snd ij) ;;
  S1_train <- column data_train key_i ;;
  S2_train <- column data_train key_j ;;
  S1_test <- column data_test key_i ;;
  S2_test <- column data_test key_j ;;
  result <- check_for_cointegration (S1_train, S2_train) (S1_test, S2_test) ;;
  Ok (key_i, key_j, result).

(** The four filters of [find_pairs], in their order, on a record. *)
Definition train_filters (th : thresholds) (r : coint) : list (result bool) :=
  [ Ok (Qlt_bool (p_value r) (p_value_threshold th));
    (hl <- calculate_half_life (spread r) ;; Ok (fge hl (min_half_life th)));
    Ok (Qle_bool (min_zero_crossings th) (inject_Z (zero_cross r)));
    Ok (flt (hurst_exponent r) (hurst_threshold th)) ].

Definition visit (data_train data_test : frame) (th : thresholds) (ij : nat * nat)
  : result (option candidate) :=
  c <- evaluate data_train data_test ij ;;
  keep <- run_filters (train_filters th (snd c)) ;;
  Ok (if keep then Some c else None).

(** What [pairs_overlap] fits on the test slices of a candidate: the hedge
    ratio, the spread and its stationarity test. *)
Definition refit (c : candidate) : result (Q * list Q * adf) :=
  X <- field (X_test (snd c)) ;;
  Y <- field (Y_test (snd c)) ;;
  h <- hedge X Y ;;
  stats <- check_for_stationarity (snd h) ;;
  Ok (fst (fst h), snd h, stats).

(** The four filters of [pairs_overlap], in their order, on a test spread. *)
Definition test_filters (th : thresholds) (stats : adf) (spread : list Q)
  : list (result bool) :=
  [ Ok (Qlt_bool (adf_pvalue stats) (p_value_threshold th));
    (hl <- calculate_half_life spread ;; Ok (fge hl (min_half_life th)));
    Ok (Qle_bool (min_zero_crossings th) (inject_Z (zero_crossings spread)));
    (h <- hurst (Indexed spread) ;; Ok (flt h (hurst_threshold th))) ].

(** Whether a candidate is still valid on its test slices. *)
Definition valid_out_of_sample (th : thresholds) (c : candidate) : result bool :=
  r <- refit c ;;
  run_filters (test_filters th (snd r) (snd (fst r))).

Definition revisit (th : thresholds) (ic : nat * candidate)
  : result (option (candidate * nat)) :=
  keep <- valid_out_of_sample th (snd ic) ;;
  Ok (if keep then Some (snd ic, fst ic) else None).

End Reading.

(** Every element evaluated in order, stopping at the first exception. *)
Fixpoint map_result {A C : Type} (f : A -> result C) (xs : list A) : result (list C) :=
  match xs with
  | [] => Ok []
  | x :: rest => c <- f x ;; cs <- map_result f rest ;; Ok (c :: cs)
  end.

(** ** Laboratory backends

    Exact least squares on rationals, a unit-root test that follows a script,
    and a line fit that follows a script.  They serve the closed examples
    only; no theorem depends on them. *)

Module Lab.

(** The binary64 value of [np.log(2)]. *)
Definition ln2 : Q := 6243314768165359 # 9007199254740992.

Definition dot (a b : list Q) : Q :=
  np_sum (map (fun uv => fst uv * snd uv) (combine a b)).

(** The design of a regressor that is not itself a non-zero constant. *)
Definition with_constant (s : series) : frame :=
  [ {| name := "const"; values := map (fun _ => 1) (values s) |}; s ].

(** The least-squares line through the points, for a design made of the
    constant and one regressor; on a singular design the solution of least
    norm, as the pseudo-inverse gives it. *)
Definition least_squares (endog : list Q) (exog : frame) : result params :=
  match exog with
  | [c; x] =>
      let n := inject_Z (Z.of_nat (length endog)) in
      let sx := np_sum (values x) in
      let sy := np_sum endog in
      let sxx := dot (values x) (values x) in
      let sxy := dot (values x) endog in
      let den := n * sxx - sx * sx in
      if Qeq_bool n 0 then Raise ValueError
      else if Qeq_bool den 0 then
        let k := sy / n / (1 + sxx / n) in
        Ok [(name c, Qred k); (name x, Qred (sx / n * k))]
      else
        let b := (n * sxy - sx * sy) / den in
        Ok [(name c, Qred ((sy - b * sx) / n)); (name x, Qred b)]
  | _ => Raise ValueError
  end.

Definition critical_values : critical :=
  {| crit_1pct := - (343 # 100);
     crit_5pct := - (286 # 100);
     crit_10pct := - (257 # 100) |}.

(** A unit-root test that refuses a sample of at most three observations
    with ValueError, as statsmodels does, and otherwise reports the scripted
    statistic and p-value. *)
Definition unit_root (stat pvalue : list Q -> Q) (x : list Q) : result adf :=
  if (length x <=? 3)%nat then Raise ValueError
  else Ok {| adf_stat := stat x;
             adf_pvalue := pvalue x;
             adf_critical := critical_values |}.

(** The logarithm is known at 2 only; elsewhere, and for the standard
    deviation, the laboratory answers [nan]. *)
Definition log_at_2 (v : fval) : fval :=
  match v with
  | Fin q => if Qeq_bool q 2 then Fin ln2 else NaN
  | _ => NaN
  end.

Definition backend (stat pvalue : list Q -> Q) (line : result (list fval))
  : Backend :=
  {| adfuller := unit_root stat pvalue;
     add_constant := with_constant;
     ols_fit := least_squares;
     np_std := fun _ => NaN;
     np_sqrt := fun v => v;
     np_log := log_at_2;
     np_polyfit := fun _ _ _ => line |}.

End Lab.

(** ** Example data *)

Module Example.

(** A backend whose unit-root test reports the same statistic, -3, and the
    same p-value, 0.01, for every spread, and whose line fit has slope 0.2. *)
Definition tied : Backend :=
  Lab.backend (fun _ => - (3)) (fun _ => 1 # 100) (Ok [Fin (1 # 5); Fin 0]).

(** A backend whose unit-root statistic differs from one spread to another. *)
Definition untied : Backend :=
  Lab.backend (fun x => - (3) - Qabs (item x 0)) (fun _ => 1 # 100)
              (Ok [Fin (1 # 5); Fin 0]).

Definition growing : list Q := [1; 2; 4; 8].

Definition A : series := {| name := "A"; values := [1; 2; 4; 3; 5; 4] |}.
Definition B : series := {| name := "B"; values := [2; 5; 7; 8; 9; 10] |}.
Definition A_test : series := {| name := "A"; values := [5; 4; 6; 5; 7; 6] |}.
Definition B_test : series := {| name := "B"; values := [9; 11; 10; 12; 13; 12] |}.

(** Three observations: too few for the unit-root test. *)
Definition A_short : series := {| name := "A"; values := [5; 4; 6] |}.
Definition B_short : series := {| name := "B"; values := [9; 11; 10] |}.

(** Two series whose spread reverts slowly: its half-life lies between 4.5
    and 5. *)
Definition P : series :=
  {| name := "P"; values := [2; 9; 15; 21; 27; 31; 36; 43; 48; 51] |}.
Definition R : series :=
  {| name := "R"; values := [1; 4; 7; 10; 13; 15; 17; 20; 22; 23] |}.

Definition loose : thresholds :=
  {| p_value_threshold := 5 # 100;
     min_half_life := 0;
     min_zero_crossings := 0;
     hurst_threshold := 1 # 2 |}.

(** The defaults of [find_pairs], with a p-value threshold of 0.05. *)
Definition defaults : thresholds :=
  {| p_value_threshold := 5 # 100;
     min_half_life := 5;
     min_zero_crossings := 0;
     hurst_threshold := 1 # 2 |}.

(** The defaults with a half-life floor of 1. *)
Definition floor_one : thresholds :=
  {| p_value_threshold := 5 # 100;
     min_half_life := 1;
     min_zero_crossings := 0;
     hurst_threshold := 1 # 2 |}.

Definition listed {A : Type} (r : result (list A)) : list A :=
  match r with
  | Ok l => l
  | Raise _ => []
  end.

(** What [find_pairs] returns on the panel [A], [B] with the full test
    window, and with a test window of three observations. *)
Definition found : list candidate :=
  Eval vm_compute in listed (@find_pairs tied [A; B] [A_test; B_test] loose).

Definition found_short : list candidate :=
  Eval vm_compute in listed (@find_pairs tied [A; B] [A_short; B_short] loose).

(** What [find_pairs] returns on the panel [P], [R], tested on itself, with
    a half-life floor of 1. *)
Definition slow : list candidate :=
  Eval vm_compute in listed (@find_pairs untied [P; R] [P; R] floor_one).

(** A backend that knows the standard deviation of zeros (0) and of nothing
    ([nan]), the square root and the logarithm at 0 and at 1, and whose line
    fit is [nan] as soon as a point is not finite; 1 stands for any other
    standard deviation, 0 for any other logarithm and 1/4 for any other
    slope. *)
Definition std_of_zeros (l : list Q) : fval :=
  match l with
  | [] => NaN
  | _ :: _ => if forallb (fun d => Qeq_bool d 0) l then Fin 0 else Fin 1
  end.

Definition log_of_zero (v : fval) : fval :=
  match v with
  | Fin q => if Qeq_bool q 0 then Inf true else Fin 0
  | Inf negative => if negative then NaN else Inf false
  | NaN => NaN
  end.

Definition finite (v : fval) : bool :=
  match v with
  | Fin _ => true
  | _ => false
  end.

Definition fit_of_finite (x y : list fval) (deg : nat) : result (list fval) :=
  if forallb finite x && forallb finite y
  then Ok [Fin (1 # 4); Fin 0]
  else Ok [NaN; NaN].

Definition degenerate : Backend :=
  {| adfuller := Lab.unit_root (fun _ => - (3)) (fun _ => 1 # 100);
     add_constant := Lab.with_constant;
     ols_fit := Lab.least_squares;
     np_std := std_of_zeros;
     np_sqrt := fun v => v;
     np_log := log_of_zero;
     np_polyfit := fit_of_finite |}.

(** The squares 0, 1, 4, ..., 199 * 199, and the cubes. *)
Definition squares : list Q :=
  map (fun t => inject_Z (Z.of_nat (t * t))) (seq 0 200).

Definition cubes : list Q :=
  map (fun t => inject_Z (Z.of_nat (t * t * t))) (seq 0 200).

End Example.

(** ** Tactics *)

(** One step through a chain of binds and tests: case analysis on the first
    computation or condition that is not itself a bind. *)
Ltac step :=
  match goal with
  | |- context [bind ?c _] =>
      lazymatch c with
      | bind _ _ => fail
      | Ok _ => fail
      | Raise _ => fail
      | (if _ then _ else _) => fail
      | _ => destruct c; cbn [bind fst snd]; try reflexivity
      end
  | |- context [if ?b then _ else _] => destruct b; cbn [bind fst snd]; try reflexivity
  end.

(** ** Further notions *)

(** Whether the four filters of [find_pairs], at thresholds [th], keep a
    candidate. *)
Definition keeps {B : Backend} (th : thresholds) (c : candidate) : bool :=
  match run_filters (train_filters th (snd c)) with
  | Ok true => true
  | _ => false
  end.

(** [th] is at least as strict as [th'] on each of the four thresholds. *)
Definition stricter (th th' : thresholds) : Prop :=
  p_value_threshold th <= p_value_threshold th'
  /\ min_half_life th' <= min_half_life th
  /\ min_zero_crossings th' <= min_zero_crossings th
  /\ hurst_threshold th <= hurst_threshold th'.

(** ** variance_ratio *)

(** What [variance_ratio] ends with: the ratio, or one of the two exceptions
    it can raise. *)
Inductive ratio : Type :=
| Ratio (v : fval)
| ZeroDivisionError
| BroadcastValueError.

(** [sum(np.square(d))]. *)
Definition square_sum (d : list Q) : Q := np_sum (map (fun v => v * v) d).

(** numpy's [t / d] on finite floats: a zero divisor gives [nan] or an
    infinity, and raises nothing. *)
Definition np_divide (t d : Q) : fval :=
  if Qeq_bool d 0
  then (if Qeq_bool t 0 then NaN else Inf (Qlt_bool t 0))
  else Fin (t / d).

(** *** Floats with their special values

    Arithmetic on finite values is exact.  The sign of a zero is not kept: a
    zero divisor is read as [+0.0]. *)

Definition fadd (a b : fval) : fval :=
  match a, b with
  | Fin x, Fin y => Fin (x + y)
  | NaN, _ | _, NaN => NaN
  | Inf s, Inf s' => if Bool.eqb s s' then Inf s else NaN
  | Inf s, Fin _ | Fin _, Inf s => Inf s
  end.

Definition fsub (a b : fval) : fval :=
  match a, b with
  | Fin x, Fin y => Fin (x - y)
  | NaN, _ | _, NaN => NaN
  | Inf s, Inf s' => if Bool.eqb s s' then NaN else Inf s
  | Inf s, Fin _ => Inf s
  | Fin _, Inf s => Inf (negb s)
  end.

Definition fmul (a b : fval) : fval :=
  match a, b with
  | Fin x, Fin y => Fin (x * y)
  | NaN, _ | _, NaN => NaN
  | Inf s, Inf s' => Inf (xorb s s')
  | Inf s, Fin y | Fin y, Inf s =>
      if Qeq_bool y 0 then NaN else Inf (xorb s (Qlt_bool y 0))
  end.

(** numpy's division: a zero divisor raises nothing. *)
Definition fdiv (a b : fval) : fval :=
  match a, b with
  | Fin x, Fin y => np_divide x y
  | NaN, _ | _, NaN => NaN
  | Inf _, Inf _ => NaN
  | Inf s, Fin y => Inf (xorb s (Qlt_bool y 0))
  | Fin _, Inf _ => Fin 0
  end.

(** *** Python numbers and numpy floats

    A scalar of [variance_ratio] is a Python [int], a Python [float] or a
    numpy [float64].  An operation with a numpy operand is numpy's. *)
Inductive number : Type :=
| py_int (z : Z)
| py_float (v : fval)
| np_float64 (v : fval).

Definition value (x : number) : fval :=
  match x with
  | py_int z => Fin (inject_Z z)
  | py_float v => v
  | np_float64 v => v
  end.

Definition is_numpy (x : number) : bool :=
  match x with
  | np_float64 _ => true
  | _ => false
  end.

Definition minus (x y : number) : number :=
  match x, y with
  | py_int a, py_int b => py_int (a - b)
  | _, _ =>
      if is_numpy x || is_numpy y then np_float64 (fsub (value x) (value y))
      else py_float (fsub (value x) (value y))
  end.

Definition times (x y : number) : number :=
  match x, y with
  | py_int a, py_int b => py_int (a * b)
  | _, _ =>
      if is_numpy x || is_numpy y then np_float64 (fmul (value x) (value y))
      else py_float (fmul (value x) (value y))
  end.

(** The steps of [variance_ratio]: a value, or one of the two exceptions. *)
Inductive attempt (A : Type) : Type :=
| Done (a : A)
| DivisionByZero
| CannotBroadcast.

Arguments Done {A} a.
Arguments DivisionByZero {A}.
Arguments CannotBroadcast {A}.

Definition and_then {A C : Type} (c : attempt A) (k : A -> attempt C) : attempt C :=
  match c with
  | Done a => k a
  | DivisionByZero => DivisionByZero
  | CannotBroadcast => CannotBroadcast
  end.

Notation "x <~ c ;; k" := (and_then c (fun x => k))
  (at level 61, c at next level, right associativity).

Definition is_zero (v : fval) : bool :=
  match v with
  | Fin q => Qeq_bool q 0
  | _ => false
  end.

(** [x / y].  Python raises ZeroDivisionError on a zero divisor when both
    operands are Python numbers; with a numpy operand the division is
    numpy's and gives an infinity or [nan]. *)
Definition truediv (x y : number) : attempt number :=
  if is_numpy x || is_numpy y then Done (np_float64 (fdiv (value x) (value y)))
  else if is_zero (value y) then DivisionByZero
  else Done (py_float (fdiv (value x) (value y))).

(** *** Arrays *)

(** A bound of a slice as Python reads it: a negative bound counts from the
    end, and every bound is clipped to the array. *)
Definition clip (n i : Z) : Z :=
  if (i <? 0)%Z then Z.max (i + n) 0 else Z.min i n.

(** [a[start:stop]]. *)
Definition py_slice {A : Type} (start stop : Z) (a : list A) : list A :=
  let n := Z.of_nat (length a) in
  let s := clip n start in
  let e := clip n stop in
  firstn (Z.to_nat (e - s)) (skipn (Z.to_nat s) a).

(** [a - b] on one-dimensional arrays: the lengths agree, or an array of
    length 1 is stretched to the other; anything else is a ValueError. *)
Definition np_subtract (a b : list fval) : attempt (list fval) :=
  if (length a =? length b)%nat
  then Done (map (fun uv => fsub (fst uv) (snd uv)) (combine a b))
  else
    match a, b with
    | [x], _ => Done (map (fun v => fsub x v) b)
    | _, [y] => Done (map (fun u => fsub u y) a)
    | _, _ => CannotBroadcast
    end.

(** [a - c] for a scalar [c], and [np.square(a)]. *)
Definition minus_scalar (a : list fval) (c : number) : list fval :=
  map (fun v => fsub v (value c)) a.

Definition np_square (a : list fval) : list fval := map (fun v => fmul v v) a.

(** Python's [sum(a)], that is [0 + a[0] + a[1] + ...]: the [int] 0 on an
    empty array, a numpy float otherwise. *)
Definition builtin_sum (a : list fval) : number :=
  match a with
  | [] => py_int 0
  | _ :: _ => np_float64 (fold_left fadd a (Fin 0))
  end.

Definition raised_or_returned (c : attempt number) : ratio :=
  match c with
  | Done r => Ratio (value r)
  | DivisionByZero => ZeroDivisionError
  | CannotBroadcast => BroadcastValueError
  end.

(** [variance_ratio(ts, lag)] for a one-dimensional sequence of floats and an
    integer [lag >= 0], line by line. *)
Definition variance_ratio (ts : list Q) (lag : nat) : ratio :=
  let ts := map Fin ts in
  let n := Z.of_nat (length ts) in
  let lag := Z.of_nat lag in
  raised_or_returned
    (d <~ np_subtract (py_slice 1 n ts) (py_slice 0 (n - 1) ts) ;;
     mu <~ truediv (builtin_sum d) (py_int n) ;;
     lag_by_n <~ truediv (py_int lag) (py_int n) ;;
     let m := times (py_int (n - lag + 1)) (minus (py_int 1) lag_by_n) in
     d <~ np_subtract (py_slice 1 n ts) (py_slice 0 (n - 1) ts) ;;
     b <~ truediv (builtin_sum (np_square (minus_scalar d mu))) (py_int (n - 1)) ;;
     d <~ np_subtract (py_slice lag n ts) (py_slice 0 (n - lag) ts) ;;
     t <~ truediv (builtin_sum (np_square (minus_scalar d (times (py_int lag) mu)))) m ;;
     truediv t (times (py_int lag) b)).

(** What [variance_ratio] amounts to, regime by regime, with [n = len(ts)]:
    - [n = 0]: [mu = 0 / 0] raises;
    - [n = 1]: the differences are empty and [b = 0 / (n - 1)] raises;
    - [lag < n]: both slices have [n - lag >= 1] values and
      [m = (n - lag + 1) * (1 - lag / n) > 0]; the last division is numpy's,
      by the numpy float [lag * b];
    - [lag = n]: both slices are empty and [m = 0.0]: [t = 0 / m] raises;
    - [lag > n]: [ts[lag:n]] is empty and [ts[:n - lag]], whose stop is
      negative, has [max(2 n - lag, 0)] values; two or more cannot be
      broadcast against none (ValueError); otherwise the difference is empty,
      and [t = 0 / m] raises when [m = 0.0], that is when [lag = n + 1], and
      is [0.0] when not. *)
Definition ratio_by_regime (ts : list Q) (lag : nat) : ratio :=
  let n := length ts in
  let nq := inject_Z (Z.of_nat n) in
  let lagq := inject_Z (Z.of_nat lag) in
  let d1 := subtract (slice_from 1 ts) (firstn (n - 1) ts) in
  let mu := np_sum d1 / nq in
  let m := inject_Z (Z.of_nat n - Z.of_nat lag + 1) * (1 - lagq / nq) in
  let b := square_sum (map (fun v => v - mu) d1) / inject_Z (Z.of_nat n - 1) in
  if (n <=? 1)%nat then ZeroDivisionError
  else if (lag <? n)%nat then
    let dl := subtract (slice_from lag ts) (firstn (n - lag) ts) in
    let t := square_sum (map (fun v => v - lagq * mu) dl) / m in
    Ratio (np_divide t (lagq * b))
  else if (lag =? n)%nat then ZeroDivisionError
  else if (2 <=? 2 * n - lag)%nat then BroadcastValueError
  else if (lag =? n + 1)%nat then ZeroDivisionError
  else Ratio (np_divide (0 / m) (lagq * b)).

(** Two floats, two outcomes, that are the same number or the same
    exception (rationals compared by value). *)
Definition same_float (a b : fval) : Prop :=
  match a, b with
  | Fin x, Fin y => x == y
  | Inf s, Inf s' => s = s'
  | NaN, NaN => True
  | _, _ => False
  end.

Definition same_ratio (a b : ratio) : Prop :=
  match a, b with
  | Ratio v, Ratio w => same_float v w
  | ZeroDivisionError, ZeroDivisionError => True
  | BroadcastValueError, BroadcastValueError => True
  | _, _ => False
  end.

(** ** get_candidate_pairs *)

From Stdlib Require Import OrdersEx.

(** The cluster labels: a pandas [Series] from ticker to label, in order. *)
Definition labels : Type := list (string * Z).

(** [list(clustered_series[clustered_series == clust].index)]. *)
Definition symbols_of (clustered_series : labels) (clust : Z) : list string :=
  map fst (filter (fun tl => Z.eqb (snd tl) clust) clustered_series).

(** [frame[symbols]]: the columns of these names, in this order; KeyError
    when one is missing. *)
Definition columns (f : frame) (symbols : list string) : result frame :=
  map_result (column f) symbols.

(** [np.unique] on strings: the distinct values in increasing order. *)
Fixpoint insert_unique (s : string) (l : list string) : list string :=
  match l with
  | [] => [s]
  | x :: rest =>
      match String_as_OT.compare s x with
      | Lt => s :: l
      | Eq => l
      | Gt => x :: insert_unique s rest
      end
  end.

Definition np_unique (l : list string) : list string :=
  fold_right insert_unique [] l.

(** The two tickers of every pair, as [np.unique] receives them. *)
Definition tickers (total_pairs : list candidate) : list string :=
  flat_map (fun element => [fst (fst element); snd (fst element)]) total_pairs.

Definition get_candidate_pairs {B : Backend} (clustered_series : labels)
  (pricing_df_train pricing_df_test : frame) (n_clusters : nat) (th : thresholds)
  : result (list candidate * list string) :=
  total_pairs <-
    for_each (range 0 n_clusters) [] (fun total_pairs clust =>
      let symbols := symbols_of clustered_series (Z.of_nat clust) in
      cluster_pricing_train <- columns pricing_df_train symbols ;;
      cluster_pricing_test <- columns pricing_df_test symbols ;;
      pairs <- find_pairs cluster_pricing_train cluster_pricing_test th ;;
      Ok (total_pairs ++ pairs)) ;;
  let unique_tickers := np_unique (tickers total_pairs) in
  Ok (total_pairs, unique_tickers).

(** What the loop of [get_candidate_pairs] evaluates for one cluster. *)
Definition cluster_pairs {B : Backend} (clustered_series : labels)
  (pricing_df_train pricing_df_test : frame) (th : thresholds) (clust : nat)
  : result (list candidate) :=
  let symbols := symbols_of clustered_series (Z.of_nat clust) in
  cluster_pricing_train <- columns pricing_df_train symbols ;;
  cluster_pricing_test <- columns pricing_df_test symbols ;;
  find_pairs cluster_pricing_train cluster_pricing_test th.

(** ** zscore *)

(** numpy's [a / s] for a finite [a] and a float [s]. *)
Definition divide_by (s : fval) (a : Q) : fval :=
  match s with
  | Fin d => np_divide a d
  | Inf _ => Fin 0
  | NaN => NaN
  end.

(** [(series - series.mean()) / np.std(series)]. *)
Definition zscore {B : Backend} (series : list Q) : list fval :=
  map (fun v => divide_by (np_std series) (v - mean series)) series.

Module Example2.

(** A backend whose standard deviation is 1 (as it is for [1, 3]). *)
Definition unit_std : Backend :=
  {| adfuller := Lab.unit_root (fun _ => - (3)) (fun _ => 1 # 100);
     add_constant := Lab.with_constant;
     ols_fit := Lab.least_squares;
     np_std := fun _ => Fin 1;
     np_sqrt := fun v => v;
     np_log := Lab.log_at_2;
     np_polyfit := fun _ _ _ => Ok [Fin (1 # 5); Fin 0] |}.

Definition clusters : labels :=
  [("A"%string, 0%Z); ("N"%string, (-1)%Z); ("B"%string, 0%Z);
   ("P"%string, 1%Z); ("R"%string, 1%Z)].

Definition N : series := {| name := "N"; values := [3; 1; 4; 1; 5; 9] |}.

End Example2.

(** ** Clustering: apply_PCA, apply_DBSCAN, clustering_for_optimal_PCA

    scikit-learn is a library: its four calls are the fields of [Sklearn].
    [exit()] ends the process; it is the outcome [Exited]. *)

Definition matrix : Type := list (list Q).

Class Sklearn : Type := {
  (** [PCA(n_components, svd_solver).fit(df)]: [components_.T] and
      [explained_variance_] *)
  pca_fit : nat -> string -> frame -> result (matrix * list Q);
  (** [preprocessing.StandardScaler().fit_transform(a)] *)
  standard_scale : matrix -> result matrix;
  (** [DBSCAN(eps, min_samples, metric='euclidean').fit(X).labels_] *)
  dbscan_labels : Q -> nat -> matrix -> result (list Z);
  (** [silhouette_score(X, labels, 'euclidean')] *)
  silhouette_score : matrix -> list Z -> result Q
}.

Inductive outcome (A : Type) : Type :=
| Returned (a : A)
| Raised (e : exn)
| Exited.

Arguments Returned {A} a.
Arguments Raised {A} e.
Arguments Exited {A}.

Definition then_ {A C : Type} (c : outcome A) (k : A -> outcome C) : outcome C :=
  match c with
  | Returned a => k a
  | Raised e => Raised e
  | Exited => Exited
  end.

Definition of_result {A : Type} (r : result A) : outcome A :=
  match r with
  | Ok a => Returned a
  | Raise e => Raised e
  end.

(** A loop over a state that an exception or an exit ends. *)
Fixpoint loop {A S : Type} (xs : list A) (s : S) (body : S -> A -> outcome S)
  : outcome S :=
  match xs with
  | [] => Returned s
  | x :: rest => then_ (body s x) (fun s' => loop rest s' body)
  end.

(** [pd.Series(index=index, data=data)]: ValueError when the lengths differ. *)
Definition series_of (index : list string) (data : list Z) : result labels :=
  if (length index =? length data)%nat then Ok (combine index data)
  else Raise ValueError.

(** [s.value_counts()], as the map from a label to its number of tickers. *)
Definition value_counts (s : labels) (label : Z) : nat :=
  count_occ Z.eq_dec (map snd s) label.

(** What [apply_DBSCAN] returns: the labels of all tickers, those of the
    clustered tickers, the counts, and the fitted model (its labels). *)
Record clustering : Type := {
  clustered_series_all : labels;
  clustered_series : labels;
  counts : Z -> nat;
  clf : list Z
}.

(** The dictionary [best_n_comp]. *)
Record best : Type := {
  best_n_comp : Z;
  best_silhouette : Q;
  best_X : option matrix;
  best_clustering : option clustering
}.

Section Clustering.

Context {K : Sklearn}.

Definition apply_PCA (n_components : nat) (df : frame) (svd_solver : string)
  : outcome (matrix * list Q) :=
  if (length df <? n_components)%nat then Exited
  else
    of_result
      (fitted <- pca_fit n_components svd_solver df ;;
       let explained_variance := snd fitted in
       X <- standard_scale (fst fitted) ;;
       Ok (X, explained_variance)).

Definition apply_DBSCAN (eps : Q) (min_samples : nat) (X : matrix) (df_returns : frame)
  : result clustering :=
  labels <- dbscan_labels eps min_samples X ;;
  all <- series_of (map name df_returns) labels ;;
  let clustered := filter (fun tl => negb (Z.eqb (snd tl) (-1))) all in
  Ok {| clustered_series_all := all;
        clustered_series := clustered;
        counts := value_counts clustered;
        clf := labels |}.

Definition clustering_for_optimal_PCA (min_components max_components : nat)
  (returns_df : frame) (epsilon : Q) (min_samples : nat)
  : outcome (option matrix * option clustering) :=
  then_
    (loop (range min_components max_components)
       {| best_n_comp := -1; best_silhouette := - (1);
          best_X := None; best_clustering := None |}
       (fun best_n_comp n_comp =>
          then_ (apply_PCA n_comp returns_df "auto") (fun pca =>
          let X := fst pca in
          then_ (of_result (apply_DBSCAN epsilon min_samples X returns_df)) (fun c =>
          then_ (of_result (silhouette_score X (clf c))) (fun silhouette =>
          if Qlt_bool (best_silhouette best_n_comp) silhouette
          then Returned {| best_n_comp := Z.of_nat n_comp;
                           best_silhouette := silhouette;
                           best_X := Some X;
                           best_clustering := Some c |}
          else Returned best_n_comp)))))
    (fun b => Returned (best_X b, best_clustering b)).

(** One trial of the search: the silhouette of [n_comp] components with its
    reduced data and clustering. *)
Definition trial (returns_df : frame) (epsilon : Q) (min_samples : nat) (n_comp : nat)
  : outcome (Q * (matrix * clustering)) :=
  then_ (apply_PCA n_comp returns_df "auto") (fun pca =>
  then_ (of_result (apply_DBSCAN epsilon min_samples (fst pca) returns_df)) (fun c =>
  then_ (of_result (silhouette_score (fst pca) (clf c))) (fun silhouette =>
  Returned (silhouette, (fst pca, c))))).

End Clustering.


(** A small scikit-learn stand-in: every ticker gets [n] zero scores, the
    first ticker is noise and the others form cluster 0, and the silhouette
    depends on the number of components only. *)
Module Example3.

Definition by_width (X : matrix) : Q :=
  match length (hd [] X) with
  | 1%nat => 1 # 4
  | 2%nat => 1 # 2
  | 3%nat => 1 # 2
  | _ => 0
  end.

Definition first_is_noise (X : matrix) : list Z :=
  match X with
  | [] => []
  | _ :: rest => (-1)%Z :: map (fun _ => 0%Z) rest
  end.

#[export] Instance toy : Sklearn := {
  pca_fit := fun n _ df => Ok (map (fun _ => repeat 0 n) df, repeat 1 n);
  standard_scale := fun X => Ok X;
  dbscan_labels := fun _ _ X => Ok (first_is_noise X);
  silhouette_score := fun X _ => Ok (by_width X)
}.

Definition returns : frame := [Example.A; Example.B; Example.P; Example.R].

End Example3.
(** * Properties *)

(** ** Booleans and rationals *)

Lemma Qlt_bool_iff (a b : Q) : Qlt_bool a b = true <-> a < b.
Proof.
  unfold Qlt_bool. rewrite negb_true_iff, <- not_true_iff_false, Qle_bool_iff.
  split; [apply Qnot_le_lt | apply Qlt_not_le].
Qed.

Lemma Qlt_bool_false_iff (a b : Q) : Qlt_bool a b = false <-> b <= a.
Proof.
  unfold Qlt_bool. rewrite negb_false_iff. apply Qle_bool_iff.
Qed.

Lemma bool_eq_by_iff (a b : bool) : (a = true <-> b = true) -> a = b.
Proof. destruct a, b; intuition congruence. Qed.

Lemma np_sum_from (l : list Q) (a : Q) :
  fold_left Qplus l a == a + fold_right Qplus 0 l.
Proof.
  revert a. induction l as [|v l IH]; intros a; cbn [fold_left fold_right].
  - lra.
  - rewrite IH. lra.
Qed.

Lemma np_sum_fold_right (l : list Q) : np_sum l == fold_right Qplus 0 l.
Proof. unfold np_sum. rewrite np_sum_from. lra. Qed.

Lemma py_sum_from (l : list Z) (a : Z) :
  fold_left Z.add l a = (a + fold_right Z.add 0 l)%Z.
Proof.
  revert a. induction l as [|v l IH]; intros a; cbn [fold_left fold_right]; [lia|].
  rewrite IH. lia.
Qed.

Lemma py_sum_ones {A : Type} (l : list A) :
  py_sum (map (fun _ => 1%Z) l) = Z.of_nat (length l).
Proof.
  unfold py_sum. rewrite py_sum_from.
  induction l as [|v l IH]; cbn [map length fold_right] in *; lia.
Qed.

(** ** zero_crossings as a count over adjacent pairs *)

Lemma filter_length_map {A C : Type} (f : C -> bool) (g : A -> C) (l : list A) :
  length (filter f (map g l)) = length (filter (fun a => f (g a)) l).
Proof.
  induction l as [|a l IH]; simpl; [reflexivity|].
  destruct (f (g a)); simpl; congruence.
Qed.

Lemma filter_length_cons {A : Type} (f : A -> bool) (a : A) (l : list A) :
  length (filter f (a :: l)) = ((if f a then 1 else 0) + length (filter f l))%nat.
Proof. cbn [filter]. destruct (f a); reflexivity. Qed.

Lemma positions_count (p : Q -> Q -> bool) (x : list Q) :
  Z.of_nat
    (length
       (filter (fun i => (i + 1 <? length x)%nat && p (item x i) (item x (i + 1)))
               (seq 0 (length x))))
  = count_adjacent p x.
Proof.
  induction x as [|a t IH]; [reflexivity|].
  cbn [length seq]. rewrite <- seq_shift, filter_length_cons, filter_length_map.
  rewrite (filter_ext
             (fun i => (S i + 1 <? S (length t))%nat
                       && p (item (a :: t) (S i)) (item (a :: t) (S i + 1)))
             (fun i => (i + 1 <? length t)%nat && p (item t i) (item t (i + 1))))
    by (intros i; reflexivity).
  rewrite Nat2Z.inj_add, IH.
  destruct t as [|b t']; [reflexivity|].
  cbn [count_adjacent].
  replace ((0 + 1 <? S (length (b :: t')))%nat) with true
    by (symmetry; apply Nat.ltb_lt; cbn [length]; lia).
  change (item (a :: b :: t') 0) with a.
  change (item (a :: b :: t') (0 + 1)) with b.
  cbn [andb]. destruct (p a b); reflexivity.
Qed.

Lemma count_adjacent_map (p : Q -> Q -> bool) (f : Q -> Q) (x : list Q) :
  count_adjacent p (map f x) = count_adjacent (fun a b => p (f a) (f b)) x.
Proof.
  induction x as [|a t IH]; [reflexivity|].
  destruct t as [|b t']; [reflexivity|].
  change (count_adjacent p (map f (a :: b :: t')))
    with ((if p (f a) (f b) then 1 else 0) + count_adjacent p (map f (b :: t')))%Z.
  rewrite IH. reflexivity.
Qed.

Lemma count_adjacent_ext (p q : Q -> Q -> bool) (x : list Q) :
  (forall a b, p a b = q a b) -> count_adjacent p x = count_adjacent q x.
Proof.
  intros E. induction x as [|a t IH]; [reflexivity|].
  destruct t as [|b t']; [reflexivity|].
  change (count_adjacent p (a :: b :: t'))
    with ((if p a b then 1 else 0) + count_adjacent p (b :: t'))%Z.
  rewrite E, IH. reflexivity.
Qed.

Lemma product_negative (m a b : Q) :
  Qlt_bool ((a - m) * (b - m)) 0 || Qeq_bool (a - m) 0 = crossing m a b.
Proof.
  apply bool_eq_by_iff. unfold crossing, opposite_sides.
  rewrite !orb_true_iff, !andb_true_iff, !Qlt_bool_iff, !Qeq_bool_iff.
  split.
  - intros [H|H]; [left | right; lra].
    destruct (Qlt_le_dec m a) as [Ha|Ha].
    + left. split; [exact Ha|]. destruct (Qlt_le_dec b m); [assumption | nra].
    + right. destruct (Qlt_le_dec m b) as [Hb|Hb]; [| nra].
      split; [| exact Hb]. destruct (Qlt_le_dec a m); [assumption | nra].
  - intros [[[H1 H2]|[H1 H2]]|H]; [left; nra | left; nra | right; lra].
Qed.

Lemma zero_crossings_adjacent (x : list Q) :
  zero_crossings x = count_adjacent (crossing (mean x)) x.
Proof.
  unfold zero_crossings. rewrite py_sum_ones.
  rewrite (positions_count (fun a b => Qlt_bool (a * b) 0 || Qeq_bool a 0)).
  rewrite count_adjacent_map. apply count_adjacent_ext.
  intros a b. apply product_negative.
Qed.



(** ** The alternating sequence *)

Lemma even_succ_negb (s : nat) : Nat.even (S s) = negb (Nat.even s).
Proof. rewrite Nat.even_succ, <- Nat.negb_even. reflexivity. Qed.

Lemma alternating_sum (s n : nat) :
  fold_right Qplus 0 (map (fun i => if Nat.even i then 1 else - (1)) (seq s n))
  == if Nat.even n then 0
     else if Nat.even s then 1 else - (1).
Proof.
  revert s. induction n as [|n IH]; intros s; [reflexivity|].
  cbn [seq map fold_right]. rewrite IH, (even_succ_negb n), (even_succ_negb s).
  destruct (Nat.even n), (Nat.even s); cbn [negb]; lra.
Qed.

Lemma alternating_adjacent (p : Q -> Q -> bool) (s n : nat) :
  p 1 (- (1)) = true -> p (- (1)) 1 = true ->
  count_adjacent p (map (fun i => if Nat.even i then 1 else - (1)) (seq s (S n)))
  = Z.of_nat n.
Proof.
  intros Hdown Hup. revert s. induction n as [|n IH]; intros s; [reflexivity|].
  change (seq s (S (S n))) with (s :: seq (S s) (S n)).
  cbn [map]. specialize (IH (S s)).
  change (seq (S s) (S n)) with (S s :: seq (S (S s)) n) in *.
  cbn [map] in *. cbn [count_adjacent] in *. rewrite IH.
  rewrite (even_succ_negb s).
  destruct (Nat.even s); cbn [negb]; rewrite ?Hdown, ?Hup; lia.
Qed.

Lemma alternating_mean_bounds (n : nat) :
  (2 <= n)%nat -> - (1) < mean (alternating n) /\ mean (alternating n) < 1.
Proof.
  intros Hn. unfold mean, alternating.
  rewrite length_map, length_seq, np_sum_fold_right, alternating_sum.
  assert (Hpos : 1 < inject_Z (Z.of_nat n)).
  { change 1 with (inject_Z 1). rewrite <- Zlt_Qlt. lia. }
  change (Nat.even 0) with true. cbv iota.
  destruct (Nat.even n).
  - unfold Qdiv. split; lra.
  - split.
    + apply Qlt_shift_div_l; lra.
    + apply Qlt_shift_div_r; lra.
Qed.

(** C9.  On the sequence [1, -1, 1, -1, ...] of length [N >= 2],
    [zero_crossings] returns [N - 1]. *)
Theorem zero_crossings_alternating (N : nat) :
  (2 <= N)%nat -> zero_crossings (alternating N) = (Z.of_nat N - 1)%Z.
Proof.
  intros HN. rewrite zero_crossings_adjacent.
  destruct (alternating_mean_bounds N HN) as [Hlo Hhi].
  destruct N as [|n]; [lia|].
  unfold alternating at 2.
  rewrite alternating_adjacent.
  - lia.
  - unfold crossing, opposite_sides.
    rewrite (proj2 (Qlt_bool_iff _ _) Hhi), (proj2 (Qlt_bool_iff _ _) Hlo).
    reflexivity.
  - unfold crossing, opposite_sides.
    rewrite (proj2 (Qlt_bool_iff _ _) Hhi), (proj2 (Qlt_bool_iff _ _) Hlo).
    cbn [andb orb]. rewrite orb_true_r. reflexivity.
Qed.

Lemma zero_crossings_alternating_witness :
  (2 <= 5)%nat /\ zero_crossings (alternating 5) = 4%Z.
Proof.
  split; [lia | apply (zero_crossings_alternating 5); lia].
Defined.

(** ** Slices and lagged differences *)

Lemma lagged_slices (L : nat) (ts : list Q) :
  subtract (slice_from L ts) (slice_to_minus L ts) = lagged_difference L ts.
Proof.
  unfold subtract, slice_from, slice_to_minus, lagged_difference.
  assert (Hlen : length (skipn L ts) = length (firstn (length ts - L) ts)).
  { rewrite length_skipn, length_firstn. lia. }
  apply (nth_ext _ _ ((fun uv : Q * Q => fst uv - snd uv) (0, 0))
                 ((fun t => item ts (t + L) - item ts t) 0%nat)).
  - rewrite !length_map, length_combine, length_seq, <- Hlen, length_skipn. lia.
  - intros t Ht.
    rewrite length_map, length_combine, <- Hlen, length_skipn in Ht.
    rewrite (map_nth (fun uv : Q * Q => fst uv - snd uv)).
    rewrite (map_nth (fun t => item ts (t + L) - item ts t)).
    rewrite combine_nth by exact Hlen.
    rewrite nth_skipn, nth_firstn, seq_nth by lia.
    replace (t <? length ts - L)%nat with true by (symmetry; apply Nat.ltb_lt; lia).
    cbn [fst snd]. unfold item. rewrite (Nat.add_comm L t). reflexivity.
Qed.

Lemma half_life_fit_reads (B : Backend) (v : Q) (rest : list Q) :
  half_life_fit (v :: rest)
  = ols_fit (first_difference (v :: rest))
      (drop_first_row
         (add_constant {| name := x1; values := 0 :: lagged_level (v :: rest) |})).
Proof.
  unfold half_life_fit, np_roll1, lagged_level.
  cbn [set_first bind].
  change (subtract (v :: rest) (0 :: removelast (v :: rest)))
    with ((v - 0) :: subtract rest (removelast (v :: rest))).
  cbn [set_first bind]. unfold slice_from at 1. cbn [skipn].
  f_equal.
  change (first_difference (v :: rest)) with (lagged_difference 1 (v :: rest)).
  rewrite <- lagged_slices. unfold slice_from, slice_to_minus. cbn [skipn].
  rewrite removelast_firstn_len. f_equal. f_equal. f_equal. cbn [length]. lia.
Qed.

(** ** calculate_half_life *)

Lemma neg_over_nonzero (c lam : Q) :
  ~ lam == 0 -> neg_over (Fin c) lam = Fin (- c / lam).
Proof.
  intros H. unfold neg_over.
  destruct (Qeq_bool lam 0) eqn:E; [| reflexivity].
  apply Qeq_bool_iff in E. contradiction.
Qed.

Lemma neg_over_zero (c lam : Q) :
  0 < c -> lam == 0 -> neg_over (Fin c) lam = Inf true.
Proof.
  intros Hc H. unfold neg_over.
  rewrite (proj2 (Qeq_bool_iff lam 0) H).
  destruct (Qeq_bool c 0) eqn:E.
  - apply Qeq_bool_iff in E. lra.
  - rewrite (proj2 (Qlt_bool_iff 0 c) Hc). reflexivity.
Qed.

Lemma ratio_negative (c lam : Q) : 0 < c -> 0 < lam -> - c / lam < 0.
Proof. intros Hc Hl. apply Qlt_shift_div_r; lra. Qed.

Lemma ratio_positive (c lam : Q) : 0 < c -> lam < 0 -> 0 < - c / lam.
Proof.
  intros Hc Hl.
  assert (E : - c / lam == c / - lam) by (field; lra).
  rewrite E. apply Qlt_shift_div_l; lra.
Qed.

(** C2, as the code has it.  [calculate_half_life] has no guard on the sign
    of the reversion speed.  Let [lam] be the coefficient of the lagged level
    in the OLS fit of the first difference on the lagged level, and
    [c = np.log(2) > 0].  For [lam < 0] the function returns [-c / lam], a
    positive number; for [lam > 0] it returns [-c / lam] all the same, a
    negative number; for [lam = 0] it returns an infinity.  It raises in none
    of the three cases. *)
Theorem calculate_half_life_any_sign (B : Backend) (z : list Q) (res : params)
  (k : string) (lam c : Q) :
  z <> [] ->
  ols_fit (first_difference z)
    (drop_first_row
       (add_constant {| name := x1; values := 0 :: lagged_level z |})) = Ok res ->
  nth_error res 1 = Some (k, lam) ->
  np_log (Fin 2) = Fin c ->
  0 < c ->
  (lam < 0 -> calculate_half_life z = Ok (Fin (- c / lam)) /\ 0 < - c / lam)
  /\ (0 < lam -> calculate_half_life z = Ok (Fin (- c / lam)) /\ - c / lam < 0)
  /\ (lam == 0 -> exists negative, calculate_half_life z = Ok (Inf negative)).
Proof.
  intros Hz Hfit Hlam Hlog Hc.
  destruct z as [|v rest]; [congruence|].
  assert (E : calculate_half_life (v :: rest) = Ok (neg_over (Fin c) lam)).
  { unfold calculate_half_life. rewrite half_life_fit_reads, Hfit.
    cbn [bind]. unfold at_position. rewrite Hlam. cbn [bind snd].
    rewrite Hlog. reflexivity. }
  rewrite E. repeat split.
  - rewrite neg_over_nonzero by lra. reflexivity.
  - apply ratio_positive; assumption.
  - rewrite neg_over_nonzero by lra. reflexivity.
  - apply ratio_negative; assumption.
  - intros H0. exists true. rewrite neg_over_zero by assumption. reflexivity.
Qed.

Lemma calculate_half_life_any_sign_witness :
  @calculate_half_life Example.tied Example.growing = Ok (Fin (- Lab.ln2 / 1))
  /\ - Lab.ln2 / 1 < 0.
Proof.
  apply (fun H H' => proj1 (proj2
           (@calculate_half_life_any_sign Example.tied Example.growing
              [("const"%string, 0); (x1, 1)] x1 1 Lab.ln2
              H H' eq_refl eq_refl eq_refl))).
  - discriminate.
  - vm_compute. reflexivity.
  - reflexivity.
Defined.

(** C2, the claim as stated fails.  On [1, 2, 4, 8] the lagged levels are
    [1, 2, 4] and the first differences [1, 2, 4]: the fit gives the
    reversion speed [lam = 1 >= 0], and [calculate_half_life] returns the
    negative number [-np.log(2)] instead of raising. *)
Lemma calculate_half_life_returns_negative :
  @half_life_fit Example.tied Example.growing
    = Ok [("const"%string, 0); ("x1"%string, 1)]
  /\ @calculate_half_life Example.tied Example.growing = Ok (Fin (- Lab.ln2 / 1))
  /\ - Lab.ln2 / 1 < 0
  /\ ~ raises (@calculate_half_life Example.tied Example.growing).
Proof.
  split; [vm_compute; reflexivity|].
  split; [vm_compute; reflexivity|].
  split; [reflexivity|].
  intros [e He]. vm_compute in He. discriminate.
Qed.

(** ** hurst *)

Lemma lags_are_2_to_99 (L : nat) : In L lags <-> (2 <= L <= 99)%nat.
Proof. unfold lags, range. rewrite in_seq. lia. Qed.

Lemma find_label (a : nat) (v : list Q) (l : nat) :
  find (fun r : nat * Q => Nat.eqb (fst r) l) (combine (seq a (length v)) v)
  = if ((a <=? l) && (l <? a + length v))%nat
    then Some (l, nth (l - a) v 0) else None.
Proof.
  revert a. induction v as [|x v IH]; intros a.
  - cbn [length seq combine find].
    destruct (Nat.leb_spec a l); cbn [andb]; [| reflexivity].
    destruct (Nat.ltb_spec l (a + 0)); [lia | reflexivity].
  - cbn [length seq combine find fst]. destruct (Nat.eqb_spec a l) as [->|Hne].
    + rewrite Nat.leb_refl. cbn [andb].
      destruct (Nat.ltb_spec l (l + S (length v))); [| lia].
      rewrite Nat.sub_diag. reflexivity.
    + rewrite IH.
      destruct (Nat.leb_spec (S a) l), (Nat.leb_spec a l); try lia; cbn [andb];
        [| reflexivity].
      destruct (Nat.ltb_spec l (S a + length v)), (Nat.ltb_spec l (a + S (length v)));
        try lia; [| reflexivity].
      replace (l - a)%nat with (S (l - S a)) by lia. reflexivity.
Qed.

Lemma length_rows (s : list Q) : length (rows s) = length s.
Proof.
  unfold rows, enumerate. rewrite length_combine, length_seq. apply Nat.min_id.
Qed.

Lemma rows_skipn (L a : nat) (s : list Q) :
  skipn L (combine (seq a (length s)) s)
  = combine (seq (a + L) (length (skipn L s))) (skipn L s).
Proof.
  revert a s. induction L as [|L IH]; intros a s.
  - cbn [skipn]. rewrite Nat.add_0_r. reflexivity.
  - destruct s as [|x s]; [reflexivity|].
    cbn [length seq combine skipn]. rewrite IH.
    replace (S a + L)%nat with (a + S L)%nat by lia. reflexivity.
Qed.

Lemma rows_firstn (k a : nat) (s : list Q) :
  firstn k (combine (seq a (length s)) s)
  = combine (seq a (length (firstn k s))) (firstn k s).
Proof.
  revert a s. induction k as [|k IH]; intros a s; [reflexivity|].
  destruct s as [|x s]; [reflexivity|].
  cbn [length seq combine firstn]. rewrite IH. reflexivity.
Qed.

(** What a slice of a Series holds at a label: [ts[L:]] holds the labels
    from [L] on, [ts[:-L]] all but the last [L]. *)
Lemma row_slice_from (L : nat) (s : list Q) (l : nat) :
  row l (slice_from L (rows s))
  = if ((L <=? l) && (l <? length s))%nat then Some (nth l s 0) else None.
Proof.
  unfold row, slice_from, rows, enumerate. rewrite rows_skipn, find_label.
  rewrite length_skipn. cbn [Nat.add].
  destruct (Nat.leb_spec L l); cbn [andb]; [| reflexivity].
  destruct (Nat.ltb_spec l (L + (length s - L))), (Nat.ltb_spec l (length s));
    try lia; [| reflexivity].
  cbn [option_map snd]. rewrite nth_skipn.
  replace (L + (l - L))%nat with l by lia. reflexivity.
Qed.

Lemma row_slice_to_minus (L : nat) (s : list Q) (l : nat) :
  row l (slice_to_minus L (rows s))
  = if (l <? length s - L)%nat then Some (nth l s 0) else None.
Proof.
  unfold row, slice_to_minus. rewrite length_rows. unfold rows, enumerate.
  rewrite rows_firstn, find_label. rewrite length_firstn. cbn [Nat.leb andb Nat.add].
  replace (Nat.min (length s - L) (length s)) with (length s - L)%nat by lia.
  destruct (Nat.ltb_spec l (length s - L)); [| reflexivity].
  cbn [option_map snd]. rewrite Nat.sub_0_r, nth_firstn.
  destruct (Nat.ltb_spec l (length s - L)); [reflexivity | lia].
Qed.

(** The difference [np.subtract] leaves at a label, for the two slices of
    one Series: a value minus itself where the slices overlap, [nan]
    elsewhere. *)
Lemma aligned_at_label (L : nat) (s : list Q) (l : nat) :
  match row l (slice_from L (rows s)), row l (slice_to_minus L (rows s)) with
  | Some u, Some v => Fin (u - v)
  | _, _ => NaN
  end
  = if ((L <=? l) && (l <? length s - L))%nat
    then Fin (nth l s 0 - nth l s 0) else NaN.
Proof.
  rewrite row_slice_from, row_slice_to_minus.
  destruct (Nat.leb_spec L l); cbn [andb].
  - destruct (Nat.ltb_spec l (length s)), (Nat.ltb_spec l (length s - L));
      try lia; reflexivity.
  - destruct (Nat.ltb_spec l (length s - L)); reflexivity.
Qed.

Lemma aligned_all_zero (L : nat) (s : list Q) :
  Forall (fun d => d == 0)
         (dropna (aligned_subtract (slice_from L (rows s))
                                   (slice_to_minus L (rows s)))).
Proof.
  unfold aligned_subtract.
  induction (index_union (slice_from L (rows s)) (slice_to_minus L (rows s)))
    as [|l U IH]; [constructor|].
  cbn [map dropna flat_map]. rewrite aligned_at_label.
  destruct ((L <=? l) && (l <? length s - L))%nat; cbn [app]; [| exact IH].
  constructor; [ring | exact IH].
Qed.

Lemma aligned_none (L : nat) (s : list Q) :
  (length s <= 2 * L)%nat ->
  dropna (aligned_subtract (slice_from L (rows s)) (slice_to_minus L (rows s))) = [].
Proof.
  intros Hn. unfold aligned_subtract.
  induction (index_union (slice_from L (rows s)) (slice_to_minus L (rows s)))
    as [|l U IH]; [reflexivity|].
  cbn [map dropna flat_map]. rewrite aligned_at_label.
  destruct (Nat.leb_spec L l); cbn [andb]; [| exact IH].
  destruct (Nat.ltb_spec l (length s - L)); [lia | exact IH].
Qed.

Lemma dropna_present (g : nat -> fval) (U : list nat) (l : nat) (q : Q) :
  In l U -> g l = Fin q -> dropna (map g U) <> [].
Proof.
  induction U as [|u U IH]; intros Hin Hg; [destruct Hin|].
  cbn [map dropna flat_map]. destruct Hin as [->|Hin].
  - rewrite Hg. discriminate.
  - intros H. apply app_eq_nil in H. destruct H as [_ H]. exact (IH Hin Hg H).
Qed.

Lemma list_max_In (l : list nat) (x : nat) : In x l -> (x <= list_max l)%nat.
Proof.
  intros Hin. pose proof (proj1 (list_max_le l (list_max l)) (Nat.le_refl _)) as H.
  rewrite Forall_forall in H. exact (H x Hin).
Qed.

Lemma aligned_some (L : nat) (s : list Q) :
  (2 * L < length s)%nat ->
  dropna (aligned_subtract (slice_from L (rows s)) (slice_to_minus L (rows s))) <> [].
Proof.
  intros Hn. unfold aligned_subtract.
  apply (dropna_present _ _ L (nth L s 0 - nth L s 0)).
  - unfold index_union. apply filter_In. split.
    + apply in_seq. split; [lia|]. cbn [Nat.add]. apply Nat.lt_succ_r.
      apply list_max_In. rewrite map_app. apply in_or_app. left.
      pose proof (row_slice_from L s L) as Hrow.
      destruct (Nat.leb_spec L L); [| lia].
      destruct (Nat.ltb_spec L (length s)); [| lia]. cbn [andb] in Hrow.
      unfold row in Hrow.
      destruct (find _ (slice_from L (rows s))) as [r|] eqn:Ef; [| discriminate].
      apply find_some in Ef. destruct Ef as [Hin Hl]. apply Nat.eqb_eq in Hl.
      apply in_map_iff. exists r. split; assumption.
    + rewrite row_slice_from.
      destruct (Nat.leb_spec L L); [| lia].
      destruct (Nat.ltb_spec L (length s)); [reflexivity | lia].
  - rewrite aligned_at_label.
    destruct (Nat.leb_spec L L); [| lia].
    destruct (Nat.ltb_spec L (length s - L)); [reflexivity | lia].
Qed.

(** On a Series the standard deviation [hurst] takes at a lag is that of
    zeros, or of nothing: it does not look at the values. *)
Lemma lagged_std_indexed (B : Backend) (s : list Q) (L : nat) :
  (forall l, l <> [] -> Forall (fun d => d == 0) l -> np_std l = Fin 0) ->
  lagged_std (Indexed s) L = if (2 * L <? length s)%nat then Fin 0 else NaN.
Proof.
  intros Hzero. unfold lagged_std.
  destruct (Nat.ltb_spec (2 * L) (length s)) as [Hlt|Hge].
  - pose proof (aligned_some L s Hlt) as Hne.
    pose proof (aligned_all_zero L s) as Hall.
    destruct (dropna _) as [|d ds]; [congruence|].
    apply Hzero; [discriminate | exact Hall].
  - rewrite aligned_none by exact Hge. reflexivity.
Qed.

(** C7.  On a numpy array, [hurst] takes the lags 2, ..., 99 in increasing
    order; for each lag [L] it forms [tau(L)], the square root of the
    standard deviation of the [L]-lagged differences [ts[t+L] - ts[t]]; it
    fits a polynomial of degree one to [log tau(L)] against [log L]; and it
    returns twice the leading coefficient, the slope.

    On a pandas Series, which is what [check_for_cointegration] and
    [pairs_overlap] pass, [np.subtract] aligns the two slices on their
    labels: every difference that is not missing is a value minus itself.
    With a standard deviation that is 0 on zeros, [tau(L)] is the square root
    of 0 for [2 L < len(ts)] and of [nan] otherwise, and the result is the
    same for all Series of one length: the lagged differences are not
    computed. *)
Theorem hurst_lagged_differences_on_arrays_only (B : Backend) (ts ts' : list Q) :
  (forall l, l <> [] -> Forall (fun d => d == 0) l -> np_std l = Fin 0) ->
  length ts' = length ts ->
  (hurst (Array ts)
   = (poly <- np_polyfit (map (fun L => np_log (lag_value L)) lags)
                         (map (fun L => np_log (tau ts L)) lags) 1 ;;
      slope <- at_position poly 0 ;;
      Ok (fdouble slope))
   /\ (forall L, In L lags <-> (2 <= L <= 99)%nat)
   /\ lags = seq 2 98
   /\ (forall L, lagged_difference L ts
                 = map (fun t => item ts (t + L) - item ts t) (seq 0 (length ts - L)))
   /\ (forall q, fdouble (Fin q) = Fin (q * 2)))
  /\ (forall L,
        Forall (fun d => d == 0)
               (dropna (aligned_subtract (slice_from L (rows ts))
                                         (slice_to_minus L (rows ts)))))
  /\ hurst (Indexed ts)
     = (poly <- np_polyfit
                  (map (fun L => np_log (lag_value L)) lags)
                  (map (fun L => np_log (np_sqrt (if (2 * L <? length ts)%nat
                                                  then Fin 0 else NaN))) lags) 1 ;;
        slope <- at_position poly 0 ;;
        Ok (fdouble slope))
  /\ hurst (Indexed ts') = hurst (Indexed ts).
Proof.
  intros Hzero Hlen.
  assert (Hseries : forall s,
             hurst (Indexed s)
             = (poly <- np_polyfit
                          (map (fun L => np_log (lag_value L)) lags)
                          (map (fun L => np_log (np_sqrt (if (2 * L <? length s)%nat
                                                          then Fin 0 else NaN))) lags)
                          1 ;;
                slope <- at_position poly 0 ;;
                Ok (fdouble slope))).
  { intros s. unfold hurst. rewrite map_map. f_equal. f_equal.
    apply map_ext. intros L. rewrite lagged_std_indexed by exact Hzero. reflexivity. }
  split; [| split; [intros L; apply aligned_all_zero | split]].
  - split; [| split; [exact lags_are_2_to_99 | repeat split]].
    unfold hurst. rewrite map_map. f_equal. f_equal.
    apply map_ext. intros L. unfold tau, lagged_std. rewrite lagged_slices. reflexivity.
  - apply Hseries.
  - rewrite !Hseries, Hlen. reflexivity.
Qed.

Lemma std_of_zeros_zero (l : list Q) :
  l <> [] -> Forall (fun d => d == 0) l -> Example.std_of_zeros l = Fin 0.
Proof.
  intros Hne Hall. destruct l as [|d l]; [congruence|].
  unfold Example.std_of_zeros.
  replace (forallb (fun d => Qeq_bool d 0) (d :: l)) with true; [reflexivity|].
  symmetry. apply forallb_forall. intros x Hx. rewrite Forall_forall in Hall.
  apply Qeq_bool_iff. exact (Hall x Hx).
Qed.

Lemma hurst_lagged_differences_on_arrays_only_witness :
  @hurst Example.degenerate (Indexed Example.cubes) = Ok NaN
  /\ @hurst Example.degenerate (Indexed Example.squares) = Ok NaN
  /\ @hurst Example.degenerate (Array Example.squares) = Ok (fdouble (Fin (1 # 4))).
Proof.
  destruct (@hurst_lagged_differences_on_arrays_only Example.degenerate
              Example.squares Example.cubes std_of_zeros_zero eq_refl)
    as (_ & _ & Hs & Hc).
  rewrite Hc, Hs.
  split; [vm_compute; reflexivity|].
  split; vm_compute; reflexivity.
Defined.

(** ** Loops *)

Lemma for_each_app {A S : Type} (xs ys : list A) (s : S) (body : S -> A -> result S) :
  for_each (xs ++ ys) s body = (s' <- for_each xs s body ;; for_each ys s' body).
Proof.
  revert s. induction xs as [|x xs IH]; intros s; [reflexivity|].
  cbn [app for_each]. destruct (body s x) as [s'|e]; cbn [bind]; [apply IH | reflexivity].
Qed.

Lemma for_each_ext {A S : Type} (xs : list A) (s : S) (body body' : S -> A -> result S) :
  (forall s x, body s x = body' s x) -> for_each xs s body = for_each xs s body'.
Proof.
  intros E. revert s. induction xs as [|x xs IH]; intros s; [reflexivity|].
  cbn [for_each]. rewrite E. destruct (body' s x); cbn [bind]; [apply IH | reflexivity].
Qed.

Lemma for_each_map {A C S : Type} (h : A -> C) (xs : list A) (s : S)
  (body : S -> C -> result S) :
  for_each (map h xs) s body = for_each xs s (fun s x => body s (h x)).
Proof.
  revert s. induction xs as [|x xs IH]; intros s; [reflexivity|].
  cbn [map for_each]. destruct (body s (h x)); cbn [bind]; [apply IH | reflexivity].
Qed.

Lemma for_each_flat_map {A C S : Type} (g : A -> list C) (xs : list A) (s : S)
  (body : S -> C -> result S) :
  for_each (flat_map g xs) s body = for_each xs s (fun s x => for_each (g x) s body).
Proof.
  revert s. induction xs as [|x xs IH]; intros s; [reflexivity|].
  cbn [flat_map for_each]. rewrite for_each_app.
  destruct (for_each (g x) s body); cbn [bind]; [apply IH | reflexivity].
Qed.

(** A loop that only ever appends what a visit keeps is a selection in
    order. *)
Lemma for_each_selects {A C S : Type} (f : A -> result (option C))
  (push : S -> C -> S) (body : S -> A -> result S) (xs : list A) (s : S) :
  (forall s x,
      body s x = (kept <- f x ;;
                  Ok (match kept with Some c => push s c | None => s end))) ->
  for_each xs s body = (l <- select_in_order f xs ;; Ok (fold_left push l s)).
Proof.
  intros Hbody. revert s. induction xs as [|x xs IH]; intros s; [reflexivity|].
  cbn [for_each select_in_order]. rewrite Hbody.
  destruct (f x) as [[c|]|e]; cbn [bind]; [| | reflexivity].
  - rewrite IH. destruct (select_in_order f xs); reflexivity.
  - rewrite IH. destruct (select_in_order f xs); reflexivity.
Qed.

Lemma fold_left_append {C : Type} (l s : list C) :
  fold_left (fun s c => s ++ [c]) l s = s ++ l.
Proof.
  revert s. induction l as [|c l IH]; intros s; cbn [fold_left].
  - rewrite app_nil_r. reflexivity.
  - rewrite IH, <- app_assoc. reflexivity.
Qed.

Lemma fold_left_append2 {C D : Type} (l : list (C * D)) (s : list C) (t : list D) :
  fold_left (fun acc cd => (fst acc ++ [fst cd], snd acc ++ [snd cd])) l (s, t)
  = (s ++ map fst l, t ++ map snd l).
Proof.
  revert s t. induction l as [|c l IH]; intros s t; cbn [fold_left map fst snd].
  - rewrite !app_nil_r. reflexivity.
  - rewrite IH, <- !app_assoc. reflexivity.
Qed.

Lemma select_in_order_returns {A C : Type} (f : A -> result (option C)) (xs : list A) :
  returns (select_in_order f xs) <-> Forall (fun x => returns (f x)) xs.
Proof.
  induction xs as [|x xs IH].
  - split; [constructor | intros _; eexists; reflexivity].
  - cbn [select_in_order]. split.
    + intros [l Hl]. destruct (f x) as [o|e] eqn:Ef; [| discriminate].
      cbn [bind] in Hl.
      destruct (select_in_order f xs) as [l'|e] eqn:El; [| discriminate].
      constructor; [exists o; exact Ef | apply IH; eexists; reflexivity].
    + intros H. inversion H as [|? ? [o Ho] Hrest]; subst.
      apply IH in Hrest. destruct Hrest as [l' Hl'].
      rewrite Ho, Hl'. eexists. reflexivity.
Qed.

Lemma select_in_order_raises {A C : Type} (f : A -> result (option C))
  (pre post : list A) (x : A) (e : exn) :
  Forall (fun x => returns (f x)) pre -> f x = Raise e ->
  select_in_order f (pre ++ x :: post) = Raise e.
Proof.
  intros Hpre Hx. induction Hpre as [|y pre [o Ho] _ IH].
  - cbn [app select_in_order]. rewrite Hx. reflexivity.
  - cbn [app select_in_order]. rewrite Ho, IH. reflexivity.
Qed.

(** ** The enumeration of index pairs *)

Lemma index_pairs_spec (n i j : nat) :
  In (i, j) (index_pairs n) <-> (i < j < n)%nat.
Proof.
  unfold index_pairs, range. rewrite in_flat_map. split.
  - intros [i' [Hi Hj]]. apply in_map_iff in Hj. destruct Hj as [j' [E Hj']].
    inversion E; subst. apply in_seq in Hi, Hj'. lia.
  - intros H. exists i. split; [apply in_seq; lia|].
    apply in_map_iff. exists j. split; [reflexivity | apply in_seq; lia].
Qed.

Lemma StronglySorted_app {A : Type} (R : A -> A -> Prop) (l1 l2 : list A) :
  StronglySorted R l1 -> StronglySorted R l2 ->
  (forall x y, In x l1 -> In y l2 -> R x y) ->
  StronglySorted R (l1 ++ l2).
Proof.
  intros H1 H2 H12. induction H1 as [|x l1 Hs IH Hx]; [exact H2|].
  cbn [app]. constructor.
  - apply IH. intros a b Ha Hb. apply H12; [right; exact Ha | exact Hb].
  - apply Forall_app. split; [exact Hx|].
    apply Forall_forall. intros y Hy. apply H12; [left; reflexivity | exact Hy].
Qed.

Lemma row_sorted (i a m : nat) :
  StronglySorted lex_lt (map (fun j => (i, j)) (seq a m)).
Proof.
  revert a. induction m as [|m IH]; intros a; cbn [seq map]; constructor.
  - apply IH.
  - apply Forall_forall. intros [i' j'] H. apply in_map_iff in H.
    destruct H as [j [E Hj]]. inversion E; subst. apply in_seq in Hj.
    right. cbn [fst snd]. lia.
Qed.

Lemma rows_sorted (n a m : nat) :
  StronglySorted lex_lt
    (flat_map (fun i => map (fun j => (i, j)) (range (i + 1) n)) (seq a m)).
Proof.
  revert a. induction m as [|m IH]; intros a; cbn [seq flat_map]; [constructor|].
  apply StronglySorted_app; [apply row_sorted | apply IH |].
  intros [i j] [i' j'] Hx Hy.
  apply in_map_iff in Hx. destruct Hx as [j0 [E _]]. inversion E; subst.
  apply in_flat_map in Hy. destruct Hy as [i0 [Hi0 Hj0]].
  apply in_map_iff in Hj0. destruct Hj0 as [j1 [E' _]]. inversion E'; subst.
  apply in_seq in Hi0. left. cbn [fst]. lia.
Qed.

Lemma index_pairs_sorted (n : nat) : StronglySorted lex_lt (index_pairs n).
Proof. apply rows_sorted. Qed.

Lemma sorted_NoDup (l : list (nat * nat)) : StronglySorted lex_lt l -> NoDup l.
Proof.
  induction 1 as [|x l _ IH Hx]; constructor; [| exact IH].
  intros Hin. rewrite Forall_forall in Hx. specialize (Hx x Hin).
  unfold lex_lt in Hx. lia.
Qed.

(** ** The loop bodies as visits *)

Lemma examine_visits (B : Backend) (data_train data_test : frame) (th : thresholds)
  (pairs : list candidate) (i j : nat) :
  examine data_train data_test th pairs i j
  = (kept <- visit data_train data_test th (i, j) ;;
     Ok (match kept with Some c => pairs ++ [c] | None => pairs end)).
Proof.
  unfold examine, visit, evaluate, train_filters, run_filters.
  cbn [fst snd bind]. repeat step.
Qed.

Lemma recheck_revisits (B : Backend) (th : thresholds)
  (acc : list candidate * list nat) (index : nat) (cand : candidate) :
  recheck th acc index cand
  = (kept <- revisit th (index, cand) ;;
     Ok (match kept with
         | Some ci => (fst acc ++ [fst ci], snd acc ++ [snd ci])
         | None => acc
         end)).
Proof.
  destruct acc as [ps idx].
  unfold recheck, revisit, valid_out_of_sample, refit, test_filters, run_filters.
  cbn [fst snd bind].
  destruct (field (X_test (snd cand))); cbn [bind]; [| reflexivity].
  destruct (field (Y_test (snd cand))); cbn [bind]; [| reflexivity].
  destruct (hedge a a0) as [[[b X'] spread]|]; cbn [bind fst snd]; [| reflexivity].
  repeat step.
Qed.

Lemma bind_Ok {A : Type} (c : result A) : (x <- c ;; Ok x) = c.
Proof. destruct c; reflexivity. Qed.

Lemma find_pairs_selects (B : Backend) (data_train data_test : frame) (th : thresholds) :
  find_pairs data_train data_test th
  = select_in_order (visit data_train data_test th) (index_pairs (length data_train)).
Proof.
  transitivity
    (for_each (index_pairs (length data_train)) []
       (fun pairs ij => examine data_train data_test th pairs (fst ij) (snd ij))).
  - unfold find_pairs, index_pairs. rewrite for_each_flat_map.
    apply for_each_ext. intros s i. rewrite for_each_map. reflexivity.
  - rewrite (for_each_selects (visit data_train data_test th) (fun s c => s ++ [c])).
    + rewrite <- (bind_Ok (select_in_order _ _)) at 2.
      destruct (select_in_order (visit data_train data_test th)
                  (index_pairs (length data_train))); cbn [bind]; [| reflexivity].
      rewrite fold_left_append. reflexivity.
    + intros s [i j]. apply examine_visits.
Qed.

Lemma pairs_overlap_selects (B : Backend) (pairs : list candidate) (th : thresholds) :
  pairs_overlap pairs th
  = (kept <- select_in_order (revisit th) (enumerate pairs) ;;
     Ok (map fst kept, map snd kept)).
Proof.
  unfold pairs_overlap.
  rewrite (for_each_selects (revisit th)
             (fun acc ci => (fst acc ++ [fst ci], snd acc ++ [snd ci]))).
  - destruct (select_in_order (revisit th) (enumerate pairs)); cbn [bind]; [| reflexivity].
    rewrite fold_left_append2. reflexivity.
  - intros s [i c]. apply recheck_revisits.
Qed.

Lemma select_in_order_ext {A C : Type} (f g : A -> result (option C)) (xs : list A) :
  (forall x, f x = g x) -> select_in_order f xs = select_in_order g xs.
Proof.
  intros E. induction xs as [|x xs IH]; [reflexivity|].
  cbn [select_in_order]. rewrite E, IH. reflexivity.
Qed.

(** ** Filters in order *)

Lemma run_filters_first_failure (pre post : list (result bool)) :
  Forall (fun f => f = Ok true) pre ->
  run_filters (pre ++ Ok false :: post) = Ok false.
Proof.
  induction 1 as [|f pre Hf _ IH]; [reflexivity|].
  cbn [app run_filters]. rewrite Hf. exact IH.
Qed.

Lemma run_filters_all_pass (fs : list (result bool)) :
  Forall (fun f => f = Ok true) fs -> run_filters fs = Ok true.
Proof.
  induction 1 as [|f fs Hf _ IH]; [reflexivity|].
  cbn [run_filters]. rewrite Hf. exact IH.
Qed.

Lemma test_filters_four (B : Backend) (th : thresholds) (stats : adf)
  (spread : list Q) (hl h : fval) :
  calculate_half_life spread = Ok hl -> hurst (Indexed spread) = Ok h ->
  run_filters (test_filters th stats spread)
  = Ok (four_filter th (adf_pvalue stats) hl (zero_crossings spread) h).
Proof.
  intros Hhl Hh. unfold test_filters, run_filters, four_filter.
  rewrite Hhl, Hh. cbn [bind]. repeat step.
Qed.

Lemma train_filters_four (B : Backend) (th : thresholds) (r : coint) (hl : fval) :
  calculate_half_life (spread r) = Ok hl ->
  run_filters (train_filters th r)
  = Ok (four_filter th (p_value r) hl (zero_cross r) (hurst_exponent r)).
Proof.
  intros Hhl. unfold train_filters, run_filters, four_filter.
  rewrite Hhl. cbn [bind]. repeat step.
Qed.

(** C3.  [find_pairs] visits the index pairs [i < j], each once, in
    lexicographic order, and returns what the visits keep, in that order;
    [pairs_overlap] does the same over its candidates.  A visit keeps a pair
    when the four filters, run in the fixed order p-value, half-life,
    zero-crossings, Hurst exponent, all pass; the first filter that fails
    drops the pair and no later one is evaluated. *)
Theorem filters_in_order_pairs_in_order (B : Backend)
  (data_train data_test : frame) (pairs : list candidate) (th : thresholds) :
  find_pairs data_train data_test th
  = select_in_order
      (fun ij =>
         c <- evaluate data_train data_test ij ;;
         keep <- run_filters
           [ Ok (Qlt_bool (p_value (snd c)) (p_value_threshold th));
             (hl <- calculate_half_life (spread (snd c)) ;;
              Ok (fge hl (min_half_life th)));
             Ok (Qle_bool (min_zero_crossings th) (inject_Z (zero_cross (snd c))));
             Ok (flt (hurst_exponent (snd c)) (hurst_threshold th)) ] ;;
         Ok (if keep then Some c else None))
      (index_pairs (length data_train))
  /\ pairs_overlap pairs th
     = (kept <- select_in_order
          (fun ic =>
             r <- refit (snd ic) ;;
             keep <- run_filters
               [ Ok (Qlt_bool (adf_pvalue (snd r)) (p_value_threshold th));
                 (hl <- calculate_half_life (snd (fst r)) ;;
                  Ok (fge hl (min_half_life th)));
                 Ok (Qle_bool (min_zero_crossings th)
                       (inject_Z (zero_crossings (snd (fst r)))));
                 (h <- hurst (Indexed (snd (fst r))) ;; Ok (flt h (hurst_threshold th))) ] ;;
             Ok (if keep then Some (snd ic, fst ic) else None))
          (enumerate pairs) ;;
        Ok (map fst kept, map snd kept))
  /\ (forall i j,
        In (i, j) (index_pairs (length data_train))
        <-> (i < j < length data_train)%nat)
  /\ StronglySorted lex_lt (index_pairs (length data_train))
  /\ NoDup (index_pairs (length data_train))
  /\ (forall pre post,
        Forall (fun f => f = Ok true) pre ->
        run_filters (pre ++ Ok false :: post) = Ok false)
  /\ (forall fs, Forall (fun f => f = Ok true) fs -> run_filters fs = Ok true).
Proof.
  split; [apply find_pairs_selects|].
  split.
  { rewrite pairs_overlap_selects. f_equal. apply select_in_order_ext.
    intros [i c]. unfold revisit, valid_out_of_sample. cbn [fst snd].
    destruct (refit c); reflexivity. }
  split; [intros i j; apply index_pairs_spec|].
  split; [apply index_pairs_sorted|].
  split; [apply sorted_NoDup, index_pairs_sorted|].
  split; [apply run_filters_first_failure | apply run_filters_all_pass].
Qed.

(** ** The stored half-life *)

Lemma int_round_finite (x : fval) (n : Z) :
  int_round x = Ok n -> exists q, x = Fin q /\ n = py_round q.
Proof.
  destruct x as [q| |]; cbn [int_round]; intros H; inversion H.
  exists q. split; reflexivity.
Qed.

Lemma direction_half_life (B : Backend) (S1 S2 : series) (s : coint) :
  direction S1 S2 = Ok s ->
  exists q, calculate_half_life (spread s) = Ok (Fin q) /\ half_life s = py_round q.
Proof.
  unfold direction. intros H.
  destruct (hedge S1 S2) as [[[b S1'] sp]|]; cbn [bind] in H; [| discriminate].
  destruct (check_for_stationarity sp); cbn [bind] in H; [| discriminate].
  destruct (calculate_half_life sp) as [hl|] eqn:Ehl; cbn [bind] in H; [| discriminate].
  destruct (hurst (Indexed sp)); cbn [bind] in H; [| discriminate].
  destruct (int_round hl) as [n|] eqn:En; cbn [bind] in H; [| discriminate].
  apply int_round_finite in En. destruct En as [q [-> ->]].
  inversion H; subst; cbn [spread half_life]. exists q. split; [exact Ehl | reflexivity].
Qed.

Lemma check_for_cointegration_half_life (B : Backend)
  (train_series test_series : series * series) (r : coint) :
  check_for_cointegration train_series test_series = Ok r ->
  exists q, calculate_half_life (spread r) = Ok (Fin q) /\ half_life r = py_round q.
Proof.
  unfold check_for_cointegration. intros H.
  destruct (direction (fst train_series) (snd train_series)) as [s0|] eqn:E0;
    cbn [bind] in H; [| discriminate].
  destruct (direction (snd train_series) (fst train_series)) as [s1|] eqn:E1;
    cbn [bind] in H; [| discriminate].
  inversion H; subst. unfold select.
  destruct (Qlt_bool _ _); cbn [set_tests spread half_life];
    eauto using direction_half_life.
Qed.

Lemma evaluate_half_life (B : Backend) (data_train data_test : frame)
  (ij : nat * nat) (c : candidate) :
  evaluate data_train data_test ij = Ok c ->
  exists q, calculate_half_life (spread (snd c)) = Ok (Fin q)
            /\ half_life (snd c) = py_round q.
Proof.
  unfold evaluate. intros H.
  repeat match type of H with
         | bind ?c _ = _ =>
             let E := fresh "E" in
             destruct c eqn:E; cbn [bind] in H; [| discriminate]
         end.
  inversion H; subst; cbn [snd].
  eapply check_for_cointegration_half_life; eassumption.
Qed.

Lemma visit_raises_with_evaluate (B : Backend) (data_train data_test : frame)
  (th : thresholds) (ij : nat * nat) (e : exn) :
  visit data_train data_test th ij = Raise e
  <-> evaluate data_train data_test ij = Raise e.
Proof.
  unfold visit.
  destruct (evaluate data_train data_test ij) as [c|e'] eqn:Ec; cbn [bind].
  - destruct (evaluate_half_life _ _ _ _ _ Ec) as [q [Hq _]].
    rewrite (train_filters_four _ _ _ _ Hq). cbn [bind].
    split; discriminate.
  - split; intros H; inversion H; reflexivity.
Qed.

(** ** No error boundary *)

Lemma find_pairs_raises (B : Backend) (data_train data_test : frame) (th : thresholds)
  (pre post : list (nat * nat)) (ij : nat * nat) (e : exn) :
  index_pairs (length data_train) = pre ++ ij :: post ->
  Forall (fun ij => returns (visit data_train data_test th ij)) pre ->
  visit data_train data_test th ij = Raise e ->
  find_pairs data_train data_test th = Raise e.
Proof.
  intros Hsplit Hpre Hij. rewrite find_pairs_selects, Hsplit.
  apply select_in_order_raises; assumption.
Qed.

Lemma bind_returns {A C : Type} (c : result A) (k : A -> C) :
  returns (x <- c ;; Ok (k x)) <-> returns c.
Proof.
  destruct c as [a|e]; cbn [bind]; split; intros [x Hx]; try discriminate;
    eexists; reflexivity.
Qed.

Lemma pairs_overlap_raises (B : Backend) (pairs : list candidate) (th : thresholds)
  (pre post : list (nat * candidate)) (ic : nat * candidate) (e : exn) :
  enumerate pairs = pre ++ ic :: post ->
  Forall (fun ic => returns (revisit th ic)) pre ->
  revisit th ic = Raise e ->
  pairs_overlap pairs th = Raise e.
Proof.
  intros Hsplit Hpre Hic. rewrite pairs_overlap_selects, Hsplit.
  rewrite (select_in_order_raises _ _ _ _ _ Hpre Hic). reflexivity.
Qed.

(** C4, as the code has it.  Neither function catches anything.
    [find_pairs] returns a list exactly when every visit of an index pair
    returns, and raises the exception of the first pair whose evaluation
    raises; [pairs_overlap] returns exactly when the re-check of every
    candidate returns, and raises the exception of the first candidate whose
    re-check raises.  In both cases the pairs kept before that point are
    lost with the batch. *)
Theorem exceptions_abort_the_batch (B : Backend)
  (data_train data_test : frame) (pairs : list candidate) (th : thresholds) :
  (returns (find_pairs data_train data_test th)
   <-> Forall (fun ij => returns (visit data_train data_test th ij))
              (index_pairs (length data_train)))
  /\ (forall pre ij post e,
        index_pairs (length data_train) = pre ++ ij :: post ->
        Forall (fun ij => returns (visit data_train data_test th ij)) pre ->
        evaluate data_train data_test ij = Raise e ->
        find_pairs data_train data_test th = Raise e)
  /\ (returns (pairs_overlap pairs th)
      <-> Forall (fun ic => returns (valid_out_of_sample th (snd ic)))
                 (enumerate pairs))
  /\ (forall pre ic post e,
        enumerate pairs = pre ++ ic :: post ->
        Forall (fun ic => returns (valid_out_of_sample th (snd ic))) pre ->
        valid_out_of_sample th (snd ic) = Raise e ->
        pairs_overlap pairs th = Raise e).
Proof.
  assert (Hrev : forall ic : nat * candidate,
             returns (revisit th ic) <-> returns (valid_out_of_sample th (snd ic))).
  { intros ic. unfold revisit. apply bind_returns. }
  split; [rewrite find_pairs_selects; apply select_in_order_returns|].
  split.
  { intros pre ij post e Hsplit Hpre Hij.
    apply (find_pairs_raises _ _ _ _ pre post ij e Hsplit Hpre).
    apply visit_raises_with_evaluate. exact Hij. }
  split.
  { rewrite pairs_overlap_selects, bind_returns, select_in_order_returns.
    split; apply Forall_impl; intros ic; apply Hrev. }
  intros pre ic post e Hsplit Hpre Hic.
  apply (pairs_overlap_raises _ _ _ pre post ic e Hsplit).
  - revert Hpre. apply Forall_impl. intros x. apply Hrev.
  - unfold revisit. rewrite Hic. reflexivity.
Qed.

Lemma exceptions_abort_the_batch_witness :
  @find_pairs Example.tied [Example.A_short; Example.B_short]
     [Example.A_short; Example.B_short] Example.loose = Raise ValueError.
Proof.
  apply (proj1 (proj2
           (@exceptions_abort_the_batch Example.tied
              [Example.A_short; Example.B_short]
              [Example.A_short; Example.B_short] [] Example.loose))
         [] (0, 1)%nat [] ValueError).
  - reflexivity.
  - constructor.
  - vm_compute. reflexivity.
Defined.

(** C4, the claim as stated fails.  With three observations per series the
    unit-root test raises ValueError (the sample is too short):
    [find_pairs] raises it instead of returning an empty list.  And
    [pairs_overlap], given a candidate that is valid on its test window
    followed by one whose test window has three observations, raises too
    instead of returning the first. *)
Lemma short_sample_aborts_the_batch :
  @find_pairs Example.tied [Example.A_short; Example.B_short]
     [Example.A_short; Example.B_short] Example.loose = Raise ValueError
  /\ @find_pairs Example.tied [Example.A; Example.B]
       [Example.A_test; Example.B_test] Example.loose = Ok Example.found
  /\ @find_pairs Example.tied [Example.A; Example.B]
       [Example.A_short; Example.B_short] Example.loose = Ok Example.found_short
  /\ length Example.found = 1%nat
  /\ length Example.found_short = 1%nat
  /\ @pairs_overlap Example.tied Example.found Example.loose
     = Ok (Example.found, [0%nat])
  /\ @pairs_overlap Example.tied (Example.found ++ Example.found_short) Example.loose
     = Raise ValueError.
Proof.
  repeat split; vm_compute; reflexivity.
Qed.

(** ** pairs_overlap on candidates whose re-check returns *)

Lemma revisit_by_flags (B : Backend) (th : thresholds) (ps : list candidate) (a : nat) :
  select_in_order (revisit th) (combine (seq a (length ps)) ps)
  = (flags <- map_result (valid_out_of_sample th) ps ;;
     Ok (map (fun ic => (snd ic, fst ic))
           (filter (fun ic => nth (fst ic - a) flags false)
                   (combine (seq a (length ps)) ps)))).
Proof.
  revert a. induction ps as [|p ps IH]; intros a; [reflexivity|].
  cbn [length seq combine select_in_order map_result].
  unfold revisit at 1. cbn [fst snd].
  destruct (valid_out_of_sample th p) as [f|e]; cbn [bind]; [| reflexivity].
  rewrite (IH (S a)).
  destruct (map_result (valid_out_of_sample th) ps) as [fl|e]; cbn [bind];
    [| reflexivity].
  cbn [filter fst].
  rewrite (filter_ext_in
             (fun ic => nth (fst ic - a) (f :: fl) false)
             (fun ic => nth (fst ic - S a) fl false)).
  - rewrite Nat.sub_diag. cbn [nth]. destruct f; reflexivity.
  - intros [i c] Hin. apply in_combine_l in Hin. apply in_seq in Hin.
    cbn [fst]. replace (i - a)%nat with (S (i - S a)) by lia. reflexivity.
Qed.

Lemma pairs_overlap_by_flags (B : Backend) (th : thresholds) (pairs : list candidate) :
  pairs_overlap pairs th
  = (flags <- map_result (valid_out_of_sample th) pairs ;;
     Ok (map snd (filter (fun ic => nth (fst ic) flags false) (enumerate pairs)),
         map fst (filter (fun ic => nth (fst ic) flags false) (enumerate pairs)))).
Proof.
  rewrite pairs_overlap_selects. unfold enumerate.
  rewrite (revisit_by_flags _ _ _ 0).
  destruct (map_result (valid_out_of_sample th) pairs) as [flags|e]; cbn [bind];
    [| reflexivity].
  rewrite (filter_ext (fun ic : nat * candidate => nth (fst ic - 0) flags false)
                      (fun ic => nth (fst ic) flags false))
    by (intros ic; rewrite Nat.sub_0_r; reflexivity).
  rewrite !map_map. cbn [fst snd]. reflexivity.
Qed.

Lemma map_result_nth {A C : Type} (f : A -> result C) (xs : list A) (cs : list C)
  (i : nat) (x : A) :
  map_result f xs = Ok cs -> nth_error xs i = Some x ->
  exists c, nth_error cs i = Some c /\ f x = Ok c.
Proof.
  revert cs i. induction xs as [|y xs IH]; intros cs i H Hx.
  - destruct i; discriminate.
  - cbn [map_result] in H.
    destruct (f y) as [c|] eqn:Ef; cbn [bind] in H; [| discriminate].
    destruct (map_result f xs) as [cs'|] eqn:Ecs; cbn [bind] in H; [| discriminate].
    inversion H; subst cs. destruct i as [|i]; cbn [nth_error] in *.
    + inversion Hx; subst. exists c. split; [reflexivity | exact Ef].
    + apply (IH cs' i eq_refl Hx).
Qed.

Lemma in_enumerate {A : Type} (xs : list A) (a i : nat) (x : A) :
  In (i, x) (combine (seq a (length xs)) xs)
  <-> (a <= i)%nat /\ nth_error xs (i - a) = Some x.
Proof.
  revert a. induction xs as [|y xs IH]; intros a; cbn [length seq combine In].
  - split; [tauto | intros [_ H]; destruct (i - a)%nat; discriminate].
  - rewrite IH. split.
    + intros [E | [Hle Hn]].
      * inversion E; subst. rewrite Nat.sub_diag. split; [lia | reflexivity].
      * split; [lia|]. replace (i - a)%nat with (S (i - S a)) by lia. exact Hn.
    + intros [Hle Hn]. destruct (Nat.eq_dec a i) as [->|Hne].
      * rewrite Nat.sub_diag in Hn. cbn [nth_error] in Hn. inversion Hn. left. reflexivity.
      * right. split; [lia|].
        replace (i - a)%nat with (S (i - S a)) in Hn by lia. exact Hn.
Qed.

(** C5.  [pairs_overlap] re-checks every candidate in order and returns
    the candidates that pass, in their order, with their positions in the
    input list (an exception of a re-check is its own).  The re-check of a
    candidate reads its two test slices and nothing else of it: it regresses
    [Y_test] on [X_test] with a constant, forms the spread with the
    coefficient of that fit, tests it for a unit root and applies the four
    filters, which are the threshold tests of [find_pairs] on the diagnostics
    of this spread. *)
Theorem pairs_overlap_keeps_valid_candidates (B : Backend)
  (pairs : list candidate) (th : thresholds) :
  pairs_overlap pairs th
  = (flags <- map_result (valid_out_of_sample th) pairs ;;
     Ok (map snd (filter (fun ic => nth (fst ic) flags false) (enumerate pairs)),
         map fst (filter (fun ic => nth (fst ic) flags false) (enumerate pairs))))
  /\ (forall flags i c,
        map_result (valid_out_of_sample th) pairs = Ok flags ->
        (In (i, c) (filter (fun ic => nth (fst ic) flags false) (enumerate pairs))
         <-> nth_error pairs i = Some c /\ valid_out_of_sample th c = Ok true))
  /\ (forall c c',
        X_test (snd c) = X_test (snd c') -> Y_test (snd c) = Y_test (snd c') ->
        valid_out_of_sample th c = valid_out_of_sample th c')
  /\ (forall c X Y,
        X_test (snd c) = Some X -> Y_test (snd c) = Some Y ->
        valid_out_of_sample th c
        = (results <- ols_fit (values Y) (add_constant X) ;;
           X' <- column (add_constant X) (name X) ;;
           b <- coefficient results (name X') ;;
           let spread := subtract (values Y) (scale b (values X')) in
           stats <- adfuller spread ;;
           run_filters (test_filters th stats spread)))
  /\ (forall stats spread hl h,
        calculate_half_life spread = Ok hl -> hurst (Indexed spread) = Ok h ->
        run_filters (test_filters th stats spread)
        = Ok (four_filter th (adf_pvalue stats) hl (zero_crossings spread) h))
  /\ (forall r hl,
        calculate_half_life (spread r) = Ok hl ->
        run_filters (train_filters th r)
        = Ok (four_filter th (p_value r) hl (zero_cross r) (hurst_exponent r))).
Proof.
  split; [apply pairs_overlap_by_flags|].
  split.
  { intros flags i c H. rewrite filter_In. unfold enumerate. rewrite in_enumerate.
    rewrite Nat.sub_0_r. cbn [fst]. split.
    - intros [[_ Hn] Hf].
      destruct (map_result_nth _ _ _ _ _ H Hn) as [f [Hfi Hv]].
      rewrite (nth_error_nth _ _ _ Hfi) in Hf. subst f. split; assumption.
    - intros [Hn Hv].
      destruct (map_result_nth _ _ _ _ _ H Hn) as [f [Hfi Hv']].
      rewrite Hv in Hv'. inversion Hv'; subst f.
      split; [split; [lia | exact Hn] | apply (nth_error_nth _ _ _ Hfi)]. }
  split.
  { intros c c' HX HY. unfold valid_out_of_sample, refit. rewrite HX, HY. reflexivity. }
  split.
  { intros c X Y HX HY. unfold valid_out_of_sample, refit, hedge, check_for_stationarity.
    rewrite HX, HY. cbn [field bind].
    destruct (ols_fit (values Y) (add_constant X)); cbn [bind]; [| reflexivity].
    destruct (column (add_constant X) (name X)); cbn [bind]; [| reflexivity].
    destruct (coefficient a (name a0)); cbn [bind fst snd]; [| reflexivity].
    destruct (adfuller _); reflexivity. }
  split.
  - intros stats sp hl h. apply test_filters_four.
  - intros r hl. apply train_filters_four.
Qed.

Lemma pairs_overlap_keeps_valid_candidates_witness :
  @pairs_overlap Example.untied (Example.found ++ Example.slow) Example.floor_one
  = Ok (Example.slow, [1%nat]).
Proof.
  rewrite (proj1 (@pairs_overlap_keeps_valid_candidates Example.untied
                    (Example.found ++ Example.slow) Example.floor_one)).
  vm_compute. reflexivity.
Defined.

(** ** The choice of direction *)

Lemma select_first (stats0 stats1 : coint) (tests : series * series) :
  Qabs (t_statistic stats1) < Qabs (t_statistic stats0) ->
  select stats0 stats1 tests = set_tests stats0 (fst tests) (snd tests).
Proof.
  intros H. unfold select. rewrite (proj2 (Qlt_bool_iff _ _) H). reflexivity.
Qed.

Lemma select_second (stats0 stats1 : coint) (tests : series * series) :
  Qabs (t_statistic stats0) <= Qabs (t_statistic stats1) ->
  select stats0 stats1 tests = set_tests stats1 (snd tests) (fst tests).
Proof.
  intros H. unfold select. rewrite (proj2 (Qlt_bool_false_iff _ _) H). reflexivity.
Qed.

(** C1, as the code has it.  [check_for_cointegration] evaluates the
    regression of [Y] on [X], then that of [X] on [Y], and an exception of
    either is its own.  When both return, it returns the one whose
    t-statistic is strictly larger in absolute value, with the test slices
    in the matching order; when the two absolute values are equal it returns
    the second one, the regression of [X] on [Y]. *)
Theorem larger_magnitude_direction_selected (B : Backend) (X Y : series)
  (tests : series * series) :
  (forall s0 s1,
      direction X Y = Ok s0 -> direction Y X = Ok s1 ->
      (Qabs (t_statistic s1) < Qabs (t_statistic s0) ->
       check_for_cointegration (X, Y) tests
       = Ok (set_tests s0 (fst tests) (snd tests)))
      /\ (Qabs (t_statistic s0) < Qabs (t_statistic s1) ->
          check_for_cointegration (X, Y) tests
          = Ok (set_tests s1 (snd tests) (fst tests)))
      /\ (Qabs (t_statistic s0) == Qabs (t_statistic s1) ->
          check_for_cointegration (X, Y) tests
          = Ok (set_tests s1 (snd tests) (fst tests))))
  /\ (forall e, direction X Y = Raise e ->
                check_for_cointegration (X, Y) tests = Raise e)
  /\ (forall s0 e, direction X Y = Ok s0 -> direction Y X = Raise e ->
                   check_for_cointegration (X, Y) tests = Raise e).
Proof.
  unfold check_for_cointegration. cbn [fst snd]. repeat split.
  - intros Hlt. rewrite H, H0. cbn [bind]. rewrite select_first by exact Hlt. reflexivity.
  - intros Hlt. rewrite H, H0. cbn [bind]. rewrite select_second by lra. reflexivity.
  - intros Heq. rewrite H, H0. cbn [bind].
    rewrite select_second by (rewrite Heq; apply Qle_refl). reflexivity.
  - intros e He. rewrite He. reflexivity.
  - intros s0 e H0 He. rewrite H0, He. reflexivity.
Qed.

Lemma larger_magnitude_direction_selected_witness :
  exists s0,
    @direction Example.untied Example.A Example.B = Ok s0
    /\ @check_for_cointegration Example.untied (Example.A, Example.B)
         (Example.A_test, Example.B_test)
       = Ok (set_tests s0 Example.A_test Example.B_test).
Proof.
  destruct (@direction Example.untied Example.A Example.B) as [s0|] eqn:E0;
    [| vm_compute in E0; discriminate].
  destruct (@direction Example.untied Example.B Example.A) as [s1|] eqn:E1;
    [| vm_compute in E1; discriminate].
  exists s0. split; [reflexivity|].
  apply (proj1 (proj1 (@larger_magnitude_direction_selected Example.untied
                         Example.A Example.B (Example.A_test, Example.B_test))
                      s0 s1 E0 E1)).
  vm_compute in E0. vm_compute in E1.
  inversion E0; subst s0. inversion E1; subst s1. reflexivity.
Defined.

(** C1, the claim as stated fails.  When the unit-root test reports the
    t-statistic -3 for both spreads, [check_for_cointegration] on [(A, B)]
    returns the second direction it evaluated, the regression of [A] on [B]
    with hedge ratio 115/257, not the first, the regression of [B] on [A]
    with hedge ratio 23/13. *)
Lemma tie_returns_second_direction :
  exists s0 s1,
    @direction Example.tied Example.A Example.B = Ok s0
    /\ @direction Example.tied Example.B Example.A = Ok s1
    /\ t_statistic s0 = - (3) /\ t_statistic s1 = - (3)
    /\ Qabs (t_statistic s0) == Qabs (t_statistic s1)
    /\ coint_coef s0 = 23 # 13 /\ coint_coef s1 = 115 # 257
    /\ @check_for_cointegration Example.tied (Example.A, Example.B)
         (Example.A_test, Example.B_test)
       = Ok (set_tests s1 Example.B_test Example.A_test)
    /\ set_tests s1 Example.B_test Example.A_test
       <> set_tests s0 Example.A_test Example.B_test.
Proof.
  destruct (@direction Example.tied Example.A Example.B) as [s0|] eqn:E0;
    [| vm_compute in E0; discriminate].
  destruct (@direction Example.tied Example.B Example.A) as [s1|] eqn:E1;
    [| vm_compute in E1; discriminate].
  exists s0, s1.
  assert (C : @check_for_cointegration Example.tied (Example.A, Example.B)
                (Example.A_test, Example.B_test)
              = Ok (select s0 s1 (Example.A_test, Example.B_test))).
  { unfold check_for_cointegration. cbn [fst snd]. rewrite E0, E1. reflexivity. }
  vm_compute in E0. vm_compute in E1.
  inversion E0; subst s0. inversion E1; subst s1.
  do 7 (split; [reflexivity|]).
  split; [exact C|].
  intros H. apply (f_equal coint_coef) in H. discriminate H.
Qed.

Lemma direction_sides (B : Backend) (S1 S2 : series) (s : coint) :
  direction S1 S2 = Ok s -> name (X_train s) = name S1 /\ Y_train s = S2.
Proof.
  unfold direction, hedge. intros H.
  destruct (ols_fit (values S2) (add_constant S1)) as [res|]; cbn [bind] in H;
    [| discriminate].
  unfold column in H.
  destruct (find _ (add_constant S1)) as [S1'|] eqn:Ecol; cbn [bind] in H;
    [| discriminate].
  destruct (coefficient res (name S1')) as [b|]; cbn [bind] in H; [| discriminate].
  destruct (check_for_stationarity _) as [stats|]; cbn [bind] in H; [| discriminate].
  destruct (calculate_half_life _) as [hl|]; cbn [bind] in H; [| discriminate].
  destruct (hurst _) as [h|]; cbn [bind] in H; [| discriminate].
  destruct (int_round hl) as [n|]; cbn [bind] in H; [| discriminate].
  inversion H; subst s; cbn [X_train Y_train].
  apply find_some in Ecol. destruct Ecol as [_ Hname].
  apply String.eqb_eq in Hname. split; [exact Hname | reflexivity].
Qed.

(** C6, as the code has it.  When both regressions return, so do the calls
    in the order [(A, B)] and in the order [(B, A)].  If the two t-statistics
    differ in absolute value, the two calls return the same record, hedge
    ratio and test slices included.  If they are equal in absolute value,
    each call returns the direction it evaluated second: the order [(A, B)]
    the regression of [A] on [B], the order [(B, A)] the regression of [B]
    on [A], each with the test slices in the matching order. *)
Theorem direction_independent_of_argument_order (B : Backend)
  (S T S_test T_test : series) (s0 s1 : coint) :
  direction S T = Ok s0 -> direction T S = Ok s1 ->
  (~ Qabs (t_statistic s0) == Qabs (t_statistic s1) ->
   check_for_cointegration (S, T) (S_test, T_test)
   = check_for_cointegration (T, S) (T_test, S_test))
  /\ returns (check_for_cointegration (S, T) (S_test, T_test))
  /\ returns (check_for_cointegration (T, S) (T_test, S_test))
  /\ (Qabs (t_statistic s0) == Qabs (t_statistic s1) ->
      check_for_cointegration (S, T) (S_test, T_test)
      = Ok (set_tests s1 T_test S_test)
      /\ check_for_cointegration (T, S) (T_test, S_test)
         = Ok (set_tests s0 S_test T_test)
      /\ Y_train s1 = S /\ name (X_train s1) = name T
      /\ Y_train s0 = T /\ name (X_train s0) = name S).
Proof.
  intros H0 H1. unfold check_for_cointegration. cbn [fst snd].
  rewrite H0, H1. cbn [bind].
  split; [| split; [eexists; reflexivity | split; [eexists; reflexivity|]]].
  - intros Hne. f_equal.
    destruct (Qlt_le_dec (Qabs (t_statistic s1)) (Qabs (t_statistic s0))) as [Hlt|Hle].
    + rewrite select_first by exact Hlt. rewrite select_second by lra. reflexivity.
    + assert (Hlt : Qabs (t_statistic s0) < Qabs (t_statistic s1)).
      { apply Qnot_le_lt. intros Hge. apply Hne. apply Qle_antisym; assumption. }
      rewrite select_second by exact Hle. rewrite select_first by exact Hlt.
      reflexivity.
  - intros Heq.
    rewrite (select_second s0 s1) by (rewrite Heq; apply Qle_refl).
    rewrite (select_second s1 s0) by (rewrite Heq; apply Qle_refl).
    cbn [fst snd].
    destruct (direction_sides _ _ _ _ H0) as [Hx0 Hy0].
    destruct (direction_sides _ _ _ _ H1) as [Hx1 Hy1].
    repeat split; assumption.
Qed.

Lemma direction_independent_of_argument_order_witness :
  @check_for_cointegration Example.untied (Example.A, Example.B)
    (Example.A_test, Example.B_test)
  = @check_for_cointegration Example.untied (Example.B, Example.A)
      (Example.B_test, Example.A_test).
Proof.
  destruct (@direction Example.untied Example.A Example.B) as [s0|] eqn:E0;
    [| vm_compute in E0; discriminate].
  destruct (@direction Example.untied Example.B Example.A) as [s1|] eqn:E1;
    [| vm_compute in E1; discriminate].
  apply (proj1 (@direction_independent_of_argument_order Example.untied
                  Example.A Example.B Example.A_test Example.B_test
                  s0 s1 E0 E1)).
  vm_compute in E0. vm_compute in E1.
  inversion E0; subst s0. inversion E1; subst s1.
  intros H. vm_compute in H. discriminate H.
Defined.

(** C6, the claim as stated fails.  When the unit-root test reports the
    t-statistic -3 for both spreads, the order [(A, B)] yields the
    regression of [A] on [B] (hedge ratio 115/257) and the order [(B, A)]
    the regression of [B] on [A] (hedge ratio 23/13): two different
    directions, whose hedge ratios are not reciprocal. *)
Lemma tie_depends_on_argument_order :
  exists r r',
    @check_for_cointegration Example.tied (Example.A, Example.B)
      (Example.A_test, Example.B_test) = Ok r
    /\ @check_for_cointegration Example.tied (Example.B, Example.A)
         (Example.B_test, Example.A_test) = Ok r'
    /\ X_train r = Example.B /\ Y_train r = Example.A
    /\ X_train r' = Example.A /\ Y_train r' = Example.B
    /\ coint_coef r = 115 # 257 /\ coint_coef r' = 23 # 13
    /\ ~ coint_coef r * coint_coef r' == 1
    /\ r <> r'.
Proof.
  destruct (@check_for_cointegration Example.tied (Example.A, Example.B)
              (Example.A_test, Example.B_test)) as [r|] eqn:E;
    [| vm_compute in E; discriminate].
  destruct (@check_for_cointegration Example.tied (Example.B, Example.A)
              (Example.B_test, Example.A_test)) as [r'|] eqn:E';
    [| vm_compute in E'; discriminate].
  exists r, r'. vm_compute in E. vm_compute in E'.
  inversion E; subst r. inversion E'; subst r'.
  do 8 (split; [reflexivity|]).
  split.
  - intros H. vm_compute in H. discriminate H.
  - intros H. apply (f_equal coint_coef) in H. discriminate H.
Qed.

(** ** Rounding *)

Lemma py_round_nearest (q : Q) : Qabs (q - inject_Z (py_round q)) <= 1 # 2.
Proof.
  pose proof (Qfloor_le q) as Hlo. pose proof (Qlt_floor q) as Hhi.
  rewrite inject_Z_plus in Hhi. change (inject_Z 1) with 1 in Hhi.
  apply Qabs_Qle_condition. unfold py_round.
  destruct (Qlt_bool (q - inject_Z (Qfloor q)) (1 # 2)) eqn:E1.
  - apply Qlt_bool_iff in E1. split; lra.
  - apply Qlt_bool_false_iff in E1.
    assert (Hup : inject_Z (Qfloor q + 1) == inject_Z (Qfloor q) + 1)
      by (rewrite inject_Z_plus; reflexivity).
    destruct (Qlt_bool (1 # 2) (q - inject_Z (Qfloor q))) eqn:E2.
    + rewrite Hup. split; lra.
    + apply Qlt_bool_false_iff in E2.
      destruct (Z.even (Qfloor q)); [| rewrite Hup]; split; lra.
Qed.

Lemma select_in_order_In {A C : Type} (f : A -> result (option C)) (xs : list A)
  (l : list C) (c : C) :
  select_in_order f xs = Ok l -> In c l -> exists x, In x xs /\ f x = Ok (Some c).
Proof.
  revert l. induction xs as [|x xs IH]; intros l H Hin.
  - inversion H; subst. destruct Hin.
  - cbn [select_in_order] in H.
    destruct (f x) as [o|] eqn:Ef; cbn [bind] in H; [| discriminate].
    destruct (select_in_order f xs) as [l'|] eqn:El; cbn [bind] in H; [| discriminate].
    inversion H; subst l. clear H.
    destruct o as [c'|].
    + destruct Hin as [->|Hin].
      * exists x. split; [left; reflexivity | exact Ef].
      * destruct (IH l' eq_refl Hin) as [y [Hy Hf]]. exists y. split; [right|]; assumption.
    + destruct (IH l' eq_refl Hin) as [y [Hy Hf]]. exists y. split; [right|]; assumption.
Qed.

Lemma four_filter_half_life (th : thresholds) (p q : Q) (zc : Z) (h : fval) :
  four_filter th p (Fin q) zc h = true -> min_half_life th <= q.
Proof.
  unfold four_filter. rewrite !andb_true_iff. cbn [fge].
  intros [[[_ H] _] _]. apply Qle_bool_iff. exact H.
Qed.

Lemma four_filter_below_floor (th : thresholds) (p q : Q) (zc : Z) (h : fval) :
  q < min_half_life th -> four_filter th p (Fin q) zc h = false.
Proof.
  intros H. destruct (four_filter th p (Fin q) zc h) eqn:E; [| reflexivity].
  apply four_filter_half_life in E. lra.
Qed.

Lemma examine_decides (B : Backend) (data_train data_test : frame) (th : thresholds)
  (pairs : list candidate) (i j : nat) (c : candidate) (q : Q) :
  evaluate data_train data_test (i, j) = Ok c ->
  calculate_half_life (spread (snd c)) = Ok (Fin q) ->
  examine data_train data_test th pairs i j
  = Ok (if four_filter th (p_value (snd c)) (Fin q) (zero_cross (snd c))
                       (hurst_exponent (snd c))
        then pairs ++ [c] else pairs).
Proof.
  intros Hc Hq. rewrite examine_visits. unfold visit. rewrite Hc. cbn [bind].
  rewrite (train_filters_four _ _ _ _ Hq). cbn [bind].
  destruct (four_filter _ _ _ _ _); reflexivity.
Qed.

(** C10.  The [half_life] field of every record that
    [check_for_cointegration] returns, and so of every candidate that
    [find_pairs] returns, is the half-life estimate of the record's spread
    rounded to the nearest integer.  The half-life filter of [find_pairs]
    does not read that field: it recomputes the estimate from the spread and
    compares the unrounded value with the floor, so that a pair whose
    estimate is below the floor is dropped whatever its stored field. *)
Theorem half_life_stored_rounded_compared_unrounded (B : Backend)
  (data_train data_test : frame) (th : thresholds) :
  (forall train_series test_series r,
      check_for_cointegration train_series test_series = Ok r ->
      exists q,
        calculate_half_life (spread r) = Ok (Fin q)
        /\ int_round (Fin q) = Ok (half_life r)
        /\ half_life r = py_round q
        /\ Qabs (q - inject_Z (half_life r)) <= 1 # 2)
  /\ (forall pairs i j c,
        evaluate data_train data_test (i, j) = Ok c ->
        exists q,
          calculate_half_life (spread (snd c)) = Ok (Fin q)
          /\ half_life (snd c) = py_round q
          /\ examine data_train data_test th pairs i j
             = Ok (if four_filter th (p_value (snd c)) (Fin q)
                                  (zero_cross (snd c)) (hurst_exponent (snd c))
                   then pairs ++ [c] else pairs)
          /\ (q < min_half_life th ->
              examine data_train data_test th pairs i j = Ok pairs))
  /\ (forall found c,
        find_pairs data_train data_test th = Ok found -> In c found ->
        exists q,
          calculate_half_life (spread (snd c)) = Ok (Fin q)
          /\ half_life (snd c) = py_round q
          /\ min_half_life th <= q).
Proof.
  split; [| split].
  - intros train_series test_series r Hr.
    destruct (check_for_cointegration_half_life _ _ _ _ Hr) as [q [Hq Hh]].
    exists q. rewrite Hh. repeat split; [exact Hq | apply py_round_nearest].
  - intros pairs i j c Hc.
    destruct (evaluate_half_life _ _ _ _ _ Hc) as [q [Hq Hh]].
    exists q. split; [exact Hq|]. split; [exact Hh|].
    rewrite (examine_decides _ _ _ _ _ _ _ _ _ Hc Hq). split; [reflexivity|].
    intros Hlow. rewrite four_filter_below_floor by exact Hlow. reflexivity.
  - intros found c Hfound Hin. rewrite find_pairs_selects in Hfound.
    destruct (select_in_order_In _ _ _ _ Hfound Hin) as [ij [_ Hv]].
    unfold visit in Hv.
    destruct (evaluate data_train data_test ij) as [c'|] eqn:Ec; cbn [bind] in Hv;
      [| discriminate].
    destruct (evaluate_half_life _ _ _ _ _ Ec) as [q [Hq Hh]].
    rewrite (train_filters_four _ _ _ _ Hq) in Hv. cbn [bind] in Hv.
    destruct (four_filter _ _ _ _ _) eqn:Ef; inversion Hv; subst c'.
    exists q. split; [exact Hq|]. split; [exact Hh|].
    eapply four_filter_half_life. exact Ef.
Qed.

Lemma half_life_stored_rounded_compared_unrounded_witness :
  exists c q,
    @evaluate Example.untied [Example.P; Example.R] [Example.P; Example.R] (0, 1)%nat
      = Ok c
    /\ @calculate_half_life Example.untied (spread (snd c)) = Ok (Fin q)
    /\ half_life (snd c) = 5%Z
    /\ q < 5
    /\ min_half_life Example.defaults == 5
    /\ @examine Example.untied [Example.P; Example.R] [Example.P; Example.R]
         Example.defaults [] 0 1 = Ok [].
Proof.
  destruct (@evaluate Example.untied [Example.P; Example.R] [Example.P; Example.R]
              (0, 1)%nat) as [c|] eqn:Ec; [| vm_compute in Ec; discriminate].
  destruct (proj1 (proj2 (@half_life_stored_rounded_compared_unrounded Example.untied
                            [Example.P; Example.R] [Example.P; Example.R]
                            Example.defaults))
                  [] 0%nat 1%nat c Ec) as [q [Hq [Hh [_ Hdrop]]]].
  exists c, q. split; [reflexivity|]. split; [exact Hq|].
  vm_compute in Ec. inversion Ec; subst c.
  vm_compute in Hq. inversion Hq; subst q.
  split; [reflexivity|]. split; [reflexivity|]. split; [reflexivity|].
  apply Hdrop. reflexivity.
Defined.

(** * Further properties *)

(** ** zero_crossings: bounds and invariances *)

Lemma count_adjacent_bounds (p : Q -> Q -> bool) (x : list Q) :
  (0 <= count_adjacent p x <= Z.of_nat (pred (length x)))%Z.
Proof.
  induction x as [|a t IH]; [cbn; lia|].
  destruct t as [|b t']; [cbn; lia|].
  change (count_adjacent p (a :: b :: t'))
    with ((if p a b then 1 else 0) + count_adjacent p (b :: t'))%Z.
  cbn [length pred] in *. destruct (p a b); lia.
Qed.

Lemma count_adjacent_all (p : Q -> Q -> bool) (x : list Q) :
  (forall a b, In a x -> In b x -> p a b = true) ->
  count_adjacent p x = Z.of_nat (pred (length x)).
Proof.
  induction x as [|a t IH]; intros H; [reflexivity|].
  destruct t as [|b t']; [reflexivity|].
  change (count_adjacent p (a :: b :: t'))
    with ((if p a b then 1 else 0) + count_adjacent p (b :: t'))%Z.
  rewrite H by (cbn; auto). rewrite IH by (intros; apply H; right; assumption).
  cbn [length pred]. lia.
Qed.

Lemma count_adjacent_ext_in (p q : Q -> Q -> bool) (x : list Q) :
  (forall a b, In a x -> In b x -> p a b = q a b) ->
  count_adjacent p x = count_adjacent q x.
Proof.
  induction x as [|a t IH]; intros E; [reflexivity|].
  destruct t as [|b t']; [reflexivity|].
  change (count_adjacent p (a :: b :: t'))
    with ((if p a b then 1 else 0) + count_adjacent p (b :: t'))%Z.
  change (count_adjacent q (a :: b :: t'))
    with ((if q a b then 1 else 0) + count_adjacent q (b :: t'))%Z.
  rewrite E by (cbn; auto). rewrite IH by (intros; apply E; right; assumption).
  reflexivity.
Qed.

Lemma sum_affine (k c : Q) (x : list Q) :
  fold_right Qplus 0 (map (fun v => k * v + c) x)
  == k * fold_right Qplus 0 x + inject_Z (Z.of_nat (length x)) * c.
Proof.
  induction x as [|a t IH].
  - cbn [map fold_right length Z.of_nat]. change (inject_Z 0) with 0. lra.
  - cbn [map fold_right length]. rewrite IH, Nat2Z.inj_succ.
    unfold Z.succ. rewrite inject_Z_plus. change (inject_Z 1) with 1. lra.
Qed.

Lemma mean_affine (k c : Q) (x : list Q) :
  x <> [] -> mean (map (fun v => k * v + c) x) == k * mean x + c.
Proof.
  intros Hx. unfold mean. rewrite length_map, !np_sum_fold_right, sum_affine.
  assert (Hn : ~ inject_Z (Z.of_nat (length x)) == 0).
  { destruct x as [|a t]; [congruence|]. cbn [length].
    change 0 with (inject_Z 0). rewrite inject_Z_injective. lia. }
  field. exact Hn.
Qed.

Lemma crossing_affine (k c m m' a b : Q) :
  ~ k == 0 -> m' == k * m + c ->
  crossing m' (k * a + c) (k * b + c) = crossing m a b.
Proof.
  intros Hk Hm. apply bool_eq_by_iff. unfold crossing, opposite_sides.
  rewrite !orb_true_iff, !andb_true_iff, !Qlt_bool_iff, !Qeq_bool_iff.
  destruct (Q_dec k 0) as [[Hneg|Hpos]|Hz]; [| | contradiction].
  - split.
    + intros [[[H1 H2]|[H1 H2]]|H].
      * left. right. split; nra.
      * left. left. split; nra.
      * right. nra.
    + intros [[[H1 H2]|[H1 H2]]|H].
      * left. right. split; nra.
      * left. left. split; nra.
      * right. rewrite H. lra.
  - split.
    + intros [[[H1 H2]|[H1 H2]]|H].
      * left. left. split; nra.
      * left. right. split; nra.
      * right. nra.
    + intros [[[H1 H2]|[H1 H2]]|H].
      * left. left. split; nra.
      * left. right. split; nra.
      * right. rewrite H. lra.
Qed.

Lemma zero_crossings_affine (k c : Q) (x : list Q) :
  ~ k == 0 -> zero_crossings (map (fun v => k * v + c) x) = zero_crossings x.
Proof.
  intros Hk. destruct x as [|a0 t0] eqn:Ex; [reflexivity|]. rewrite <- Ex.
  assert (Hx : x <> []) by (rewrite Ex; discriminate).
  rewrite !zero_crossings_adjacent, count_adjacent_map.
  apply count_adjacent_ext. intros a b.
  apply crossing_affine; [exact Hk | apply mean_affine; exact Hx].
Qed.

(** X1.  The count is never negative and never exceeds the number of
    adjacent pairs: [0 <= zero_crossings x <= max(len(x) - 1, 0)]. *)
Theorem zero_crossings_bounds (x : list Q) :
  (0 <= zero_crossings x <= Z.of_nat (length x - 1))%Z.
Proof.
  rewrite zero_crossings_adjacent, Nat.sub_1_r. apply count_adjacent_bounds.
Qed.

(** X2.  In exact arithmetic the count does not depend on the level or the
    unit of the signal: for [k <> 0], [zero_crossings] of [k * x + c] is
    that of [x].  In particular it is the same for [x] and [-x].  (On
    floats the rounding of the mean can break this.) *)
Theorem zero_crossings_level_and_unit (k c : Q) (x : list Q) :
  ~ k == 0 -> zero_crossings (map (fun v => k * v + c) x) = zero_crossings x.
Proof. apply zero_crossings_affine. Qed.

Lemma zero_crossings_level_and_unit_witness :
  zero_crossings (map (fun v => - (2) * v + 7) [1; 3; 2; 5])
  = zero_crossings [1; 3; 2; 5].
Proof.
  apply (zero_crossings_level_and_unit (- (2)) 7 [1; 3; 2; 5]).
  intros H. discriminate H.
Defined.

(** X3.  In exact arithmetic a flat signal counts at every position but the
    last: if all the values of a non-empty [x] are equal,
    [zero_crossings x = len(x) - 1], the largest count there is, since
    every value equals the mean.  (On floats the rounded mean of a flat
    signal need not be its value.) *)
Theorem zero_crossings_flat (v : Q) (x : list Q) :
  x <> [] -> Forall (fun a => a == v) x ->
  zero_crossings x = (Z.of_nat (length x) - 1)%Z.
Proof.
  intros Hx Hall. rewrite zero_crossings_adjacent.
  assert (Hm : mean x == v).
  { unfold mean. rewrite np_sum_fold_right.
    assert (Hs : fold_right Qplus 0 x == inject_Z (Z.of_nat (length x)) * v).
    { clear Hx. induction Hall as [|a t Ha _ IH];
        [cbn [fold_right length Z.of_nat]; change (inject_Z 0) with 0; lra|].
      cbn [fold_right length]. rewrite IH, Ha, Nat2Z.inj_succ.
      unfold Z.succ. rewrite inject_Z_plus. change (inject_Z 1) with 1. lra. }
    rewrite Hs. field. destruct x as [|a t]; [congruence|]. cbn [length].
    change 0 with (inject_Z 0). rewrite inject_Z_injective. lia. }
  rewrite count_adjacent_all.
  - destruct x; [congruence | cbn [length pred]; lia].
  - intros a b Ha _. rewrite Forall_forall in Hall. specialize (Hall a Ha).
    unfold crossing. apply orb_true_iff. right. apply Qeq_bool_iff.
    rewrite Hall, Hm. reflexivity.
Qed.

Lemma zero_crossings_flat_witness : zero_crossings [3; 3; 3; 3] = 3%Z.
Proof.
  apply (zero_crossings_flat 3 [3; 3; 3; 3]).
  - discriminate.
  - repeat constructor.
Defined.

(** ** calculate_half_life: when it raises *)

(** X4.  [calculate_half_life] raises IndexError on an empty array, before
    any library is called.  On a non-empty array it raises only what the fit
    raises, or IndexError when the fit has fewer than two parameters: no
    value of the array, and no sign or size of the fitted coefficient, makes
    it raise. *)
Theorem calculate_half_life_raises (B : Backend) (z : list Q) (e : exn) :
  calculate_half_life [] = Raise IndexError
  /\ (z <> [] ->
      (calculate_half_life z = Raise e
       <-> half_life_fit z = Raise e
           \/ (e = IndexError
               /\ exists res, half_life_fit z = Ok res /\ (length res < 2)%nat))).
Proof.
  split; [reflexivity|]. intros _. unfold calculate_half_life.
  destruct (half_life_fit z) as [res|e'] eqn:Ef; cbn [bind].
  - unfold at_position. destruct (nth_error res 1) as [lam|] eqn:En; cbn [bind].
    + split; [discriminate|]. intros [H|[_ [res' [Hres Hlen]]]]; [discriminate|].
      inversion Hres; subst res'.
      assert (nth_error res 1 = None) by (apply nth_error_None; lia). congruence.
    + apply nth_error_None in En. split.
      * intros H. inversion H; subst e. right. split; [reflexivity|].
        exists res. split; [reflexivity | lia].
      * intros [H|[-> _]]; [discriminate | reflexivity].
  - split.
    + intros H. inversion H; subst. left. reflexivity.
    + intros [H|[_ [res [Hres _]]]]; [inversion H; reflexivity | discriminate].
Qed.

(** ** The record of a regression direction *)

Lemma column_name (f : frame) (key : string) (s : series) :
  column f key = Ok s -> name s = key /\ In s f.
Proof.
  unfold column. destruct (find _ f) as [s'|] eqn:E; [| discriminate].
  intros H. inversion H; subst s'. apply find_some in E. destruct E as [Hin Heq].
  apply String.eqb_eq in Heq. split; assumption.
Qed.

Lemma column_present (f : frame) (s : series) :
  In s f -> exists s', column f (name s) = Ok s'.
Proof.
  intros Hin. unfold column.
  destruct (find (fun c => String.eqb (name c) (name s)) f) as [s'|] eqn:E.
  - exists s'. reflexivity.
  - apply (find_none _ _ E) in Hin. rewrite String.eqb_refl in Hin. discriminate.
Qed.

Lemma direction_record (B : Backend) (S1 S2 : series) (s : coint) :
  direction S1 S2 = Ok s ->
  name (X_train s) = name S1
  /\ Y_train s = S2
  /\ X_test s = None /\ Y_test s = None
  /\ spread s = subtract (values (Y_train s)) (scale (coint_coef s) (values (X_train s)))
  /\ zero_cross s = zero_crossings (spread s)
  /\ hurst (Indexed (spread s)) = Ok (hurst_exponent s)
  /\ adfuller (spread s)
     = Ok {| adf_stat := t_statistic s;
             adf_pvalue := p_value s;
             adf_critical := critical_val s |}.
Proof.
  unfold direction, hedge. intros H.
  destruct (ols_fit (values S2) (add_constant S1)) as [res|]; cbn [bind] in H;
    [| discriminate].
  destruct (column (add_constant S1) (name S1)) as [S1'|] eqn:Ecol; cbn [bind] in H;
    [| discriminate].
  destruct (coefficient res (name S1')) as [b|]; cbn [bind] in H; [| discriminate].
  unfold check_for_stationarity in H.
  destruct (adfuller _) as [[t p cv]|] eqn:Eadf; cbn [bind] in H; [| discriminate].
  destruct (calculate_half_life _) as [hl|]; cbn [bind] in H; [| discriminate].
  destruct (hurst _) as [h|] eqn:Eh; cbn [bind] in H; [| discriminate].
  destruct (int_round hl) as [n|]; cbn [bind] in H; [| discriminate].
  inversion H; subst s; cbn. apply column_name in Ecol.
  repeat split; try reflexivity; try tauto; assumption.
Qed.

(** X5.  Every record that [check_for_cointegration] returns is consistent
    with itself: its spread is [Y_train - coint_coef * X_train],
    [zero_cross] and [hurst_exponent] are the diagnostics of that spread, and
    the t-statistic, p-value and critical values are those of the unit-root
    test on that spread. *)
Theorem check_for_cointegration_record (B : Backend)
  (train_series test_series : series * series) (r : coint) :
  check_for_cointegration train_series test_series = Ok r ->
  spread r = subtract (values (Y_train r)) (scale (coint_coef r) (values (X_train r)))
  /\ zero_cross r = zero_crossings (spread r)
  /\ hurst (Indexed (spread r)) = Ok (hurst_exponent r)
  /\ adfuller (spread r)
     = Ok {| adf_stat := t_statistic r;
             adf_pvalue := p_value r;
             adf_critical := critical_val r |}.
Proof.
  unfold check_for_cointegration. intros H.
  destruct (direction (fst train_series) (snd train_series)) as [s0|] eqn:E0;
    cbn [bind] in H; [| discriminate].
  destruct (direction (snd train_series) (fst train_series)) as [s1|] eqn:E1;
    cbn [bind] in H; [| discriminate].
  inversion H; subst r. unfold select.
  apply direction_record in E0, E1.
  destruct (Qlt_bool _ _); cbn [set_tests spread Y_train X_train coint_coef zero_cross
                                 hurst_exponent t_statistic p_value critical_val];
    tauto.
Qed.

Lemma check_for_cointegration_record_witness :
  exists r,
    @check_for_cointegration Example.untied (Example.A, Example.B)
      (Example.A_test, Example.B_test) = Ok r
    /\ zero_cross r = zero_crossings (spread r).
Proof.
  destruct (@check_for_cointegration Example.untied (Example.A, Example.B)
              (Example.A_test, Example.B_test)) as [r|] eqn:E;
    [| vm_compute in E; discriminate].
  exists r. split; [reflexivity|].
  apply (@check_for_cointegration_record Example.untied _ _ r E).
Defined.

Lemma check_for_cointegration_sides (B : Backend) (X Y X_t Y_t : series) (r : coint) :
  check_for_cointegration (X, Y) (X_t, Y_t) = Ok r ->
  (name (X_train r) = name X /\ Y_train r = Y
   /\ X_test r = Some X_t /\ Y_test r = Some Y_t)
  \/ (name (X_train r) = name Y /\ Y_train r = X
      /\ X_test r = Some Y_t /\ Y_test r = Some X_t).
Proof.
  unfold check_for_cointegration. cbn [fst snd]. intros H.
  destruct (direction X Y) as [s0|] eqn:E0; cbn [bind] in H; [| discriminate].
  destruct (direction Y X) as [s1|] eqn:E1; cbn [bind] in H; [| discriminate].
  inversion H; subst r. unfold select.
  apply direction_record in E0, E1.
  destruct (Qlt_bool _ _); cbn [set_tests X_train Y_train X_test Y_test fst snd];
    [left | right]; tauto.
Qed.

Lemma direction_regressor (B : Backend) (S1 S2 : series) (s : coint) :
  direction S1 S2 = Ok s -> column (add_constant S1) (name S1) = Ok (X_train s).
Proof.
  unfold direction, hedge. intros H.
  destruct (ols_fit (values S2) (add_constant S1)) as [res|]; cbn [bind] in H;
    [| discriminate].
  destruct (column (add_constant S1) (name S1)) as [S1'|] eqn:Ecol; cbn [bind] in H;
    [| discriminate].
  destruct (coefficient res (name S1')) as [b|]; cbn [bind] in H; [| discriminate].
  destruct (check_for_stationarity _) as [stats|]; cbn [bind] in H; [| discriminate].
  destruct (calculate_half_life _) as [hl|]; cbn [bind] in H; [| discriminate].
  destruct (hurst _) as [h|]; cbn [bind] in H; [| discriminate].
  destruct (int_round hl) as [n|]; cbn [bind] in H; [| discriminate].
  inversion H; subst s; reflexivity.
Qed.

(** X6.  The record returned for [(X, Y)] with test slices [(X_t, Y_t)] is
    one of the two regressions, and its test slices follow its direction:
    either [Y_train] is [Y], [X_train] is the column that [add_constant(X)]
    holds under the name of [X], [X_test] is [X_t] and [Y_test] is [Y_t], or
    all four are swapped.  When [add_constant] keeps a series as the column
    of its name, [X_train] is [X] itself (or [Y] itself).  A test slice is
    never attached to the other series' side. *)
Theorem check_for_cointegration_test_slices_follow (B : Backend)
  (X Y X_t Y_t : series) (r : coint) :
  check_for_cointegration (X, Y) (X_t, Y_t) = Ok r ->
  ((name (X_train r) = name X
    /\ column (add_constant X) (name X) = Ok (X_train r)
    /\ Y_train r = Y
    /\ X_test r = Some X_t /\ Y_test r = Some Y_t)
   \/ (name (X_train r) = name Y
       /\ column (add_constant Y) (name Y) = Ok (X_train r)
       /\ Y_train r = X
       /\ X_test r = Some Y_t /\ Y_test r = Some X_t))
  /\ (column (add_constant X) (name X) = Ok X ->
      column (add_constant Y) (name Y) = Ok Y ->
      (X_train r = X /\ Y_train r = Y
       /\ X_test r = Some X_t /\ Y_test r = Some Y_t)
      \/ (X_train r = Y /\ Y_train r = X
          /\ X_test r = Some Y_t /\ Y_test r = Some X_t)).
Proof.
  unfold check_for_cointegration. cbn [fst snd]. intros H.
  destruct (direction X Y) as [s0|] eqn:E0; cbn [bind] in H; [| discriminate].
  destruct (direction Y X) as [s1|] eqn:E1; cbn [bind] in H; [| discriminate].
  inversion H; subst r. unfold select.
  pose proof (direction_regressor _ _ _ _ E0) as C0.
  pose proof (direction_regressor _ _ _ _ E1) as C1.
  apply direction_record in E0, E1.
  destruct (Qlt_bool _ _); cbn [set_tests X_train Y_train X_test Y_test fst snd].
  - split; [left; tauto|]. intros HX _. left.
    rewrite HX in C0. injection C0 as <-. tauto.
  - split; [right; tauto|]. intros _ HY. right.
    rewrite HY in C1. injection C1 as <-. tauto.
Qed.

Lemma check_for_cointegration_test_slices_follow_witness :
  exists r,
    @check_for_cointegration Example.tied (Example.A, Example.B)
      (Example.A_test, Example.B_test) = Ok r
    /\ ((X_train r = Example.A /\ Y_train r = Example.B
         /\ X_test r = Some Example.A_test /\ Y_test r = Some Example.B_test)
        \/ (X_train r = Example.B /\ Y_train r = Example.A
            /\ X_test r = Some Example.B_test /\ Y_test r = Some Example.A_test)).
Proof.
  destruct (@check_for_cointegration Example.tied (Example.A, Example.B)
              (Example.A_test, Example.B_test)) as [r|] eqn:E;
    [| vm_compute in E; discriminate].
  exists r. split; [reflexivity|].
  apply (proj2 (@check_for_cointegration_test_slices_follow Example.tied _ _ _ _ r E));
    reflexivity.
Defined.

(** ** find_pairs: what it returns and when it cannot *)

Lemma evaluate_parts (B : Backend) (data_train data_test : frame) (i j : nat)
  (c : candidate) :
  evaluate data_train data_test (i, j) = Ok c ->
  exists S1 S2 T1 T2,
    nth_error (map name data_train) i = Some (fst (fst c))
    /\ nth_error (map name data_train) j = Some (snd (fst c))
    /\ column data_train (fst (fst c)) = Ok S1
    /\ column data_train (snd (fst c)) = Ok S2
    /\ column data_test (fst (fst c)) = Ok T1
    /\ column data_test (snd (fst c)) = Ok T2
    /\ check_for_cointegration (S1, S2) (T1, T2) = Ok (snd c).
Proof.
  unfold evaluate, at_position. cbn [fst snd]. intros H.
  destruct (nth_error (map name data_train) i) as [k1|] eqn:E1; cbn [bind] in H;
    [| discriminate].
  destruct (nth_error (map name data_train) j) as [k2|] eqn:E2; cbn [bind] in H;
    [| discriminate].
  destruct (column data_train k1) as [S1|] eqn:C1; cbn [bind] in H; [| discriminate].
  destruct (column data_train k2) as [S2|] eqn:C2; cbn [bind] in H; [| discriminate].
  destruct (column data_test k1) as [T1|] eqn:C3; cbn [bind] in H; [| discriminate].
  destruct (column data_test k2) as [T2|] eqn:C4; cbn [bind] in H; [| discriminate].
  destruct (check_for_cointegration (S1, S2) (T1, T2)) as [r|] eqn:Er; cbn [bind] in H;
    [| discriminate].
  inversion H; subst c. cbn [fst snd]. exists S1, S2, T1, T2. tauto.
Qed.

Lemma found_visited (B : Backend) (data_train data_test : frame) (th : thresholds)
  (found : list candidate) (c : candidate) :
  find_pairs data_train data_test th = Ok found -> In c found ->
  exists i j,
    (i < j < length data_train)%nat
    /\ evaluate data_train data_test (i, j) = Ok c
    /\ run_filters (train_filters th (snd c)) = Ok true.
Proof.
  intros Hfound Hin. rewrite find_pairs_selects in Hfound.
  destruct (select_in_order_In _ _ _ _ Hfound Hin) as [[i j] [Hij Hv]].
  exists i, j. split; [apply index_pairs_spec; exact Hij|].
  unfold visit in Hv.
  destruct (evaluate data_train data_test (i, j)) as [c'|]; cbn [bind] in Hv;
    [| discriminate].
  destruct (run_filters (train_filters th (snd c'))) as [[|]|] eqn:Er; cbn [bind] in Hv;
    inversion Hv; subst c'. split; [reflexivity | exact Er].
Qed.

(** X7.  With fewer than two columns there is no pair to form: [find_pairs]
    returns the empty list, whatever the test panel holds and without
    calling any library. *)
Theorem find_pairs_needs_two_columns (B : Backend) (data_train data_test : frame)
  (th : thresholds) :
  (length data_train < 2)%nat -> find_pairs data_train data_test th = Ok [].
Proof.
  intros H. destruct data_train as [|c [|c' rest]]; [reflexivity | reflexivity |].
  cbn [length] in H. lia.
Qed.

Lemma find_pairs_needs_two_columns_witness :
  @find_pairs Example.tied [Example.A] [] Example.defaults = Ok [].
Proof.
  apply (@find_pairs_needs_two_columns Example.tied [Example.A] [] Example.defaults).
  cbn [length]. lia.
Defined.

Lemma evaluate_missing_test_column (B : Backend) (data_train data_test : frame)
  (i j : nat) (ci cj : series) :
  nth_error data_train i = Some ci -> nth_error data_train j = Some cj ->
  column data_test (name ci) = Raise KeyError
  \/ column data_test (name cj) = Raise KeyError ->
  raises (evaluate data_train data_test (i, j)).
Proof.
  intros Hi Hj Hmiss. unfold evaluate, at_position. cbn [fst snd].
  rewrite (map_nth_error name _ _ Hi), (map_nth_error name _ _ Hj). cbn [bind].
  destruct (column_present data_train ci (nth_error_In _ _ Hi)) as [S1 ->].
  destruct (column_present data_train cj (nth_error_In _ _ Hj)) as [S2 ->].
  cbn [bind].
  destruct (column data_test (name ci)) as [T1|e1] eqn:E1; cbn [bind];
    [| exists e1; reflexivity].
  destruct Hmiss as [Hm|Hm]; [discriminate|].
  rewrite Hm. cbn [bind]. exists KeyError. reflexivity.
Qed.

(** X8.  [find_pairs] cannot return unless the test panel has every symbol
    of the train panel: with at least two train columns, if the test panel
    has no column named like one of them, the call raises (KeyError at the
    first pair that reaches the missing symbol, if nothing raised before). *)
Theorem find_pairs_needs_every_test_column (B : Backend)
  (data_train data_test : frame) (th : thresholds) (c : series) :
  (2 <= length data_train)%nat -> In c data_train ->
  column data_test (name c) = Raise KeyError ->
  raises (find_pairs data_train data_test th).
Proof.
  intros Hn Hin Hmiss.
  destruct (find_pairs data_train data_test th) as [found|e] eqn:Ef;
    [| exists e; reflexivity].
  exfalso.
  assert (Hall : Forall (fun ij => returns (visit data_train data_test th ij))
                        (index_pairs (length data_train))).
  { apply select_in_order_returns. rewrite <- find_pairs_selects, Ef.
    eexists. reflexivity. }
  rewrite Forall_forall in Hall.
  apply In_nth_error in Hin. destruct Hin as [i Hi].
  assert (Hlt : (i < length data_train)%nat) by (apply nth_error_Some; congruence).
  assert (Hpair : exists a b ca cb,
             (a < b < length data_train)%nat
             /\ nth_error data_train a = Some ca /\ nth_error data_train b = Some cb
             /\ (column data_test (name ca) = Raise KeyError
                 \/ column data_test (name cb) = Raise KeyError)).
  { destruct i as [|i'].
    - destruct (nth_error data_train 1) as [c1|] eqn:E1.
      + exists 0%nat, 1%nat, c, c1. repeat split; try assumption; try lia. left. exact Hmiss.
      + apply nth_error_None in E1. lia.
    - destruct (nth_error data_train 0) as [c0|] eqn:E0.
      + exists 0%nat, (S i'), c0, c. repeat split; try assumption; try lia.
        right. exact Hmiss.
      + apply nth_error_None in E0. lia. }
  destruct Hpair as [a [b [ca [cb [Hab [Ha [Hb Hm]]]]]]].
  specialize (Hall (a, b) (proj2 (index_pairs_spec _ a b) Hab)).
  destruct (evaluate_missing_test_column _ _ _ _ _ _ _ Ha Hb Hm) as [e He].
  destruct Hall as [o Ho]. unfold visit in Ho. rewrite He in Ho. discriminate.
Qed.

Lemma find_pairs_needs_every_test_column_witness :
  raises (@find_pairs Example.tied [Example.A; Example.B] [Example.A_test]
            Example.loose).
Proof.
  apply (@find_pairs_needs_every_test_column Example.tied
           [Example.A; Example.B] [Example.A_test] Example.loose Example.B).
  - cbn [length]. lia.
  - right. left. reflexivity.
  - reflexivity.
Defined.

Lemma four_filter_true (th : thresholds) (p : Q) (hl : fval) (zc : Z) (h : fval) :
  four_filter th p hl zc h = true
  <-> p < p_value_threshold th
      /\ fge hl (min_half_life th) = true
      /\ min_zero_crossings th <= inject_Z zc
      /\ flt h (hurst_threshold th) = true.
Proof.
  unfold four_filter. rewrite !andb_true_iff, Qlt_bool_iff, Qle_bool_iff. tauto.
Qed.

(** X9.  Every candidate that [find_pairs] returns meets the four
    thresholds on its own record: its p-value is below the threshold, its
    count of zero crossings is at least the floor, its Hurst exponent is
    below the ceiling (so it is not [nan]), and the half-life of its spread
    is finite and at least the floor. *)
Theorem find_pairs_candidates_meet_thresholds (B : Backend)
  (data_train data_test : frame) (th : thresholds)
  (found : list candidate) (c : candidate) :
  find_pairs data_train data_test th = Ok found -> In c found ->
  p_value (snd c) < p_value_threshold th
  /\ min_zero_crossings th <= inject_Z (zero_cross (snd c))
  /\ flt (hurst_exponent (snd c)) (hurst_threshold th) = true
  /\ hurst_exponent (snd c) <> NaN
  /\ exists q, calculate_half_life (spread (snd c)) = Ok (Fin q)
               /\ min_half_life th <= q.
Proof.
  intros Hfound Hin.
  destruct (found_visited _ _ _ _ _ _ Hfound Hin) as [i [j [_ [Hev Hrun]]]].
  destruct (evaluate_half_life _ _ _ _ _ Hev) as [q [Hq _]].
  rewrite (train_filters_four _ _ _ _ Hq) in Hrun. injection Hrun as Hf.
  apply four_filter_true in Hf. destruct Hf as [Hp [Hhl [Hzc Hh]]].
  split; [exact Hp|]. split; [exact Hzc|]. split; [exact Hh|]. split.
  - intros Hnan. rewrite Hnan in Hh. discriminate.
  - exists q. split; [exact Hq | apply Qle_bool_iff; exact Hhl].
Qed.

Lemma find_pairs_candidates_meet_thresholds_witness :
  Forall (fun c => p_value (snd c) < p_value_threshold Example.loose) Example.found.
Proof.
  apply Forall_forall. intros c Hin.
  apply (@find_pairs_candidates_meet_thresholds Example.tied
           [Example.A; Example.B] [Example.A_test; Example.B_test]
           Example.loose Example.found c); [vm_compute; reflexivity | exact Hin].
Defined.

(** X10.  A candidate [(k1, k2, r)] returned by [find_pairs] carries the
    names of two train columns, [k1] before [k2] in column order; the two
    training series of its record are the columns of these names, one way
    round or the other; and its test slices are set, each being the
    test-panel column of the same name as the training series on its side.
    So [pairs_overlap] finds both test slices in every candidate that
    [find_pairs] returns. *)
Theorem find_pairs_candidates_well_formed (B : Backend)
  (data_train data_test : frame) (th : thresholds)
  (found : list candidate) (k1 k2 : string) (r : coint) :
  find_pairs data_train data_test th = Ok found -> In (k1, k2, r) found ->
  (exists i j,
      (i < j < length data_train)%nat
      /\ nth_error (map name data_train) i = Some k1
      /\ nth_error (map name data_train) j = Some k2)
  /\ ((name (X_train r) = k1 /\ name (Y_train r) = k2)
      \/ (name (X_train r) = k2 /\ name (Y_train r) = k1))
  /\ exists X Y,
       X_test r = Some X /\ Y_test r = Some Y
       /\ column data_test (name (X_train r)) = Ok X
       /\ column data_test (name (Y_train r)) = Ok Y.
Proof.
  intros Hfound Hin.
  destruct (found_visited _ _ _ _ _ _ Hfound Hin) as [i [j [Hij [Hev _]]]].
  destruct (evaluate_parts _ _ _ _ _ _ Hev)
    as [S1 [S2 [T1 [T2 [Hk1 [Hk2 [C1 [C2 [C3 [C4 Hr]]]]]]]]]].
  cbn [fst snd] in *.
  split; [exists i, j; tauto|].
  apply column_name in C1, C2. destruct C1 as [N1 _]. destruct C2 as [N2 _].
  destruct (check_for_cointegration_sides _ _ _ _ _ _ Hr)
    as [[HX [HY [HXt HYt]]]|[HX [HY [HXt HYt]]]].
  - rewrite HX, HY, N1, N2. split; [left; tauto|]. exists T1, T2. tauto.
  - rewrite HX, HY, N1, N2. split; [right; tauto|]. exists T2, T1. tauto.
Qed.

Lemma find_pairs_candidates_well_formed_witness :
  Forall (fun c => exists X Y,
              X_test (snd c) = Some X /\ Y_test (snd c) = Some Y
              /\ column [Example.A_test; Example.B_test] (name (X_train (snd c))) = Ok X
              /\ column [Example.A_test; Example.B_test] (name (Y_train (snd c))) = Ok Y)
         Example.found.
Proof.
  apply Forall_forall. intros [[k1 k2] r] Hin.
  apply (@find_pairs_candidates_well_formed Example.tied
           [Example.A; Example.B] [Example.A_test; Example.B_test]
           Example.loose Example.found k1 k2 r); [vm_compute; reflexivity | exact Hin].
Defined.

(** ** Stricter thresholds *)

Lemma four_filter_stricter (th th' : thresholds) (p q : Q) (zc : Z) (h : fval) :
  stricter th th' ->
  four_filter th p (Fin q) zc h = true -> four_filter th' p (Fin q) zc h = true.
Proof.
  intros [Hp [Hhl [Hzc Hh]]]. rewrite !four_filter_true. cbn [fge].
  rewrite !Qle_bool_iff. intros [H1 [H2 [H3 H4]]].
  repeat split; try lra.
  destruct h as [v|neg|]; cbn [flt] in *; [| exact H4 | exact H4].
  apply Qlt_bool_iff. apply Qlt_bool_iff in H4. lra.
Qed.

Lemma keeps_four (B : Backend) (th : thresholds) (c : candidate) (q : Q) :
  calculate_half_life (spread (snd c)) = Ok (Fin q) ->
  keeps th c
  = four_filter th (p_value (snd c)) (Fin q) (zero_cross (snd c))
      (hurst_exponent (snd c)).
Proof.
  intros Hq. unfold keeps. rewrite (train_filters_four _ th _ _ Hq).
  destruct (four_filter th (p_value (snd c)) (Fin q) (zero_cross (snd c))
              (hurst_exponent (snd c))); reflexivity.
Qed.

Lemma select_stricter (B : Backend) (data_train data_test : frame)
  (th th' : thresholds) (xs : list (nat * nat)) (l' : list candidate) :
  stricter th th' ->
  select_in_order (visit data_train data_test th') xs = Ok l' ->
  select_in_order (visit data_train data_test th) xs = Ok (filter (keeps th) l').
Proof.
  intros Hs. revert l'. induction xs as [|x xs IH]; intros l' H.
  - inversion H. reflexivity.
  - cbn [select_in_order] in *. unfold visit at 1 in H. unfold visit at 1.
    destruct (evaluate data_train data_test x) as [c|] eqn:Ec; cbn [bind] in *;
      [| discriminate].
    destruct (evaluate_half_life _ _ _ _ _ Ec) as [q [Hq _]].
    rewrite (train_filters_four _ th' _ _ Hq) in H.
    rewrite (train_filters_four _ th _ _ Hq). cbn [bind] in *.
    destruct (select_in_order (visit data_train data_test th') xs) as [rest|];
      cbn [bind] in H; [| discriminate].
    rewrite (IH rest eq_refl). cbn [bind].
    pose proof (keeps_four _ th c q Hq) as Hk.
    destruct (four_filter th (p_value (snd c)) (Fin q) (zero_cross (snd c))
                (hurst_exponent (snd c))) eqn:Ef.
    + rewrite (four_filter_stricter _ _ _ _ _ _ Hs Ef) in H.
      inversion H; subst l'. cbn [filter]. rewrite Hk. reflexivity.
    + destruct (four_filter th' _ _ _ _); inversion H; subst l'; [| reflexivity].
      cbn [filter]. rewrite Hk. reflexivity.
Qed.

(** X11.  Tightening the thresholds only removes candidates: if
    [find_pairs] returns [found] at thresholds [th'], then at thresholds
    [th] that are at least as strict on all four it returns, in the same
    order, exactly the candidates of [found] that the four filters keep at
    [th]. *)
Theorem find_pairs_stricter_thresholds (B : Backend)
  (data_train data_test : frame) (th th' : thresholds) (found : list candidate) :
  stricter th th' ->
  find_pairs data_train data_test th' = Ok found ->
  find_pairs data_train data_test th = Ok (filter (keeps th) found).
Proof.
  intros Hs H. rewrite find_pairs_selects in *.
  apply (select_stricter _ _ _ _ _ _ _ Hs H).
Qed.

Lemma find_pairs_stricter_thresholds_witness :
  @find_pairs Example.untied [Example.P; Example.R] [Example.P; Example.R]
     Example.defaults = Ok [].
Proof.
  apply (@find_pairs_stricter_thresholds Example.untied
           [Example.P; Example.R] [Example.P; Example.R]
           Example.defaults Example.floor_one Example.slow).
  - unfold stricter. cbn. repeat split; discriminate.
  - vm_compute. reflexivity.
Defined.

(** ** How many pairs *)

Lemma rows_length (n a m : nat) :
  (a + m = n)%nat ->
  (2 * length (flat_map (fun i => map (fun j => (i, j)) (range (i + 1) n)) (seq a m))
   = m * (m - 1))%nat.
Proof.
  revert a. induction m as [|m IH]; intros a Ham; [reflexivity|].
  cbn [seq flat_map]. rewrite length_app, length_map. unfold range at 1.
  rewrite length_seq. specialize (IH (S a)). nia.
Qed.

Lemma select_in_order_length {A C : Type} (f : A -> result (option C)) (xs : list A)
  (l : list C) :
  select_in_order f xs = Ok l -> (length l <= length xs)%nat.
Proof.
  revert l. induction xs as [|x xs IH]; intros l H.
  - inversion H. cbn. lia.
  - cbn [select_in_order] in H.
    destruct (f x) as [o|]; cbn [bind] in H; [| discriminate].
    destruct (select_in_order f xs) as [l'|]; cbn [bind] in H; [| discriminate].
    specialize (IH l' eq_refl). inversion H; subst l. destruct o; cbn [length]; lia.
Qed.

(** X12.  [find_pairs] examines [n (n - 1) / 2] pairs for [n] columns, and
    so returns at most that many candidates. *)
Theorem find_pairs_at_most_all_pairs (B : Backend)
  (data_train data_test : frame) (th : thresholds) (found : list candidate) :
  find_pairs data_train data_test th = Ok found ->
  (2 * length (index_pairs (length data_train))
   = length data_train * (length data_train - 1))%nat
  /\ (2 * length found <= length data_train * (length data_train - 1))%nat.
Proof.
  intros H. rewrite find_pairs_selects in H. apply select_in_order_length in H.
  assert (E : (2 * length (index_pairs (length data_train))
               = length data_train * (length data_train - 1))%nat).
  { unfold index_pairs, range at 2. rewrite Nat.sub_0_r. apply rows_length. lia. }
  split; [exact E | lia].
Qed.

Lemma find_pairs_at_most_all_pairs_witness :
  (2 * length Example.found <= 2 * (2 - 1))%nat.
Proof.
  apply (@find_pairs_at_most_all_pairs Example.tied
           [Example.A; Example.B] [Example.A_test; Example.B_test]
           Example.loose Example.found).
  vm_compute. reflexivity.
Defined.

(** ** pairs_overlap: the shape of its result *)

Lemma enumerate_fst {A : Type} (xs : list A) (a : nat) :
  map fst (combine (seq a (length xs)) xs) = seq a (length xs).
Proof.
  revert a. induction xs as [|x xs IH]; intros a; [reflexivity|].
  cbn [length seq combine map fst]. rewrite IH. reflexivity.
Qed.

Lemma enumerate_snd {A : Type} (xs : list A) (a : nat) :
  map snd (combine (seq a (length xs)) xs) = xs.
Proof.
  revert a. induction xs as [|x xs IH]; intros a; [reflexivity|].
  cbn [length seq combine map snd]. rewrite IH. reflexivity.
Qed.

Lemma StronglySorted_filter {A : Type} (R : A -> A -> Prop) (p : A -> bool)
  (l : list A) :
  StronglySorted R l -> StronglySorted R (filter p l).
Proof.
  induction 1 as [|x l Hs IH Hx]; cbn [filter]; [constructor|].
  destruct (p x); [| exact IH]. constructor; [exact IH|].
  apply Forall_forall. intros y Hy. apply filter_In in Hy.
  rewrite Forall_forall in Hx. apply Hx. tauto.
Qed.

Lemma StronglySorted_seq (a n : nat) : StronglySorted lt (seq a n).
Proof.
  revert a. induction n as [|n IH]; intros a; cbn [seq]; constructor; [apply IH|].
  apply Forall_forall. intros y Hy. apply in_seq in Hy. lia.
Qed.

Lemma StronglySorted_map_fst {A : Type} (l : list (nat * A)) :
  StronglySorted lt (map fst l) ->
  StronglySorted (fun x y => (fst x < fst y)%nat) l.
Proof.
  induction l as [|x l IH]; cbn [map]; intros H; [constructor|].
  inversion H as [|? ? Hs Hx]; subst. constructor; [apply IH; exact Hs|].
  apply Forall_forall. intros y Hy. rewrite Forall_forall in Hx.
  apply Hx. apply in_map. exact Hy.
Qed.

Lemma StronglySorted_fst_map {A : Type} (l : list (nat * A)) :
  StronglySorted (fun x y => (fst x < fst y)%nat) l ->
  StronglySorted lt (map fst l).
Proof.
  induction 1 as [|x l Hs IH Hx]; cbn [map]; constructor; [exact IH|].
  apply Forall_forall. intros y Hy. apply in_map_iff in Hy.
  destruct Hy as [z [<- Hz]]. rewrite Forall_forall in Hx. apply Hx. exact Hz.
Qed.

Lemma kept_positions {A : Type} (xs : list A) (l : list (nat * A)) :
  (forall ic, In ic l -> nth_error xs (fst ic) = Some (snd ic)) ->
  map (nth_error xs) (map fst l) = map Some (map snd l).
Proof.
  induction l as [|ic l IH]; intros H; [reflexivity|].
  cbn [map]. rewrite (H ic) by (left; reflexivity).
  rewrite IH by (intros; apply H; right; assumption). reflexivity.
Qed.

Lemma pairs_overlap_result (B : Backend) (pairs : list candidate) (th : thresholds)
  (ps : list candidate) (idx : list nat) :
  pairs_overlap pairs th = Ok (ps, idx) ->
  exists flags,
    map_result (valid_out_of_sample th) pairs = Ok flags
    /\ ps = map snd (filter (fun ic => nth (fst ic) flags false) (enumerate pairs))
    /\ idx = map fst (filter (fun ic => nth (fst ic) flags false) (enumerate pairs)).
Proof.
  rewrite pairs_overlap_by_flags.
  destruct (map_result (valid_out_of_sample th) pairs) as [flags|]; cbn [bind];
    [| discriminate].
  intros H. inversion H. exists flags. repeat split.
Qed.

Lemma kept_valid (B : Backend) (pairs : list candidate) (th : thresholds)
  (flags : list bool) (i : nat) (c : candidate) :
  map_result (valid_out_of_sample th) pairs = Ok flags ->
  In (i, c) (filter (fun ic => nth (fst ic) flags false) (enumerate pairs)) ->
  nth_error pairs i = Some c /\ valid_out_of_sample th c = Ok true.
Proof.
  intros H Hin. apply filter_In in Hin. destruct Hin as [Hen Hf].
  unfold enumerate in Hen. apply in_enumerate in Hen. rewrite Nat.sub_0_r in Hen.
  destruct Hen as [_ Hn]. cbn [fst] in Hf.
  destruct (map_result_nth _ _ _ _ _ H Hn) as [f [Hfi Hv]].
  rewrite (nth_error_nth _ _ _ Hfi) in Hf. subst f. split; assumption.
Qed.

(** X13.  The two lists that [pairs_overlap] returns go together: they have
    one length, the positions are strictly increasing and inside the input
    list, the k-th candidate returned is the input candidate at the k-th
    position returned, and every candidate returned passes the re-check. *)
Theorem pairs_overlap_lists_agree (B : Backend) (pairs : list candidate)
  (th : thresholds) (ps : list candidate) (idx : list nat) :
  pairs_overlap pairs th = Ok (ps, idx) ->
  length ps = length idx
  /\ StronglySorted lt idx
  /\ Forall (fun i => (i < length pairs)%nat) idx
  /\ map (nth_error pairs) idx = map Some ps
  /\ Forall (fun c => valid_out_of_sample th c = Ok true) ps.
Proof.
  intros H. destruct (pairs_overlap_result _ _ _ _ _ H) as [flags [Hf [-> ->]]].
  split; [rewrite !length_map; reflexivity|].
  split.
  { apply StronglySorted_fst_map, StronglySorted_filter, StronglySorted_map_fst.
    unfold enumerate. rewrite enumerate_fst. apply StronglySorted_seq. }
  split.
  { apply Forall_forall. intros i Hi. apply in_map_iff in Hi.
    destruct Hi as [[i' c] [<- Hin]]. cbn [fst].
    apply (kept_valid _ _ _ _ _ _ Hf) in Hin. apply nth_error_Some. destruct Hin; congruence. }
  split.
  { apply kept_positions. intros [i c] Hin. cbn [fst snd].
    apply (kept_valid _ _ _ _ _ _ Hf Hin). }
  apply Forall_forall. intros c Hc. apply in_map_iff in Hc.
  destruct Hc as [[i c'] [<- Hin]]. cbn [snd].
  apply (kept_valid _ _ _ _ _ _ Hf Hin).
Qed.

Lemma pairs_overlap_lists_agree_witness :
  map (nth_error (Example.found ++ Example.slow)) [1%nat] = map Some Example.slow.
Proof.
  apply (@pairs_overlap_lists_agree Example.untied (Example.found ++ Example.slow)
           Example.floor_one Example.slow [1%nat]).
  vm_compute. reflexivity.
Defined.

Lemma map_result_all_true {A : Type} (f : A -> result bool) (xs : list A) :
  Forall (fun x => f x = Ok true) xs ->
  map_result f xs = Ok (repeat true (length xs)).
Proof.
  induction 1 as [|x xs Hx _ IH]; [reflexivity|].
  cbn [map_result length repeat]. rewrite Hx, IH. reflexivity.
Qed.

Lemma nth_repeat_true (n i : nat) : (i < n)%nat -> nth i (repeat true n) false = true.
Proof.
  revert i. induction n as [|n IH]; intros i Hi; [lia|].
  destruct i as [|i]; cbn [repeat nth]; [reflexivity | apply IH; lia].
Qed.

Lemma filter_all {A : Type} (p : A -> bool) (l : list A) :
  (forall x, In x l -> p x = true) -> filter p l = l.
Proof.
  induction l as [|x l IH]; intros H; [reflexivity|].
  cbn [filter]. rewrite (H x) by (left; reflexivity).
  rewrite IH by (intros; apply H; right; assumption). reflexivity.
Qed.

(** X14.  [pairs_overlap] is idempotent: run again, at the same thresholds,
    on the candidates it returned, it returns all of them, at the positions
    0, 1, ..., k-1. *)
Theorem pairs_overlap_idempotent (B : Backend) (pairs : list candidate)
  (th : thresholds) (ps : list candidate) (idx : list nat) :
  pairs_overlap pairs th = Ok (ps, idx) ->
  pairs_overlap ps th = Ok (ps, seq 0 (length ps)).
Proof.
  intros H. destruct (pairs_overlap_result _ _ _ _ _ H) as [flags [Hf [Hps _]]].
  assert (Hall : Forall (fun c => valid_out_of_sample th c = Ok true) ps).
  { subst ps. apply Forall_forall. intros c Hc. apply in_map_iff in Hc.
    destruct Hc as [[i c'] [<- Hin]]. apply (kept_valid _ _ _ _ _ _ Hf Hin). }
  rewrite pairs_overlap_by_flags, (map_result_all_true _ _ Hall). cbn [bind].
  rewrite filter_all.
  - unfold enumerate. rewrite enumerate_snd, enumerate_fst. reflexivity.
  - intros [i c] Hin. cbn [fst]. apply nth_repeat_true.
    apply in_combine_l in Hin. apply in_seq in Hin. lia.
Qed.

Lemma pairs_overlap_idempotent_witness :
  @pairs_overlap Example.untied Example.slow Example.floor_one
  = Ok (Example.slow, seq 0 (length Example.slow)).
Proof.
  apply (@pairs_overlap_idempotent Example.untied (Example.found ++ Example.slow)
           Example.floor_one Example.slow [1%nat]).
  vm_compute. reflexivity.
Defined.

(** X15.  [pairs_overlap] cannot return if a candidate of its input lacks a
    test slice: the lookup of ['X_test'] or ['Y_test'] raises KeyError when
    the loop reaches that candidate, if nothing raised before. *)
Theorem pairs_overlap_needs_test_slices (B : Backend) (pairs : list candidate)
  (th : thresholds) (c : candidate) :
  In c pairs -> X_test (snd c) = None \/ Y_test (snd c) = None ->
  valid_out_of_sample th c = Raise KeyError
  /\ raises (pairs_overlap pairs th).
Proof.
  intros Hin Hmiss.
  assert (Hv : valid_out_of_sample th c = Raise KeyError).
  { unfold valid_out_of_sample, refit.
    destruct (X_test (snd c)) as [X|]; cbn [field bind]; [| reflexivity].
    destruct Hmiss as [Hm|Hm]; [discriminate|]. rewrite Hm. reflexivity. }
  split; [exact Hv|].
  destruct (pairs_overlap pairs th) as [[ps idx]|e] eqn:E; [| exists e; reflexivity].
  exfalso. destruct (pairs_overlap_result _ _ _ _ _ E) as [flags [Hf _]].
  apply In_nth_error in Hin. destruct Hin as [i Hi].
  destruct (map_result_nth _ _ _ _ _ Hf Hi) as [f [_ Hvf]]. congruence.
Qed.

Lemma pairs_overlap_needs_test_slices_witness :
  raises (@pairs_overlap Example.tied
            [("A"%string, "B"%string,
              {| t_statistic := 0; critical_val := Lab.critical_values;
                 p_value := 0; coint_coef := 0; zero_cross := 0%Z;
                 half_life := 0%Z; hurst_exponent := NaN; spread := [];
                 Y_train := Example.A; X_train := Example.B;
                 X_test := Some Example.B_test; Y_test := None |})]
            Example.loose).
Proof.
  eapply (fun c Hin Hm =>
            proj2 (@pairs_overlap_needs_test_slices Example.tied _ Example.loose
                     c Hin Hm)).
  - left. reflexivity.
  - right. reflexivity.
Defined.

(** ** variance_ratio *)

Lemma sum_map_Qeq {A : Type} (f g : A -> Q) (l : list A) :
  (forall v, In v l -> f v == g v) ->
  fold_right Qplus 0 (map f l) == fold_right Qplus 0 (map g l).
Proof.
  induction l as [|a l IH]; intros H; [reflexivity|].
  cbn [map fold_right]. rewrite (H a) by (left; reflexivity).
  rewrite IH by (intros; apply H; right; assumption). reflexivity.
Qed.

Lemma square_sum_fold (f : Q -> Q) (d : list Q) :
  square_sum (map f d) == fold_right Qplus 0 (map (fun v => f v * f v) d).
Proof. unfold square_sum. rewrite np_sum_fold_right, map_map. reflexivity. Qed.

Lemma squares_nonneg {A : Type} (f : A -> Q) (l : list A) :
  0 <= fold_right Qplus 0 (map (fun v => f v * f v) l).
Proof.
  induction l as [|a l IH]; cbn [map fold_right]; [lra|]. nra.
Qed.

Lemma squares_zero {A : Type} (f : A -> Q) (l : list A) :
  fold_right Qplus 0 (map (fun v => f v * f v) l) == 0 ->
  forall v, In v l -> f v == 0.
Proof.
  induction l as [|a l IH]; cbn [map fold_right]; intros H v Hv; [destruct Hv|].
  pose proof (squares_nonneg f l) as Hl.
  destruct Hv as [->|Hv].
  - nra.
  - apply IH; [nra | exact Hv].
Qed.

Lemma sum_constant {A : Type} (f : A -> Q) (c : Q) (l : list A) :
  (forall v, In v l -> f v == c) ->
  fold_right Qplus 0 (map f l) == inject_Z (Z.of_nat (length l)) * c.
Proof.
  induction l as [|a l IH]; intros H.
  - cbn [map fold_right length Z.of_nat]. change (inject_Z 0) with 0. lra.
  - cbn [map fold_right length]. rewrite (H a) by (left; reflexivity).
    rewrite IH by (intros; apply H; right; assumption).
    rewrite Nat2Z.inj_succ. unfold Z.succ. rewrite inject_Z_plus.
    change (inject_Z 1) with 1. lra.
Qed.

Lemma first_difference_slices (ts : list Q) :
  subtract (slice_from 1 ts) (firstn (length ts - 1) ts) = first_difference ts.
Proof. apply (lagged_slices 1 ts). Qed.

Lemma first_difference_length (ts : list Q) :
  length (first_difference ts) = (length ts - 1)%nat.
Proof. unfold first_difference. rewrite length_map, length_seq. reflexivity. Qed.

(** The variance of the increments about [mu = sum / n] vanishes only for a
    constant series. *)
Lemma increments_spread (ts : list Q) :
  (2 <= length ts)%nat ->
  ~ Forall (fun d => d == 0) (first_difference ts) ->
  0 < fold_right Qplus 0
        (map (fun v => (v - np_sum (first_difference ts)
                              / inject_Z (Z.of_nat (length ts)))
                       * (v - np_sum (first_difference ts)
                              / inject_Z (Z.of_nat (length ts))))
             (first_difference ts)).
Proof.
  intros Hn Hnc.
  set (d := first_difference ts) in *.
  set (mu := np_sum d / inject_Z (Z.of_nat (length ts))).
  pose proof (squares_nonneg (fun v => v - mu) d) as Hge. cbv beta in Hge.
  destruct (Qlt_le_dec 0 (fold_right Qplus 0 (map (fun v => (v - mu) * (v - mu)) d)))
    as [Hpos|Hle]; [exact Hpos|].
  exfalso. apply Hnc.
  assert (Hz : forall v, In v d -> v - mu == 0).
  { apply (squares_zero (fun v => v - mu)). apply Qle_antisym; assumption. }
  assert (Hsum : np_sum d == inject_Z (Z.of_nat (length d)) * mu).
  { rewrite np_sum_fold_right, <- (map_id d) at 1.
    apply (sum_constant (fun v => v)). intros v Hv. specialize (Hz v Hv). lra. }
  assert (Hlen : length d = (length ts - 1)%nat) by apply first_difference_length.
  assert (Hnq : inject_Z (Z.of_nat (length ts)) == inject_Z (Z.of_nat (length d)) + 1).
  { rewrite Hlen. change 1 with (inject_Z 1). rewrite <- inject_Z_plus.
    rewrite inject_Z_injective. lia. }
  assert (Hnpos : 0 < inject_Z (Z.of_nat (length ts))).
  { change 0 with (inject_Z 0). rewrite <- Zlt_Qlt. lia. }
  assert (Hmu : mu == 0).
  { assert (E : mu * inject_Z (Z.of_nat (length ts)) == np_sum d).
    { unfold mu. field. lra. }
    rewrite Hsum, Hnq in E. lra. }
  apply Forall_forall. intros v Hv. specialize (Hz v Hv). lra.
Qed.

Lemma lag_weight_positive (n lag : nat) :
  (lag < n)%nat ->
  0 < inject_Z (Z.of_nat n - Z.of_nat lag + 1)
      * (1 - inject_Z (Z.of_nat lag) / inject_Z (Z.of_nat n)).
Proof.
  intros H.
  assert (Hn : 0 < inject_Z (Z.of_nat n))
    by (change 0 with (inject_Z 0); rewrite <- Zlt_Qlt; lia).
  assert (Hl : inject_Z (Z.of_nat lag) < inject_Z (Z.of_nat n))
    by (rewrite <- Zlt_Qlt; lia).
  assert (H1 : 0 < inject_Z (Z.of_nat n - Z.of_nat lag + 1))
    by (change 0 with (inject_Z 0); rewrite <- Zlt_Qlt; lia).
  assert (H2 : inject_Z (Z.of_nat lag) / inject_Z (Z.of_nat n) < 1)
    by (apply Qlt_shift_div_r; lra).
  nra.
Qed.

Lemma py_slice_map {A C : Type} (f : A -> C) (start stop : Z) (a : list A) :
  py_slice start stop (map f a) = map f (py_slice start stop a).
Proof.
  unfold py_slice. rewrite length_map, skipn_map, firstn_map. reflexivity.
Qed.

Lemma py_slice_from {A : Type} (s : nat) (a : list A) :
  py_slice (Z.of_nat s) (Z.of_nat (length a)) a = skipn s a.
Proof.
  unfold py_slice, clip.
  destruct (Z.ltb_spec (Z.of_nat s) 0); [lia|].
  destruct (Z.ltb_spec (Z.of_nat (length a)) 0); [lia|].
  rewrite Z.min_id.
  destruct (Nat.le_gt_cases s (length a)) as [Hle|Hgt].
  - rewrite Z.min_l by lia. rewrite Nat2Z.id.
    apply firstn_all2. rewrite length_skipn. lia.
  - rewrite Z.min_r by lia. rewrite Nat2Z.id.
    rewrite !skipn_all2 by lia. apply firstn_nil.
Qed.

Lemma py_slice_to {A : Type} (stop : Z) (a : list A) :
  py_slice 0 stop a = firstn (Z.to_nat (clip (Z.of_nat (length a)) stop)) a.
Proof.
  unfold py_slice. replace (clip (Z.of_nat (length a)) 0) with 0%Z.
  - rewrite Z.sub_0_r. reflexivity.
  - unfold clip. cbn. lia.
Qed.

Lemma np_subtract_finite (a b : list Q) :
  length a = length b ->
  np_subtract (map Fin a) (map Fin b) = Done (map Fin (subtract a b)).
Proof.
  intros H. unfold np_subtract. rewrite !length_map, H, Nat.eqb_refl. f_equal.
  unfold subtract. clear H. revert b.
  induction a as [|x a IH]; intros [|y b]; try reflexivity.
  cbn [map combine fst snd fsub]. f_equal. apply IH.
Qed.

Lemma np_subtract_nothing (b : list fval) :
  np_subtract [] b
  = if (2 <=? length b)%nat then CannotBroadcast else Done [].
Proof. destruct b as [|y [|z b]]; reflexivity. Qed.

Lemma fold_fadd_finite (l : list Q) (acc : Q) :
  fold_left fadd (map Fin l) (Fin acc) = Fin (fold_left Qplus l acc).
Proof.
  revert acc. induction l as [|x l IH]; intros acc; [reflexivity|].
  cbn [map fold_left fadd]. apply IH.
Qed.

Lemma builtin_sum_finite (l : list Q) :
  l <> [] -> builtin_sum (map Fin l) = np_float64 (Fin (np_sum l)).
Proof.
  intros H. destruct l as [|x l]; [congruence|].
  unfold builtin_sum, np_sum. cbn [map]. rewrite <- fold_fadd_finite. reflexivity.
Qed.

Lemma squares_finite (d : list Q) (c : number) (q : Q) :
  value c = Fin q ->
  np_square (minus_scalar (map Fin d) c)
  = map Fin (map (fun v => v * v) (map (fun v => v - q) d)).
Proof.
  intros H. unfold np_square, minus_scalar. rewrite H, !map_map. reflexivity.
Qed.

Lemma count_nonzero (n : nat) : (1 <= n)%nat -> Qeq_bool (inject_Z (Z.of_nat n)) 0 = false.
Proof.
  intros H. apply not_true_is_false. intros E. apply Qeq_bool_iff in E.
  unfold Qeq in E. cbn in E. lia.
Qed.

Lemma py_slice_but_last {A : Type} (k : nat) (a : list A) :
  py_slice 0 (Z.of_nat (length a) - Z.of_nat k) a
  = firstn (if (k <=? length a)%nat then length a - k else 2 * length a - k) a.
Proof.
  rewrite py_slice_to. f_equal. unfold clip.
  destruct (Nat.leb_spec k (length a)).
  - destruct (Z.ltb_spec (Z.of_nat (length a) - Z.of_nat k) 0); lia.
  - destruct (Z.ltb_spec (Z.of_nat (length a) - Z.of_nat k) 0); lia.
Qed.

Lemma truediv_numpy_left (v : fval) (y : number) :
  truediv (np_float64 v) y = Done (np_float64 (fdiv v (value y))).
Proof. reflexivity. Qed.

Lemma truediv_numpy_right (x : number) (v : fval) :
  truediv x (np_float64 v) = Done (np_float64 (fdiv (value x) v)).
Proof. unfold truediv. cbn [is_numpy value]. rewrite orb_true_r. reflexivity. Qed.

Lemma np_divide_by_nonzero (t d : Q) :
  Qeq_bool d 0 = false -> np_divide t d = Fin (t / d).
Proof. intros H. unfold np_divide. rewrite H. reflexivity. Qed.

Lemma weight_zero (n lag : nat) :
  (2 <= n)%nat -> (n <= lag)%nat ->
  Qeq_bool (inject_Z (Z.of_nat n - Z.of_nat lag + 1)
            * (inject_Z 1 - inject_Z (Z.of_nat lag) / inject_Z (Z.of_nat n))) 0
  = ((lag =? n) || (lag =? n + 1))%nat.
Proof.
  intros Hn Hlag.
  assert (Hnq : 0 < inject_Z (Z.of_nat n))
    by (change 0 with (inject_Z 0); rewrite <- Zlt_Qlt; lia).
  change (inject_Z 1) with 1.
  destruct (Nat.eqb_spec lag n) as [->|Hne]; cbn [orb].
  - apply Qeq_bool_iff. field. lra.
  - destruct (Nat.eqb_spec lag (n + 1)) as [->|Hne1].
    + apply Qeq_bool_iff.
      replace (Z.of_nat n - Z.of_nat (n + 1) + 1)%Z with 0%Z by lia.
      change (inject_Z 0) with 0. ring.
    + apply not_true_is_false. intros E. apply Qeq_bool_iff in E.
      assert (H1 : inject_Z (Z.of_nat n - Z.of_nat lag + 1) < 0)
        by (change 0 with (inject_Z 0); rewrite <- Zlt_Qlt; lia).
      assert (H2 : inject_Z (Z.of_nat n) < inject_Z (Z.of_nat lag))
        by (rewrite <- Zlt_Qlt; lia).
      assert (H3 : 1 < inject_Z (Z.of_nat lag) / inject_Z (Z.of_nat n))
        by (apply Qlt_shift_div_l; lra).
      nra.
Qed.

(** The line-by-line computation, regime by regime. *)
Lemma variance_ratio_regimes (ts : list Q) (lag : nat) :
  variance_ratio ts lag = ratio_by_regime ts lag.
Proof.
  unfold variance_ratio, ratio_by_regime. cbv zeta. rewrite length_map.
  destruct ts as [|x0 [|x1 ts]]; [reflexivity | reflexivity |].
  set (xs := x0 :: x1 :: ts). set (n := length xs).
  assert (Hn : (2 <= n)%nat) by (unfold n, xs; cbn [length]; lia).
  replace (n <=? 1)%nat with false by (symmetry; apply Nat.leb_gt; lia).
  assert (Hnq : Qeq_bool (inject_Z (Z.of_nat n)) 0 = false)
    by (apply count_nonzero; lia).
  assert (Hn1 : Qeq_bool (inject_Z (Z.of_nat n - 1)) 0 = false).
  { replace (Z.of_nat n - 1)%Z with (Z.of_nat (n - 1)) by lia.
    apply count_nonzero. lia. }
  assert (S1 : py_slice 1 (Z.of_nat n) xs = skipn 1 xs)
    by apply (py_slice_from 1 xs).
  assert (S2 : py_slice 0 (Z.of_nat n - 1) xs = firstn (n - 1) xs).
  { change (Z.of_nat n - 1)%Z with (Z.of_nat (length xs) - Z.of_nat 1)%Z.
    rewrite py_slice_but_last. fold n.
    replace (1 <=? n)%nat with true by (symmetry; apply Nat.leb_le; lia).
    reflexivity. }
  assert (S3 : py_slice (Z.of_nat lag) (Z.of_nat n) xs = skipn lag xs)
    by apply py_slice_from.
  assert (S4 : py_slice 0 (Z.of_nat n - Z.of_nat lag) xs
               = firstn (if (lag <=? n)%nat then n - lag else 2 * n - lag) xs)
    by apply py_slice_but_last.
  rewrite !py_slice_map, S1, S2, S3, S4. clear S1 S2 S3 S4.
  assert (Hd1 : subtract (skipn 1 xs) (firstn (n - 1) xs) <> []).
  { unfold xs. cbn [skipn]. unfold n, xs. cbn [length Nat.sub firstn subtract combine map].
    discriminate. }
  rewrite np_subtract_finite
    by (rewrite length_skipn, length_firstn; fold n; lia).
  cbn [and_then]. rewrite builtin_sum_finite by exact Hd1.
  rewrite truediv_numpy_left. cbn [and_then value fdiv].
  rewrite (np_divide_by_nonzero _ _ Hnq).
  unfold truediv at 1. cbn [is_numpy orb value is_zero fdiv]. rewrite Hnq.
  rewrite (np_divide_by_nonzero _ _ Hnq). cbn [and_then].
  rewrite (squares_finite _ (np_float64 (Fin _)) _ eq_refl).
  rewrite builtin_sum_finite
    by (intros E; apply map_eq_nil in E; apply map_eq_nil in E; exact (Hd1 E)).
  rewrite truediv_numpy_left. cbn [and_then value fdiv].
  rewrite (np_divide_by_nonzero _ _ Hn1).
  cbn [times minus is_numpy orb value fsub fmul].
  destruct (Nat.ltb_spec lag n) as [Hlt|Hge].
  - replace (lag <=? n)%nat with true by (symmetry; apply Nat.leb_le; lia).
    rewrite np_subtract_finite
      by (rewrite length_skipn, length_firstn; fold n; lia).
    cbn [and_then]. rewrite (squares_finite _ (np_float64 (Fin _)) _ eq_refl).
    assert (Hdl : subtract (skipn lag xs) (firstn (n - lag) xs) <> []).
    { intros E. apply (f_equal (@length Q)) in E. unfold subtract in E.
      rewrite length_map, length_combine, length_skipn, length_firstn in E.
      fold n in E. cbn [length] in E. lia. }
    rewrite builtin_sum_finite
      by (intros E; apply map_eq_nil in E; apply map_eq_nil in E; exact (Hdl E)).
    rewrite truediv_numpy_left. cbn [and_then value fdiv].
    rewrite np_divide_by_nonzero.
    + rewrite truediv_numpy_left. cbn [raised_or_returned value fdiv]. reflexivity.
    + apply not_true_is_false. intros E. apply Qeq_bool_iff in E.
      pose proof (lag_weight_positive n lag Hlt) as Hpos.
      change (inject_Z 1) with 1 in E. lra.
  - rewrite (skipn_all2 xs) by (fold n; lia). cbn [map].
    rewrite np_subtract_nothing, length_map, length_firstn. fold n.
    pose proof (weight_zero n lag Hn Hge) as Hm.
    destruct (Nat.eqb_spec lag n) as [->|Hne].
    + rewrite Nat.leb_refl, Nat.sub_diag. cbn [Nat.min Nat.leb and_then].
      cbn [minus_scalar np_square map builtin_sum].
      unfold truediv. cbn [is_numpy orb value is_zero]. rewrite Hm. reflexivity.
    + replace (lag <=? n)%nat with false by (symmetry; apply Nat.leb_gt; lia).
      replace (Nat.min (2 * n - lag) n) with (2 * n - lag)%nat by lia.
      destruct (2 <=? 2 * n - lag)%nat; [reflexivity|].
      cbn [and_then minus_scalar np_square map builtin_sum].
      unfold truediv at 1. cbn [is_numpy orb value is_zero]. rewrite Hm.
      cbn [orb]. destruct (lag =? n + 1)%nat; [reflexivity|].
      cbn [and_then fdiv]. rewrite truediv_numpy_right.
      cbn [raised_or_returned value fdiv].
      rewrite np_divide_by_nonzero by exact Hm. reflexivity.
Qed.

(** X16.  When [variance_ratio] raises.  Python's [sum] of an empty array is
    the [int] 0, and dividing it by a zero that is a Python number raises:
    ZeroDivisionError is raised exactly on an array of fewer than two
    values (whatever the lag), on a lag equal to the length of the array,
    and on two values with lag 3.  The two slices [ts[lag:n]] and
    [ts[:n - lag]] cannot be broadcast, a ValueError, exactly for
    [n < lag <= 2 n - 2]. *)
Theorem variance_ratio_zero_division (ts : list Q) (lag : nat) :
  (variance_ratio ts lag = ZeroDivisionError
   <-> (length ts <= 1)%nat \/ lag = length ts
       \/ (length ts = 2%nat /\ lag = 3%nat))
  /\ (variance_ratio ts lag = BroadcastValueError
      <-> (length ts < lag <= 2 * length ts - 2)%nat).
Proof.
  rewrite variance_ratio_regimes. unfold ratio_by_regime.
  destruct (Nat.leb_spec (length ts) 1);
    [split; split; intros; try discriminate; try lia; tauto|].
  destruct (Nat.ltb_spec lag (length ts));
    [split; split; intros; try discriminate; lia|].
  destruct (Nat.eqb_spec lag (length ts));
    [split; split; intros; try discriminate; try lia; tauto|].
  destruct (Nat.leb_spec 2 (2 * length ts - lag));
    [split; split; intros; try discriminate; try lia; reflexivity|].
  destruct (Nat.eqb_spec lag (length ts + 1));
    split; split; intros; try discriminate; try lia; try reflexivity.
Qed.

Lemma variance_ratio_zero_division_witness :
  variance_ratio [1; 2; 4] 3 = ZeroDivisionError
  /\ variance_ratio [1; 2; 4] 4 = BroadcastValueError.
Proof.
  split.
  - apply (proj1 (variance_ratio_zero_division [1; 2; 4] 3)). right. left. reflexivity.
  - apply (proj2 (variance_ratio_zero_division [1; 2; 4] 4)). cbn. lia.
Defined.

(** X17.  At lag 1 the ratio is 1 for every series of two or more values
    that is not constant, and [nan] for a constant one. *)
Theorem variance_ratio_lag_one (ts : list Q) :
  (2 <= length ts)%nat ->
  (Forall (fun d => d == 0) (first_difference ts) ->
   variance_ratio ts 1 = Ratio NaN)
  /\ (~ Forall (fun d => d == 0) (first_difference ts) ->
      exists v, variance_ratio ts 1 = Ratio (Fin v) /\ v == 1).
Proof.
  intros Hn. rewrite variance_ratio_regimes. unfold ratio_by_regime.
  replace (length ts <=? 1)%nat with false by (symmetry; apply Nat.leb_gt; lia).
  replace (1 <? length ts)%nat with true by (symmetry; apply Nat.ltb_lt; lia).
  rewrite first_difference_slices.
  set (d := first_difference ts).
  set (nq := inject_Z (Z.of_nat (length ts))).
  set (mu := np_sum d / nq).
  assert (Hnq : 2 <= nq).
  { unfold nq. change 2 with (inject_Z 2). rewrite <- Zle_Qle. lia. }
  assert (Hn1 : inject_Z (Z.of_nat (length ts) - 1) == nq - 1).
  { unfold nq, Z.sub. rewrite inject_Z_plus. reflexivity. }
  assert (Hm : inject_Z (Z.of_nat (length ts) - Z.of_nat 1 + 1)
               * (1 - inject_Z (Z.of_nat 1) / nq) == nq - 1).
  { replace (Z.of_nat (length ts) - Z.of_nat 1 + 1)%Z with (Z.of_nat (length ts)) by lia.
    fold nq. change (inject_Z (Z.of_nat 1)) with 1. field. lra. }
  assert (Ht : square_sum (map (fun v => v - inject_Z (Z.of_nat 1) * mu) d)
               == square_sum (map (fun v => v - mu) d)).
  { rewrite !square_sum_fold. apply sum_map_Qeq. intros v _.
    change (inject_Z (Z.of_nat 1)) with 1. ring. }
  split.
  - intros Hflat.
    assert (Hsum : np_sum d == 0).
    { rewrite np_sum_fold_right, <- (map_id d).
      rewrite (sum_constant (fun v => v) 0); [lra|].
      intros v Hv. rewrite Forall_forall in Hflat. apply Hflat. exact Hv. }
    assert (Hmu : mu == 0) by (unfold mu; rewrite Hsum; field; lra).
    assert (Hb : square_sum (map (fun v => v - mu) d) == 0).
    { rewrite square_sum_fold.
      rewrite (sum_constant (fun v => (v - mu) * (v - mu)) 0); [lra|].
      intros v Hv. rewrite Forall_forall in Hflat. rewrite (Hflat v Hv), Hmu. ring. }
    unfold np_divide.
    rewrite (proj2 (Qeq_bool_iff _ 0)).
    + rewrite (proj2 (Qeq_bool_iff _ 0)); [reflexivity|].
      rewrite Ht, Hb, Hm. field. lra.
    + rewrite Hb, Hn1. change (inject_Z (Z.of_nat 1)) with 1. field. lra.
  - intros Hnc.
    pose proof (increments_spread ts Hn Hnc) as Hpos. fold d nq mu in Hpos.
    assert (Hb : 0 < square_sum (map (fun v => v - mu) d))
      by (rewrite square_sum_fold; exact Hpos).
    unfold np_divide.
    destruct (Qeq_bool _ 0) eqn:E.
    + exfalso. apply Qeq_bool_iff in E. rewrite Hn1 in E.
      change (inject_Z (Z.of_nat 1)) with 1 in E.
      assert (E' : square_sum (map (fun v => v - mu) d) == 0).
      { assert (Hq : 1 * (square_sum (map (fun v => v - mu) d) / (nq - 1)) * (nq - 1)
                     == square_sum (map (fun v => v - mu) d)) by (field; lra).
        rewrite E in Hq. lra. }
      lra.
    + eexists. split; [reflexivity|].
      rewrite Ht, Hm, Hn1. change (inject_Z (Z.of_nat 1)) with 1. field. lra.
Qed.

Lemma variance_ratio_lag_one_witness :
  exists v, variance_ratio [1; 2; 4] 1 = Ratio (Fin v) /\ v == 1.
Proof.
  apply (fun H H' => proj2 (variance_ratio_lag_one [1; 2; 4] H) H').
  - cbn [length]. lia.
  - intros H. inversion H as [|? ? H1 _]. vm_compute in H1. discriminate H1.
Defined.

Lemma flat_items (ts : list Q) (i : nat) :
  Forall (fun d => d == 0) (first_difference ts) ->
  (i < length ts)%nat -> item ts i == item ts 0.
Proof.
  intros Hflat. rewrite Forall_forall in Hflat.
  induction i as [|i IH]; intros Hi; [reflexivity|].
  rewrite <- IH by lia.
  assert (Hin : In (item ts (i + 1) - item ts i) (first_difference ts)).
  { unfold first_difference. apply in_map_iff. exists i. split; [reflexivity|].
    apply in_seq. lia. }
  specialize (Hflat _ Hin). rewrite Nat.add_1_r in Hflat. lra.
Qed.


Lemma quotient_nonneg (a b : Q) : 0 <= a -> 0 < b -> 0 <= a / b.
Proof. intros Ha Hb. apply Qle_shift_div_l; lra. Qed.

(** X18.  In exact arithmetic, for a lag from 1 to [len(ts) - 1],
    [variance_ratio] raises nothing: on a series that is not constant it
    returns a finite ratio that is not negative, and on a constant series it
    returns [nan].  (On floats a square can underflow or overflow.) *)
Theorem variance_ratio_finite_nonnegative (ts : list Q) (lag : nat) :
  (1 <= lag < length ts)%nat ->
  (Forall (fun d => d == 0) (first_difference ts) ->
   variance_ratio ts lag = Ratio NaN)
  /\ (~ Forall (fun d => d == 0) (first_difference ts) ->
      exists v, variance_ratio ts lag = Ratio (Fin v) /\ 0 <= v).
Proof.
  intros Hlag. rewrite variance_ratio_regimes. unfold ratio_by_regime.
  replace (length ts <=? 1)%nat with false by (symmetry; apply Nat.leb_gt; lia).
  replace (lag <? length ts)%nat with true by (symmetry; apply Nat.ltb_lt; lia).
  rewrite first_difference_slices.
  change (subtract (slice_from lag ts) (firstn (length ts - lag) ts))
    with (subtract (slice_from lag ts) (slice_to_minus lag ts)).
  rewrite lagged_slices.
  set (d := first_difference ts).
  set (nq := inject_Z (Z.of_nat (length ts))).
  set (lagq := inject_Z (Z.of_nat lag)).
  set (mu := np_sum d / nq).
  set (m := inject_Z (Z.of_nat (length ts) - Z.of_nat lag + 1) * (1 - lagq / nq)).
  assert (Hm : 0 < m) by (apply lag_weight_positive; lia).
  assert (Hnq : 2 <= nq).
  { unfold nq. change 2 with (inject_Z 2). rewrite <- Zle_Qle. lia. }
  assert (Hlq : 1 <= lagq).
  { unfold lagq. change 1 with (inject_Z 1). rewrite <- Zle_Qle. lia. }
  assert (Hn1 : inject_Z (Z.of_nat (length ts) - 1) == nq - 1).
  { unfold nq, Z.sub. rewrite inject_Z_plus. reflexivity. }
  split.
  - intros Hflat.
    assert (Hsum : np_sum d == 0).
    { rewrite np_sum_fold_right, <- (map_id d).
      rewrite (sum_constant (fun v => v) 0); [lra|].
      intros v Hv. rewrite Forall_forall in Hflat. apply Hflat. exact Hv. }
    assert (Hmu : mu == 0) by (unfold mu; rewrite Hsum; field; lra).
    assert (Hb : square_sum (map (fun v => v - mu) d) == 0).
    { rewrite square_sum_fold.
      rewrite (sum_constant (fun v => (v - mu) * (v - mu)) 0); [lra|].
      intros v Hv. rewrite Forall_forall in Hflat. rewrite (Hflat v Hv), Hmu. ring. }
    assert (Ht : square_sum (map (fun v => v - lagq * mu) (lagged_difference lag ts)) == 0).
    { rewrite square_sum_fold.
      rewrite (sum_constant (fun v => (v - lagq * mu) * (v - lagq * mu)) 0); [lra|].
      intros v Hv. unfold lagged_difference in Hv. apply in_map_iff in Hv.
      destruct Hv as [t [<- Ht]]. apply in_seq in Ht.
      rewrite (flat_items ts (t + lag) Hflat), (flat_items ts t Hflat) by lia.
      rewrite Hmu. ring. }
    unfold np_divide.
    rewrite (proj2 (Qeq_bool_iff _ 0)).
    + rewrite (proj2 (Qeq_bool_iff _ 0)); [reflexivity|]. rewrite Ht. field. lra.
    + rewrite Hb, Hn1. field. lra.
  - intros Hnc.
    assert (Hn : (2 <= length ts)%nat) by lia.
    pose proof (increments_spread ts Hn Hnc) as Hpos.
    fold d nq mu in Hpos.
    assert (Hb : 0 < square_sum (map (fun v => v - mu) d))
      by (rewrite square_sum_fold; exact Hpos).
    assert (Hden : 0 < lagq * (square_sum (map (fun v => v - mu) d)
                                / inject_Z (Z.of_nat (length ts) - 1))).
    { rewrite Hn1.
      assert (0 < square_sum (map (fun v => v - mu) d) / (nq - 1))
        by (apply Qlt_shift_div_l; lra).
      nra. }
    unfold np_divide.
    destruct (Qeq_bool _ 0) eqn:E; [apply Qeq_bool_iff in E; lra|].
    eexists. split; [reflexivity|].
    apply quotient_nonneg; [| exact Hden].
    apply quotient_nonneg; [| exact Hm].
    rewrite square_sum_fold. apply squares_nonneg.
Qed.

Lemma variance_ratio_finite_nonnegative_witness :
  exists v, variance_ratio [1; 2; 4; 8; 16] 2 = Ratio (Fin v) /\ 0 <= v.
Proof.
  apply (fun H H' => proj2 (variance_ratio_finite_nonnegative [1; 2; 4; 8; 16] 2 H) H').
  - cbn [length]. lia.
  - intros H. inversion H as [|? ? H1 _]. vm_compute in H1. discriminate H1.
Defined.

(** *** The ratio does not depend on level or unit *)

Lemma variance_ratio_reads (ts : list Q) (lag : nat) :
  variance_ratio ts lag
  = (let n := length ts in
     let nq := inject_Z (Z.of_nat n) in
     let lagq := inject_Z (Z.of_nat lag) in
     let mu := np_sum (lagged_difference 1 ts) / nq in
     let m := inject_Z (Z.of_nat n - Z.of_nat lag + 1) * (1 - lagq / nq) in
     let b := square_sum (map (fun v => v - mu) (lagged_difference 1 ts))
              / inject_Z (Z.of_nat n - 1) in
     if (n <=? 1)%nat then ZeroDivisionError
     else if (lag <? n)%nat then
       Ratio (np_divide
                (square_sum (map (fun v => v - lagq * mu) (lagged_difference lag ts)) / m)
                (lagq * b))
     else if (lag =? n)%nat then ZeroDivisionError
     else if (2 <=? 2 * n - lag)%nat then BroadcastValueError
     else if (lag =? n + 1)%nat then ZeroDivisionError
     else Ratio (np_divide (0 / m) (lagq * b))).
Proof.
  rewrite variance_ratio_regimes. unfold ratio_by_regime. cbv zeta.
  change (subtract (slice_from 1 ts) (firstn (length ts - 1) ts))
    with (subtract (slice_from 1 ts) (slice_to_minus 1 ts)).
  change (subtract (slice_from lag ts) (firstn (length ts - lag) ts))
    with (subtract (slice_from lag ts) (slice_to_minus lag ts)).
  rewrite !lagged_slices. reflexivity.
Qed.

Lemma item_map (f : Q -> Q) (ts : list Q) (i : nat) :
  (i < length ts)%nat -> item (map f ts) i = f (item ts i).
Proof.
  intros Hi. unfold item. rewrite (nth_indep _ 0 (f 0)) by (rewrite length_map; exact Hi).
  apply map_nth.
Qed.

Lemma lagged_sum_affine (k c : Q) (L : nat) (ts : list Q) (g' g : Q -> Q) :
  (forall a b, g' ((k * a + c) - (k * b + c)) == g (a - b)) ->
  fold_right Qplus 0 (map g' (lagged_difference L (map (fun v => k * v + c) ts)))
  == fold_right Qplus 0 (map g (lagged_difference L ts)).
Proof.
  intros H. unfold lagged_difference. rewrite !map_map, length_map.
  apply sum_map_Qeq. intros t Ht. apply in_seq in Ht.
  rewrite !item_map by lia. apply H.
Qed.

Lemma sum_scale {A : Type} (s : Q) (f : A -> Q) (l : list A) :
  fold_right Qplus 0 (map (fun v => s * f v) l) == s * fold_right Qplus 0 (map f l).
Proof.
  induction l as [|a l IH]; cbn [map fold_right]; [lra|]. rewrite IH. lra.
Qed.

Lemma np_divide_scaled (s t t' d d' : Q) :
  0 < s -> t' == s * t -> d' == s * d ->
  same_float (np_divide t' d') (np_divide t d).
Proof.
  intros Hs Ht Hd. unfold np_divide.
  destruct (Qeq_bool d 0) eqn:Ed.
  - apply Qeq_bool_iff in Ed.
    rewrite (proj2 (Qeq_bool_iff d' 0)) by (rewrite Hd, Ed; ring).
    destruct (Qeq_bool t 0) eqn:Et.
    + apply Qeq_bool_iff in Et.
      rewrite (proj2 (Qeq_bool_iff t' 0)) by (rewrite Ht, Et; ring). exact I.
    + destruct (Qeq_bool t' 0) eqn:Et'.
      * apply Qeq_bool_iff in Et'. apply Qeq_bool_neq in Et. exfalso. apply Et. nra.
      * cbn. apply bool_eq_by_iff. rewrite !Qlt_bool_iff. split; intros; nra.
  - destruct (Qeq_bool d' 0) eqn:Ed'.
    + apply Qeq_bool_iff in Ed'. apply Qeq_bool_neq in Ed. exfalso. apply Ed. nra.
    + cbn. apply Qeq_bool_neq in Ed. rewrite Ht, Hd. field. split; lra.
Qed.

Lemma same_ratio_refl_error (r : ratio) :
  match r with Ratio _ => False | _ => True end -> same_ratio r r.
Proof. destruct r; cbn; tauto. Qed.

(** X19.  The variance ratio does not depend on the level or the unit of
    the series: for [k <> 0], [variance_ratio] of [k * ts + c] is that of
    [ts], the same number or the same exception, at every lag. *)
Theorem variance_ratio_level_and_unit (k c : Q) (ts : list Q) (lag : nat) :
  ~ k == 0 ->
  same_ratio (variance_ratio (map (fun v => k * v + c) ts) lag)
             (variance_ratio ts lag).
Proof.
  intros Hk. rewrite !variance_ratio_reads. cbv zeta. rewrite length_map.
  set (ts' := map (fun v => k * v + c) ts).
  set (nq := inject_Z (Z.of_nat (length ts))).
  set (lagq := inject_Z (Z.of_nat lag)).
  set (m := inject_Z (Z.of_nat (length ts) - Z.of_nat lag + 1) * (1 - lagq / nq)).
  set (mu := np_sum (lagged_difference 1 ts) / nq).
  set (mu' := np_sum (lagged_difference 1 ts') / nq).
  destruct (length ts <=? 1)%nat eqn:E1; [exact I|].
  apply Nat.leb_gt in E1.
  assert (Hnq : 2 <= nq).
  { unfold nq. change 2 with (inject_Z 2). rewrite <- Zle_Qle. lia. }
  assert (Hn1 : inject_Z (Z.of_nat (length ts) - 1) == nq - 1).
  { unfold nq, Z.sub. rewrite inject_Z_plus. reflexivity. }
  assert (Hs : 0 < k * k) by nra.
  assert (Hmu : mu' == k * mu).
  { unfold mu', mu, ts'. rewrite !np_sum_fold_right.
    rewrite <- (map_id (lagged_difference 1 (map _ ts))).
    rewrite (lagged_sum_affine k c 1 ts (fun v => v) (fun v => k * v))
      by (intros a b; ring).
    rewrite sum_scale, map_id. field. lra. }
  assert (Hb : square_sum (map (fun v => v - mu') (lagged_difference 1 ts'))
               == k * k * square_sum (map (fun v => v - mu) (lagged_difference 1 ts))).
  { rewrite !square_sum_fold. unfold ts'.
    rewrite (lagged_sum_affine k c 1 ts (fun v => (v - mu') * (v - mu'))
               (fun v => k * k * ((v - mu) * (v - mu))))
      by (intros a b; rewrite Hmu; ring).
    apply sum_scale. }
  assert (Hd : lagq * (square_sum (map (fun v => v - mu') (lagged_difference 1 ts'))
                       / inject_Z (Z.of_nat (length ts) - 1))
               == k * k * (lagq * (square_sum (map (fun v => v - mu)
                                                  (lagged_difference 1 ts))
                                   / inject_Z (Z.of_nat (length ts) - 1)))).
  { rewrite Hb, Hn1. field. lra. }
  destruct (lag <? length ts)%nat eqn:E2.
  - apply Nat.ltb_lt in E2.
    assert (Hm : 0 < m) by (apply lag_weight_positive; exact E2).
    cbn [same_ratio]. apply (np_divide_scaled (k * k)); [exact Hs | | exact Hd].
    assert (Ht : square_sum (map (fun v => v - lagq * mu') (lagged_difference lag ts'))
                 == k * k * square_sum (map (fun v => v - lagq * mu)
                                           (lagged_difference lag ts))).
    { rewrite !square_sum_fold. unfold ts'.
      rewrite (lagged_sum_affine k c lag ts
                 (fun v => (v - lagq * mu') * (v - lagq * mu'))
                 (fun v => k * k * ((v - lagq * mu) * (v - lagq * mu))))
        by (intros a b; rewrite Hmu; ring).
      apply sum_scale. }
    rewrite Ht. field. lra.
  - destruct (lag =? length ts)%nat; [exact I|].
    destruct (2 <=? 2 * length ts - lag)%nat; [exact I|].
    destruct (lag =? length ts + 1)%nat; [exact I|].
    cbn [same_ratio]. apply (np_divide_scaled (k * k)); [exact Hs | | exact Hd].
    unfold Qdiv. ring.
Qed.

Lemma variance_ratio_level_and_unit_witness :
  same_ratio (variance_ratio (map (fun v => 100 * v + 7) [1; 2; 4; 8; 16]) 2)
             (variance_ratio [1; 2; 4; 8; 16] 2).
Proof.
  apply (variance_ratio_level_and_unit 100 7 [1; 2; 4; 8; 16] 2).
  intros H. discriminate H.
Defined.

(** ** get_candidate_pairs *)

Lemma for_each_collects {A C : Type} (g : A -> result (list C)) (xs : list A)
  (s t : list C) :
  for_each xs s (fun s x => p <- g x ;; Ok (s ++ p)) = Ok t ->
  forall c, In c t -> In c s \/ exists x p, In x xs /\ g x = Ok p /\ In c p.
Proof.
  revert s. induction xs as [|x xs IH]; intros s H c Hc.
  - inversion H; subst. left. exact Hc.
  - cbn [for_each] in H. destruct (g x) as [p|] eqn:Eg; cbn [bind] in H; [| discriminate].
    destruct (IH _ H c Hc) as [Hin|[y [q [Hy [Hq Hcq]]]]].
    + apply in_app_or in Hin. destruct Hin as [Hin|Hin]; [left; exact Hin|].
      right. exists x, p. split; [left; reflexivity | split; assumption].
    + right. exists y, q. split; [right; exact Hy | split; assumption].
Qed.

Lemma for_each_collect_returns {A C : Type} (g : A -> result (list C)) (xs : list A)
  (s t : list C) (x : A) :
  for_each xs s (fun s x => p <- g x ;; Ok (s ++ p)) = Ok t ->
  In x xs -> returns (g x).
Proof.
  revert s. induction xs as [|y xs IH]; intros s H Hx; [destruct Hx|].
  cbn [for_each] in H. destruct (g y) as [p|] eqn:Eg; cbn [bind] in H; [| discriminate].
  destruct Hx as [->|Hx]; [exists p; exact Eg | apply (IH _ H Hx)].
Qed.

Lemma columns_names (f : frame) (symbols : list string) (sub : frame) :
  columns f symbols = Ok sub -> map name sub = symbols.
Proof.
  unfold columns. revert sub. induction symbols as [|k ks IH]; intros sub H.
  - inversion H. reflexivity.
  - cbn [map_result] in H.
    destruct (column f k) as [s|] eqn:Ec; cbn [bind] in H; [| discriminate].
    destruct (map_result (column f) ks) as [rest|]; cbn [bind] in H; [| discriminate].
    inversion H; subst sub. cbn [map]. rewrite (IH rest eq_refl).
    apply column_name in Ec. destruct Ec as [-> _]. reflexivity.
Qed.

Lemma columns_missing (f : frame) (symbols : list string) (k : string) :
  In k symbols -> column f k = Raise KeyError -> raises (columns f symbols).
Proof.
  unfold columns. induction symbols as [|k' ks IH]; intros Hin Hk; [destruct Hin|].
  cbn [map_result]. destruct Hin as [->|Hin].
  - rewrite Hk. exists KeyError. reflexivity.
  - destruct (column f k') as [s|e]; cbn [bind]; [| exists e; reflexivity].
    destruct (IH Hin Hk) as [e He]. rewrite He. exists e. reflexivity.
Qed.

Lemma symbols_of_spec (cs : labels) (clust : Z) (k : string) :
  In k (symbols_of cs clust) <-> In (k, clust) cs.
Proof.
  unfold symbols_of. rewrite in_map_iff. split.
  - intros [[k' l] [E Hin]]. cbn [fst] in E. subst k'. apply filter_In in Hin.
    destruct Hin as [Hin Hl]. cbn [snd] in Hl. apply Z.eqb_eq in Hl. subst l. exact Hin.
  - intros Hin. exists (k, clust). split; [reflexivity|].
    apply filter_In. split; [exact Hin | apply Z.eqb_refl].
Qed.

Lemma get_candidate_pairs_reads (B : Backend) (cs : labels) (train test : frame)
  (n_clusters : nat) (th : thresholds) :
  get_candidate_pairs cs train test n_clusters th
  = (total_pairs <-
       for_each (range 0 n_clusters) []
         (fun total_pairs clust =>
            pairs <- cluster_pairs cs train test th clust ;;
            Ok (total_pairs ++ pairs)) ;;
     Ok (total_pairs, np_unique (tickers total_pairs))).
Proof.
  unfold get_candidate_pairs. f_equal. apply for_each_ext. intros s clust.
  unfold cluster_pairs. cbv zeta.
  destruct (columns train _); cbn [bind]; [| reflexivity].
  destruct (columns test _); reflexivity.
Qed.

Lemma get_candidate_pairs_total (B : Backend) (cs : labels) (train test : frame)
  (n_clusters : nat) (th : thresholds) (total : list candidate) (uniq : list string) :
  get_candidate_pairs cs train test n_clusters th = Ok (total, uniq) ->
  for_each (range 0 n_clusters) []
    (fun total_pairs clust =>
       pairs <- cluster_pairs cs train test th clust ;; Ok (total_pairs ++ pairs))
  = Ok total
  /\ uniq = np_unique (tickers total).
Proof.
  rewrite get_candidate_pairs_reads. intros H.
  destruct (for_each _ _ _) as [t|]; cbn [bind] in H; [| discriminate].
  inversion H; subst. split; reflexivity.
Qed.

(** X20.  [get_candidate_pairs] only pairs tickers of one cluster: the two
    tickers of every pair it returns carry one and the same label, a label
    among 0, ..., n_clusters - 1.  A ticker that only has the label -1
    (unclustered) is in no pair. *)
Theorem get_candidate_pairs_within_clusters (B : Backend) (cs : labels)
  (train test : frame) (n_clusters : nat) (th : thresholds)
  (total : list candidate) (uniq : list string) (k1 k2 : string) (r : coint) :
  get_candidate_pairs cs train test n_clusters th = Ok (total, uniq) ->
  In (k1, k2, r) total ->
  exists clust,
    (clust < n_clusters)%nat
    /\ In (k1, Z.of_nat clust) cs /\ In (k2, Z.of_nat clust) cs.
Proof.
  intros H Hin. apply get_candidate_pairs_total in H. destruct H as [Hloop _].
  destruct (for_each_collects _ _ _ _ Hloop _ Hin) as [[]|[clust [p [Hc [Hp Hcp]]]]].
  exists clust. split; [unfold range in Hc; apply in_seq in Hc; lia|].
  unfold cluster_pairs in Hp. cbv zeta in Hp.
  destruct (columns train _) as [ctrain|] eqn:Etrain; cbn [bind] in Hp; [| discriminate].
  destruct (columns test _) as [ctest|]; cbn [bind] in Hp; [| discriminate].
  apply columns_names in Etrain.
  destruct (found_visited _ _ _ _ _ _ Hp Hcp) as [i [j [_ [Hev _]]]].
  destruct (evaluate_parts _ _ _ _ _ _ Hev) as [S1 [S2 [T1 [T2 [Hk1 [Hk2 _]]]]]].
  cbn [fst snd] in Hk1, Hk2. rewrite Etrain in Hk1, Hk2.
  apply nth_error_In in Hk1, Hk2.
  split; apply symbols_of_spec; assumption.
Qed.

Lemma get_candidate_pairs_within_clusters_witness :
  Forall (fun c => exists clust,
              (clust < 2)%nat
              /\ In (fst (fst c), Z.of_nat clust) Example2.clusters
              /\ In (snd (fst c), Z.of_nat clust) Example2.clusters)
         Example.slow.
Proof.
  apply Forall_forall. intros [[k1 k2] r] Hin.
  apply (@get_candidate_pairs_within_clusters Example.untied Example2.clusters
           [Example.A; Example2.N; Example.B; Example.P; Example.R]
           [Example.A_test; Example2.N; Example.B_test; Example.P; Example.R]
           2 Example.floor_one Example.slow
           ["P"; "R"]%string k1 k2 r);
    [vm_compute; reflexivity | exact Hin].
Defined.

(** X21.  [get_candidate_pairs] cannot return if a ticker whose label is
    among 0, ..., n_clusters - 1 has no column in the train panel, or none in
    the test panel: selecting the cluster's columns raises KeyError when the
    loop reaches that cluster, if nothing raised before. *)
Theorem get_candidate_pairs_needs_every_column (B : Backend) (cs : labels)
  (train test : frame) (n_clusters : nat) (th : thresholds)
  (k : string) (clust : nat) :
  (clust < n_clusters)%nat -> In (k, Z.of_nat clust) cs ->
  column train k = Raise KeyError \/ column test k = Raise KeyError ->
  raises (get_candidate_pairs cs train test n_clusters th).
Proof.
  intros Hc Hin Hmiss.
  destruct (get_candidate_pairs cs train test n_clusters th) as [[total uniq]|e] eqn:E;
    [| exists e; reflexivity].
  exfalso. apply get_candidate_pairs_total in E. destruct E as [Hloop _].
  assert (Hr : returns (cluster_pairs cs train test th clust)).
  { apply (for_each_collect_returns _ _ _ _ clust Hloop).
    unfold range. apply in_seq. lia. }
  destruct Hr as [p Hp]. unfold cluster_pairs in Hp. cbv zeta in Hp.
  apply symbols_of_spec in Hin.
  destruct (columns train _) as [ctrain|] eqn:Etrain; cbn [bind] in Hp; [| discriminate].
  destruct (columns test _) as [ctest|] eqn:Etest; cbn [bind] in Hp; [| discriminate].
  destruct Hmiss as [Hm|Hm].
  - destruct (columns_missing _ _ _ Hin Hm) as [e He]. congruence.
  - destruct (columns_missing _ _ _ Hin Hm) as [e He]. congruence.
Qed.

Lemma get_candidate_pairs_needs_every_column_witness :
  raises (@get_candidate_pairs Example.untied Example2.clusters
            [Example.A; Example.B; Example.P]
            [Example.A_test; Example.B_test; Example.P; Example.R]
            2 Example.floor_one).
Proof.
  apply (@get_candidate_pairs_needs_every_column Example.untied Example2.clusters
           [Example.A; Example.B; Example.P]
           [Example.A_test; Example.B_test; Example.P; Example.R]
           2 Example.floor_one "R"%string 1).
  - lia.
  - cbn. tauto.
  - left. reflexivity.
Defined.

(** *** The unique tickers *)

Lemma compare_Eq_eq (s x : string) : String_as_OT.compare s x = Eq -> s = x.
Proof.
  intros H. destruct (String_as_OT.compare_spec s x) as [E|E|E]; try discriminate.
  exact E.
Qed.

Lemma compare_Gt_lt (s x : string) :
  String_as_OT.compare s x = Gt -> String_as_OT.lt x s.
Proof.
  intros H. destruct (String_as_OT.compare_spec s x) as [E|E|E]; try discriminate.
  exact E.
Qed.

Lemma insert_unique_In (s k : string) (l : list string) :
  In k (insert_unique s l) <-> k = s \/ In k l.
Proof.
  induction l as [|x rest IH]; cbn [insert_unique].
  - cbn. intuition.
  - destruct (String_as_OT.compare s x) eqn:E.
    + apply compare_Eq_eq in E. subst x. cbn. intuition.
    + cbn. intuition.
    + cbn [In]. rewrite IH. intuition.
Qed.

Lemma insert_unique_sorted (s : string) (l : list string) :
  StronglySorted String_as_OT.lt l ->
  StronglySorted String_as_OT.lt (insert_unique s l).
Proof.
  induction 1 as [|x rest Hs IH Hx]; cbn [insert_unique].
  - constructor; constructor.
  - destruct (String_as_OT.compare s x) eqn:E.
    + constructor; assumption.
    + constructor; [constructor; assumption|].
      constructor; [exact E|].
      apply Forall_forall. intros y Hy. rewrite Forall_forall in Hx.
      apply (StrictOrder_Transitive (R := String_as_OT.lt) s x y E (Hx y Hy)).
    + constructor; [exact IH|].
      apply Forall_forall. intros y Hy. apply insert_unique_In in Hy.
      destruct Hy as [->|Hy]; [apply compare_Gt_lt; exact E|].
      rewrite Forall_forall in Hx. apply Hx. exact Hy.
Qed.

Lemma np_unique_In (k : string) (l : list string) : In k (np_unique l) <-> In k l.
Proof.
  induction l as [|x l IH]; [reflexivity|].
  cbn [np_unique fold_right]. rewrite insert_unique_In.
  fold (np_unique l). rewrite IH. cbn. intuition.
Qed.

Lemma np_unique_sorted (l : list string) : StronglySorted String_as_OT.lt (np_unique l).
Proof.
  induction l as [|x l IH]; [constructor|].
  cbn [np_unique fold_right]. apply insert_unique_sorted. exact IH.
Qed.

(** X22.  The tickers that [get_candidate_pairs] returns beside the pairs
    are exactly the tickers that occur in a returned pair, each once, in
    strictly increasing order. *)
Theorem get_candidate_pairs_unique_tickers (B : Backend) (cs : labels)
  (train test : frame) (n_clusters : nat) (th : thresholds)
  (total : list candidate) (uniq : list string) :
  get_candidate_pairs cs train test n_clusters th = Ok (total, uniq) ->
  StronglySorted String_as_OT.lt uniq
  /\ NoDup uniq
  /\ (forall k, In k uniq
                <-> exists c, In c total /\ (k = fst (fst c) \/ k = snd (fst c))).
Proof.
  intros H. apply get_candidate_pairs_total in H. destruct H as [_ ->].
  split; [apply np_unique_sorted|]. split.
  - pose proof (np_unique_sorted (tickers total)) as Hs.
    induction Hs as [|x l _ IH Hx]; constructor; [| exact IH].
    intros Hin. rewrite Forall_forall in Hx. specialize (Hx x Hin).
    apply (StrictOrder_Irreflexive (R := String_as_OT.lt) x Hx).
  - intros k. rewrite np_unique_In. unfold tickers. rewrite in_flat_map.
    split; intros [c [Hc Hk]]; exists c; (split; [exact Hc|]); cbn in *; intuition.
Qed.

Lemma get_candidate_pairs_unique_tickers_witness :
  StronglySorted String_as_OT.lt ["P"; "R"]%string.
Proof.
  apply (@get_candidate_pairs_unique_tickers Example.untied Example2.clusters
           [Example.A; Example2.N; Example.B; Example.P; Example.R]
           [Example.A_test; Example2.N; Example.B_test; Example.P; Example.R]
           2 Example.floor_one Example.slow
           ["P"; "R"]%string).
  vm_compute. reflexivity.
Defined.

(** ** zscore *)

Lemma np_divide_nonzero (a d : Q) : ~ d == 0 -> np_divide a d = Fin (a / d).
Proof.
  intros H. unfold np_divide. destruct (Qeq_bool d 0) eqn:E; [| reflexivity].
  apply Qeq_bool_iff in E. contradiction.
Qed.

Lemma length_nonzero {A : Type} (l : list A) :
  l <> [] -> ~ inject_Z (Z.of_nat (length l)) == 0.
Proof.
  intros H. destruct l as [|a t]; [congruence|]. cbn [length].
  change 0 with (inject_Z 0). rewrite inject_Z_injective. lia.
Qed.

(** X23.  When the standard deviation [s] of the series is finite and not
    zero, [zscore] returns the finite values [(v - mean) / s]; they sum to
    zero, and their squares sum to [len(series)] when [s] squared is the
    population variance.  When [s] is zero and the series is constant, every
    entry is [nan]. *)
Theorem zscore_standardised (B : Backend) (series : list Q) (s v0 : Q) :
  np_std series = Fin s ->
  (~ s == 0 ->
   zscore series = map (fun v => Fin ((v - mean series) / s)) series
   /\ (series <> [] ->
       fold_right Qplus 0 (map (fun v => (v - mean series) / s) series) == 0)
   /\ (fold_right Qplus 0
         (map (fun v => (v - mean series) * (v - mean series)) series)
       == s * s * inject_Z (Z.of_nat (length series)) ->
       fold_right Qplus 0
         (map (fun v => (v - mean series) / s * ((v - mean series) / s)) series)
       == inject_Z (Z.of_nat (length series))))
  /\ (s == 0 -> Forall (fun a => a == v0) series ->
      zscore series = map (fun _ => NaN) series).
Proof.
  intros Hstd. split.
  - intros Hs. split; [| split].
    + unfold zscore. rewrite Hstd. apply map_ext. intros v. cbn [divide_by].
      apply np_divide_nonzero. exact Hs.
    + intros Hne. pose proof (length_nonzero series Hne) as Hn.
      rewrite (sum_map_Qeq _ (fun v => / s * v + - (mean series / s)))
        by (intros v _; field; exact Hs).
      rewrite sum_affine. unfold mean. rewrite np_sum_fold_right. field.
      split; assumption.
    + intros Hvar.
      rewrite (sum_map_Qeq _ (fun v => / (s * s)
                                       * ((v - mean series) * (v - mean series))))
        by (intros v _; field; exact Hs).
      rewrite sum_scale, Hvar. field. exact Hs.
  - intros Hs Hflat. unfold zscore. rewrite Hstd. apply map_ext_in. intros v Hv.
    cbn [divide_by]. unfold np_divide.
    rewrite (proj2 (Qeq_bool_iff s 0) Hs).
    assert (Hm : mean series == v0).
    { assert (Hne : series <> []) by (destruct series; [destruct Hv | discriminate]).
      pose proof (length_nonzero series Hne) as Hn.
      unfold mean. rewrite np_sum_fold_right, <- (map_id series) at 1.
      rewrite (sum_constant (fun a => a) v0)
        by (intros a Ha; rewrite Forall_forall in Hflat; apply Hflat; exact Ha).
      field. exact Hn. }
    rewrite Forall_forall in Hflat.
    rewrite (proj2 (Qeq_bool_iff (v - mean series) 0)); [reflexivity|].
    rewrite (Hflat v Hv), Hm. ring.
Qed.

Lemma zscore_standardised_witness :
  @zscore Example2.unit_std [1; 3]
  = map (fun v => Fin ((v - mean [1; 3]) / 1)) [1; 3].
Proof.
  apply (fun H => proj1 (proj1 (@zscore_standardised Example2.unit_std [1; 3] 1 0
                                  eq_refl) H)).
  intros H. discriminate H.
Defined.

(** ** Clustering *)

Lemma body_trial (K : Sklearn) (returns_df : frame) (epsilon : Q) (min_samples : nat)
  (b : best) (n_comp : nat) :
  then_ (apply_PCA n_comp returns_df "auto") (fun pca =>
  let X := fst pca in
  then_ (of_result (apply_DBSCAN epsilon min_samples X returns_df)) (fun c =>
  then_ (of_result (silhouette_score X (clf c))) (fun silhouette =>
  if Qlt_bool (best_silhouette b) silhouette
  then Returned {| best_n_comp := Z.of_nat n_comp;
                   best_silhouette := silhouette;
                   best_X := Some X;
                   best_clustering := Some c |}
  else Returned b)))
  = then_ (trial returns_df epsilon min_samples n_comp) (fun sp =>
      Returned (if Qlt_bool (best_silhouette b) (fst sp)
                then {| best_n_comp := Z.of_nat n_comp;
                        best_silhouette := fst sp;
                        best_X := Some (fst (snd sp));
                        best_clustering := Some (snd (snd sp)) |}
                else b)).
Proof.
  unfold trial. destruct (apply_PCA n_comp returns_df "auto") as [pca| |];
    cbn [then_]; try reflexivity.
  destruct (apply_DBSCAN epsilon min_samples (fst pca) returns_df) as [c|];
    cbn [of_result then_]; try reflexivity.
  destruct (silhouette_score (fst pca) (clf c)) as [s|]; cbn [of_result then_ fst snd];
    try reflexivity.
  destruct (Qlt_bool (best_silhouette b) s); reflexivity.
Qed.

Lemma loop_best (K : Sklearn) (returns_df : frame) (epsilon : Q) (min_samples : nat)
  (xs : list nat) (b bf : best) :
  loop xs b (fun b n_comp =>
    then_ (trial returns_df epsilon min_samples n_comp) (fun sp =>
      Returned (if Qlt_bool (best_silhouette b) (fst sp)
                then {| best_n_comp := Z.of_nat n_comp;
                        best_silhouette := fst sp;
                        best_X := Some (fst (snd sp));
                        best_clustering := Some (snd (snd sp)) |}
                else b))) = Returned bf ->
  (bf = b
   /\ forall n, In n xs ->
        exists s p, trial returns_df epsilon min_samples n = Returned (s, p)
                    /\ s <= best_silhouette b)
  \/ (exists pre n post s Xv cv,
        xs = pre ++ n :: post
        /\ trial returns_df epsilon min_samples n = Returned (s, (Xv, cv))
        /\ best_X bf = Some Xv /\ best_clustering bf = Some cv
        /\ best_silhouette b < s
        /\ (forall n', In n' pre ->
              exists s' p', trial returns_df epsilon min_samples n' = Returned (s', p')
                            /\ s' < s)
        /\ (forall n', In n' post ->
              exists s' p', trial returns_df epsilon min_samples n' = Returned (s', p')
                            /\ s' <= s)).
Proof.
  revert b. induction xs as [|x rest IH]; intros b H.
  - cbn [loop] in H. inversion H; subst. left. split; [reflexivity|]. intros n [].
  - cbn [loop] in H.
    destruct (trial returns_df epsilon min_samples x) as [[sx [Xx cx]]| |] eqn:Ex;
      cbn [then_ fst snd] in H; try discriminate.
    destruct (Qlt_bool (best_silhouette b) sx) eqn:Elt.
    + apply Qlt_bool_iff in Elt.
      destruct (IH _ H) as [[-> Hall]|(pre & n & post & s & Xv & cv & -> & Hn & HX & Hc & Hlt & Hpre & Hpost)].
      * right. exists [], x, rest, sx, Xx, cx. cbn [best_silhouette] in Hall.
        repeat split; try reflexivity; try assumption. intros n' [].
      * right. exists (x :: pre), n, post, s, Xv, cv. cbn [best_silhouette] in Hlt.
        repeat split; try assumption; try lra.
        intros n' [<-|Hn']; [exists sx, (Xx, cx); split; [exact Ex | exact Hlt]|].
        apply Hpre. exact Hn'.
    + apply Qlt_bool_false_iff in Elt.
      destruct (IH _ H) as [[-> Hall]|(pre & n & post & s & Xv & cv & -> & Hn & HX & Hc & Hlt & Hpre & Hpost)].
      * left. split; [reflexivity|]. intros n [<-|Hn]; [| apply Hall; exact Hn].
        exists sx, (Xx, cx). split; [exact Ex | exact Elt].
      * right. exists (x :: pre), n, post, s, Xv, cv.
        repeat split; try assumption.
        intros n' [<-|Hn']; [exists sx, (Xx, cx); split; [exact Ex | lra]|].
        apply Hpre. exact Hn'.
Qed.

Lemma loop_ext {A S : Type} (xs : list A) (s : S) (body body' : S -> A -> outcome S) :
  (forall s x, body s x = body' s x) -> loop xs s body = loop xs s body'.
Proof.
  intros E. revert s. induction xs as [|x xs IH]; intros s; [reflexivity|].
  cbn [loop]. rewrite E. destruct (body' s x); cbn [then_]; [apply IH | |]; reflexivity.
Qed.

(** X24.  When [clustering_for_optimal_PCA] returns, it returns the reduced
    data and clustering of the number of components with the highest
    silhouette, the smallest such number when several are equal, and that
    silhouette is above -1; or, when no number of components in the range
    scores above -1 (or the range is empty), it returns [None] everywhere. *)
Theorem clustering_for_optimal_PCA_best (K : Sklearn)
  (min_components max_components : nat) (returns_df : frame)
  (epsilon : Q) (min_samples : nat) (X : option matrix) (c : option clustering) :
  clustering_for_optimal_PCA min_components max_components returns_df
    epsilon min_samples = Returned (X, c) ->
  (X = None /\ c = None
   /\ forall n, In n (range min_components max_components) ->
        exists s p, trial returns_df epsilon min_samples n = Returned (s, p)
                    /\ s <= - (1))
  \/ (exists pre n post s Xv cv,
        range min_components max_components = pre ++ n :: post
        /\ trial returns_df epsilon min_samples n = Returned (s, (Xv, cv))
        /\ X = Some Xv /\ c = Some cv
        /\ - (1) < s
        /\ (forall n', In n' pre ->
              exists s' p', trial returns_df epsilon min_samples n' = Returned (s', p')
                            /\ s' < s)
        /\ (forall n', In n' post ->
              exists s' p', trial returns_df epsilon min_samples n' = Returned (s', p')
                            /\ s' <= s)).
Proof.
  unfold clustering_for_optimal_PCA. intros H.
  rewrite (loop_ext _ _ _ _ (body_trial K returns_df epsilon min_samples)) in H.
  destruct (loop _ _ _) as [bf| |] eqn:El; cbn [then_] in H; try discriminate.
  inversion H; subst X c. clear H.
  destruct (loop_best _ _ _ _ _ _ _ El)
    as [[-> Hall]|(pre & n & post & s & Xv & cv & Hr & Hn & HX & Hc & Hlt & Hpre & Hpost)].
  - left. cbn. repeat split. exact Hall.
  - right. exists pre, n, post, s, Xv, cv. cbn [best_silhouette] in Hlt. tauto.
Qed.

Lemma loop_each_returned {A S : Type} (xs : list A) (s t : S)
  (body : S -> A -> outcome S) (x : A) :
  loop xs s body = Returned t -> In x xs -> exists s1 s2, body s1 x = Returned s2.
Proof.
  revert s. induction xs as [|y xs IH]; intros s H Hx; [destruct Hx|].
  cbn [loop] in H. destruct (body s y) as [s'| |] eqn:Eb; cbn [then_] in H;
    try discriminate.
  destruct Hx as [->|Hx]; [exists s, s'; exact Eb | apply (IH _ H Hx)].
Qed.

(** X25.  [clustering_for_optimal_PCA] cannot return when its range holds a
    number of components larger than the number of columns of the data:
    [apply_PCA] then exits the process, unless an earlier number of
    components raised. *)
Theorem clustering_for_optimal_PCA_too_many_components (K : Sklearn)
  (min_components max_components n : nat) (returns_df : frame)
  (epsilon : Q) (min_samples : nat) :
  (min_components <= n < max_components)%nat -> (length returns_df < n)%nat ->
  apply_PCA n returns_df "auto" = Exited
  /\ forall r, clustering_for_optimal_PCA min_components max_components returns_df
                 epsilon min_samples <> Returned r.
Proof.
  intros Hn Hcols.
  assert (Hexit : apply_PCA n returns_df "auto" = Exited).
  { unfold apply_PCA. rewrite (proj2 (Nat.ltb_lt _ _) Hcols). reflexivity. }
  split; [exact Hexit|]. intros r H. unfold clustering_for_optimal_PCA in H.
  destruct (loop _ _ _) as [bf| |] eqn:El; cbn [then_] in H; try discriminate.
  assert (Hin : In n (range min_components max_components))
    by (unfold range; apply in_seq; lia).
  destruct (loop_each_returned _ _ _ _ _ El Hin) as [s1 [s2 Hb]].
  rewrite Hexit in Hb. discriminate Hb.
Qed.

Lemma clustering_for_optimal_PCA_best_witness :
  exists n s p,
    In n (range 1 4)
    /\ @trial Example3.toy Example3.returns (1 # 2) 2 n = Returned (s, p)
    /\ - (1) < s
    /\ @clustering_for_optimal_PCA Example3.toy 1 4 Example3.returns (1 # 2) 2
       = Returned (Some (fst p), Some (snd p)).
Proof.
  destruct (@trial Example3.toy Example3.returns (1 # 2) 2 2) as [[s2 [X2 c2]]| |] eqn:E2;
    try (vm_compute in E2; discriminate E2).
  assert (Hret : @clustering_for_optimal_PCA Example3.toy 1 4 Example3.returns (1 # 2) 2
                 = Returned (Some X2, Some c2)).
  { vm_compute in E2. injection E2 as <- <- <-. vm_compute. reflexivity. }
  destruct (@clustering_for_optimal_PCA_best Example3.toy 1 4 Example3.returns
              (1 # 2) 2 (Some X2) (Some c2) Hret)
    as [[HX _]|(pre & n & post & s & Xv & cv & Hr & Hn & HX & Hc & Hlt & Hpre & Hpost)].
  - discriminate HX.
  - injection HX as ->. injection Hc as ->.
    exists n, s, (Xv, cv).
    split; [rewrite Hr; apply in_elt|].
    split; [exact Hn|]. split; [exact Hlt | exact Hret].
Defined.

Lemma clustering_for_optimal_PCA_too_many_components_witness :
  @apply_PCA Example3.toy 5 Example3.returns "auto" = Exited
  /\ @clustering_for_optimal_PCA Example3.toy 3 7 Example3.returns (1 # 2) 2
     <> Returned (None, None).
Proof.
  destruct (@clustering_for_optimal_PCA_too_many_components Example3.toy 3 7 5
              Example3.returns (1 # 2) 2) as [He Hr].
  - lia.
  - cbn. lia.
  - split; [exact He | apply Hr].
Defined.

Lemma filter_count_occ (l : list (string * Z)) (label : Z) :
  label <> (-1)%Z ->
  count_occ Z.eq_dec (map snd (filter (fun tl => negb (Z.eqb (snd tl) (-1))) l)) label
  = count_occ Z.eq_dec (map snd l) label.
Proof.
  intros Hl. induction l as [|[t z] l IH]; [reflexivity|].
  cbn [filter snd]. destruct (Z.eqb_spec z (-1)) as [->|Hz]; cbn [negb map snd].
  - rewrite IH. rewrite count_occ_cons_neq; [reflexivity | congruence].
  - cbn [count_occ]. destruct (Z.eq_dec z label); rewrite IH; reflexivity.
Qed.

Lemma filter_noise_length (l : list (string * Z)) :
  (length (filter (fun tl => negb (Z.eqb (snd tl) (-1))) l)
   + count_occ Z.eq_dec (map snd l) (-1)%Z = length l)%nat.
Proof.
  induction l as [|[t z] l IH]; [reflexivity|].
  cbn [filter snd map count_occ length].
  destruct (Z.eqb_spec z (-1)) as [->|Hz]; cbn [negb length].
  - destruct (Z.eq_dec (-1) (-1)); [lia | congruence].
  - destruct (Z.eq_dec z (-1)); [congruence | lia].
Qed.

(** X26.  When [apply_DBSCAN] returns, the series of all tickers pairs the
    columns of the data, in order, with the labels of the fitted model; the
    clustered series is that series without the tickers labelled -1, in the
    same order; and the counts give, for every label other than -1, the
    number of tickers the model gave that label, and 0 for -1.  The noise
    tickers and the clustered ones add up to the number of columns. *)
Theorem apply_DBSCAN_partition (K : Sklearn) (eps : Q) (min_samples : nat)
  (X : matrix) (df_returns : frame) (c : clustering) :
  apply_DBSCAN eps min_samples X df_returns = Ok c ->
  dbscan_labels eps min_samples X = Ok (clf c)
  /\ map fst (clustered_series_all c) = map name df_returns
  /\ map snd (clustered_series_all c) = clf c
  /\ (forall t l, In (t, l) (clustered_series c)
                  <-> In (t, l) (clustered_series_all c) /\ l <> (-1)%Z)
  /\ (exists keep, clustered_series c = filter keep (clustered_series_all c))
  /\ (forall l, l <> (-1)%Z -> counts c l = count_occ Z.eq_dec (clf c) l)
  /\ counts c (-1)%Z = 0%nat
  /\ (length (clustered_series c) + count_occ Z.eq_dec (clf c) (-1)%Z
      = length df_returns)%nat.
Proof.
  unfold apply_DBSCAN, series_of. intros H.
  destruct (dbscan_labels eps min_samples X) as [labels|] eqn:El;
    cbn [bind] in H; try discriminate.
  destruct (Nat.eqb_spec (length (map name df_returns)) (length labels)) as [Hlen|];
    cbn [bind] in H; try discriminate.
  injection H as <-. cbn [clf clustered_series_all clustered_series counts].
  assert (Hfst : map fst (combine (map name df_returns) labels) = map name df_returns).
  { clear El. revert labels Hlen.
    induction (map name df_returns) as [|a l IH]; intros [|z zs] Hlen;
      try discriminate; [reflexivity|].
    cbn. f_equal. apply IH. cbn in Hlen. congruence. }
  assert (Hsnd : map snd (combine (map name df_returns) labels) = labels).
  { clear El Hfst. revert labels Hlen.
    induction (map name df_returns) as [|a l IH]; intros [|z zs] Hlen;
      try discriminate; [reflexivity|].
    cbn. f_equal. apply IH. cbn in Hlen. congruence. }
  split; [reflexivity|]. split; [exact Hfst|]. split; [exact Hsnd|].
  split.
  { intros t l. rewrite filter_In. cbn [snd].
    destruct (Z.eqb_spec l (-1)); cbn [negb]; split; intros [H1 H2];
      try discriminate; try (split; [assumption|]); try congruence; reflexivity. }
  split; [eexists; reflexivity|].
  split.
  { intros l Hl. unfold value_counts. rewrite filter_count_occ by exact Hl.
    rewrite Hsnd. reflexivity. }
  split.
  { unfold value_counts. apply count_occ_not_In. intros Hin.
    apply in_map_iff in Hin. destruct Hin as [[t z] [Hz Hin]].
    apply filter_In in Hin. cbn [snd] in *. subst z.
    destruct Hin as [_ Hin]. discriminate Hin. }
  pose proof (filter_noise_length (combine (map name df_returns) labels)) as Hf.
  rewrite Hsnd in Hf. rewrite Hf.
  rewrite length_combine, <- Hlen, Nat.min_id, length_map. reflexivity.
Qed.

Lemma apply_DBSCAN_partition_witness :
  exists c, @apply_DBSCAN Example3.toy (1 # 2) 2 [[0]; [0]; [0]; [0]] Example3.returns = Ok c
    /\ clustered_series c = [("B", 0); ("P", 0); ("R", 0)]%Z%string
    /\ counts c 0%Z = 3%nat
    /\ counts c (-1)%Z = 0%nat.
Proof.
  eexists. split; [vm_compute; reflexivity|].
  split; [reflexivity|].
  pose proof (@apply_DBSCAN_partition Example3.toy (1 # 2) 2 [[0]; [0]; [0]; [0]]
                Example3.returns _ eq_refl) as (_ & _ & _ & _ & _ & Hc & H0 & _).
  split; [| exact H0].
  rewrite Hc by discriminate. reflexivity.
Defined.
